(** * pixel-palette: the palette generator of [generator.py]

    A shallow embedding of [generator.py].  Python integers are [Z];
    Python floats are IEEE 754 binary64 numbers, taken from the Standard
    Library's executable specification [SpecFloat] (precision 53, maximal
    exponent 1024, round to nearest with ties to even); exceptions are an
    explicit result type; the palette object is a record threaded through
    the methods. *)

From Stdlib Require Import String.
From Stdlib Require Import ZArith List Bool Lia.
From Stdlib Require Import Rbase Rfunctions Lra.
From Stdlib Require Import Floats.SpecFloat.
Import ListNotations.

Local Open Scope Z_scope.

(** ** Python values and exceptions *)

Module Py.

(** The exceptions the arithmetic of [generator.py] can raise. *)
Inductive exn : Type :=
| ZeroDivisionError
| OverflowError
| ValueError.

Inductive result (A : Type) : Type :=
| Ok (a : A)
| Raise (e : exn).

Arguments Ok {A} a.
Arguments Raise {A} e.

Definition bind {A B : Type} (r : result A) (k : A -> result B) : result B :=
  match r with
  | Ok a => k a
  | Raise e => Raise e
  end.

Definition prec : Z := 53.
Definition emax : Z := 1024.

(** A Python [float]. *)
Definition float : Type := spec_float.

(** An integer as the exact (not yet rounded) binary number [a * 2^0]. *)
Definition Z2SF (a : Z) : float :=
  match a with
  | Z0 => S754_zero false
  | Zpos p => S754_finite false p 0
  | Zneg p => S754_finite true p 0
  end.

(** [a / b] on two [int]s: the correctly rounded quotient;
    [ZeroDivisionError] when [b] is zero, [OverflowError] when the quotient
    is too large for a float. *)
Definition int_truediv (a b : Z) : result float :=
  if b =? 0 then Raise ZeroDivisionError
  else match SFdiv prec emax (Z2SF a) (Z2SF b) with
       | S754_infinity _ => Raise OverflowError
       | f => Ok f
       end.

(** The conversion of an [int] operand of a mixed [int]/[float] operation:
    correctly rounded, [OverflowError] when too large. *)
Definition float_of_int (a : Z) : result float :=
  match binary_normalize prec emax a 0 false with
  | S754_infinity _ => Raise OverflowError
  | f => Ok f
  end.

(** [a - x] and [a * x] with [a] an [int] and [x] a [float]: [a] is
    converted first. *)
Definition int_sub_float (a : Z) (x : float) : result float :=
  bind (float_of_int a) (fun fa => Ok (SFsub prec emax fa x)).

Definition int_mul_float (a : Z) (x : float) : result float :=
  bind (float_of_int a) (fun fa => Ok (SFmul prec emax fa x)).

Definition float_add (x y : float) : float := SFadd prec emax x y.

(** Rounding of the non-negative binary number [m * 2^e] to the nearest
    integer, ties to the even one. *)
Definition round_half_even (m : Z) (e : Z) : Z :=
  match e with
  | Zneg p =>
      let d := Z.pow_pos 2 p in
      let q := m / d in
      match (2 * (m mod d)) ?= d with
      | Lt => q
      | Eq => if Z.even q then q else q + 1
      | Gt => q + 1
      end
  | _ => m * 2 ^ e
  end.

(** [round(x)] with one argument: the nearest [int], ties to even;
    [ValueError] on a NaN, [OverflowError] on an infinity. *)
Definition round (x : float) : result Z :=
  match x with
  | S754_zero _ => Ok 0
  | S754_finite s m e => Ok (cond_Zopp s (round_half_even (Zpos m) e))
  | S754_infinity _ => Raise OverflowError
  | S754_nan => Raise ValueError
  end.

(** [range(lo, hi)] as the list of its integers. *)
Definition range (lo hi : Z) : list Z :=
  map (fun k => lo + Z.of_nat k) (seq 0 (Z.to_nat (hi - lo))).

(** A [for] loop whose body may raise: the state is threaded through the
    iterations and the first exception ends the loop. *)
Fixpoint for_each {A S : Type} (l : list A) (body : A -> S -> result S)
  (s : S) : result S :=
  match l with
  | [] => Ok s
  | x :: l' => bind (body x s) (for_each l' body)
  end.

End Py.

Import Py.

Notation "x <- c1 ;; c2" := (Py.bind c1 (fun x => c2))
  (at level 61, c1 at next level, right associativity).

(** ** The functions of [generator.py] *)

(** A colour or a range: a tuple [(hue, saturation, value)] of [int]s. *)
Definition color : Type := (Z * Z * Z)%type.

Definition hue (c : color) : Z := fst (fst c).
Definition sat (c : color) : Z := snd (fst c).
Definition val (c : color) : Z := snd c.

(** [mix(a, b, ratio_b)] = [a * (1-ratio_b) + b * ratio_b], with [a] and
    [b] integers and [ratio_b] a float. *)
Definition mix (a b : Z) (ratio_b : float) : result float :=
  u <- int_sub_float 1 ratio_b ;;
  x <- int_mul_float a u ;;
  y <- int_mul_float b ratio_b ;;
  Ok (float_add x y).

Definition mix_colors (c1 c2 : color) (ratio_c2 : float) : result color :=
  h <- (m <- mix (hue c1) (hue c2) ratio_c2 ;; round m) ;;
  s <- (m <- mix (sat c1) (sat c2) ratio_c2 ;; round m) ;;
  v <- (m <- mix (val c1) (val c2) ratio_c2 ;; round m) ;;
  Ok (h, s, v).

Definition hsv_adjust_channel (c r : Z) : result Z :=
  q <- int_truediv (255 * c) r ;; round q.

Definition hsv_adjust_range (c current_range : color) : result color :=
  h <- hsv_adjust_channel (hue c) (hue current_range) ;;
  s <- hsv_adjust_channel (sat c) (sat current_range) ;;
  v <- hsv_adjust_channel (val c) (val current_range) ;;
  Ok (h, s, v).

(** The object state of a [PixelPalette]. *)
Record PixelPalette : Type := mkPalette {
  rows : list (list color);
  hsv_range : color
}.

(** [PixelPalette.__init__]. *)
Definition init (hsv_range : color) : PixelPalette :=
  {| rows := []; hsv_range := hsv_range |}.

Definition default_range : color := (100, 100, 100).

(** A method call: the exception raised, if any, and the object after the
    call. *)
Definition method (A : Type) : Type := PixelPalette -> result A * PixelPalette.

(** The body of the loop of [add_gradient]. *)
Definition gradient_step (color1 color2 : color) (number_in_between : Z)
  (i : Z) (new_row : list color) : result (list color) :=
  t <- int_truediv (i + 1) (number_in_between + 1) ;;
  c <- mix_colors color1 color2 t ;;
  Ok (new_row ++ [(hue c mod 255, sat c, val c)]).

(** The row [add_gradient] builds, before it is appended. *)
Definition gradient_row (hsv_range color1 color2 : color)
  (number_in_between : Z) (hue_ascending : bool) : result (list color) :=
  color1 <- hsv_adjust_range color1 hsv_range ;;
  color2 <- hsv_adjust_range color2 hsv_range ;;
  let new_row := [color1] in
  let color1 := if negb hue_ascending
                then (hue color1 + 255, sat color1, val color1)
                else color1 in
  new_row <- for_each (range 0 number_in_between)
               (gradient_step color1 color2 number_in_between) new_row ;;
  Ok (new_row ++ [color2]).

Definition add_gradient (color1 color2 : color) (number_in_between : Z)
  (hue_ascending : bool) : method unit :=
  fun self =>
    match gradient_row (hsv_range self) color1 color2 number_in_between
            hue_ascending with
    | Raise e => (Raise e, self)
    | Ok new_row =>
        (Ok tt, {| rows := rows self ++ [new_row];
                   hsv_range := hsv_range self |})
    end.

(** The row [add_shades] builds, before it is appended. *)
Definition shades_row (hsv_range base_color shift : color)
  (number_down number_up : Z) : result (list color) :=
  base_color <- hsv_adjust_range base_color hsv_range ;;
  shift <- hsv_adjust_range shift hsv_range ;;
  for_each (range (- number_down) (number_up + 1))
    (fun i new_row =>
       Ok (new_row ++ [(hue base_color + hue shift * i,
                        sat base_color + sat shift * i,
                        val base_color + val shift * i)]))
    [].

Definition add_shades (base_color shift : color)
  (number_down number_up : Z) : method unit :=
  fun self =>
    match shades_row (hsv_range self) base_color shift number_down
            number_up with
    | Raise e => (Raise e, self)
    | Ok new_row =>
        (Ok tt, {| rows := rows self ++ [new_row];
                   hsv_range := hsv_range self |})
    end.

(** *** [save_as_image] and the image library *)

(** What [save_as_image] hands to the image library (PIL): the mode and
    size of [Image.new], the sequence given to [putdata], the mode of
    [convert] and the file name of [save]. *)
Inductive pil_mode : Type := HSV | RGB.

Record pil_image : Type := mkImage {
  im_mode : pil_mode;
  im_size : Z * Z;
  im_data : list color;
  im_convert : pil_mode;
  im_filename : string
}.

(** The first loop of [save_as_image]. *)
Definition image_width (rows : list (list color)) : Z :=
  fold_left (fun width row => Z.max width (Z.of_nat (length row))) rows 0.

(** [row[i] if i < len(row) else (0, 0, 0)]. *)
Definition pixel_at (row : list color) (i : Z) : color :=
  if i <? Z.of_nat (length row) then nth (Z.to_nat i) row (0, 0, 0)
  else (0, 0, 0).

(** The second, nested loop of [save_as_image]. *)
Definition image_pixels (rows : list (list color)) (width : Z) : list color :=
  fold_left
    (fun pixels row =>
       fold_left (fun pixels i => pixels ++ [pixel_at row i])
         (range 0 width) pixels)
    rows [].

Section ImageLibrary.

(** The image library is not part of [generator.py]: whatever it does
    with an image (the file it writes, or the error it raises) is a
    function of what it is handed. *)
Variable pil_outcome : Type.
Variable pil : pil_image -> pil_outcome.

Definition save_as_image (filename : string)
  : PixelPalette -> pil_outcome * PixelPalette :=
  fun self =>
    let width := image_width (rows self) in
    let pixels := image_pixels (rows self) width in
    (pil {| im_mode := HSV;
            im_size := (width, Z.of_nat (length (rows self)));
            im_data := pixels;
            im_convert := RGB;
            im_filename := filename |},
     self).

End ImageLibrary.

Arguments save_as_image {pil_outcome} pil filename self.

(** *** The script at the end of [generator.py] *)

(** A statement [palette.m(...)] followed by the rest of the script: an
    exception ends the script. *)
Definition run {A B : Type} (m : method A)
  (rest : A -> PixelPalette -> result B) (self : PixelPalette) : result B :=
  match m self with
  | (Ok a, self') => rest a self'
  | (Raise e, _) => Raise e
  end.

(** The five calls of the script, on the palette it constructs. *)
Definition script {pil_outcome : Type} (pil : pil_image -> pil_outcome)
  : result pil_outcome :=
  run (add_gradient (48, 19, 99) (16, 60, 99) 2 true) (fun _ =>
  run (add_gradient (16, 60, 99) (217, 25, 12) 5 false) (fun _ =>
  run (add_shades (138, 32, 77) (-10, -10, 25) 2 1) (fun _ =>
  run (add_shades (25, 56, 77) (10, -10, 25) 3 3) (fun _ palette =>
  Ok (fst (save_as_image pil "palette.png"%string palette))))))
    (init (360, 100, 100)).

(** ** Auxiliary definitions of the proofs *)

(** The monadic map of the result type: what a loop that appends one
    computed element per iteration builds. *)
Fixpoint map_result {A B : Type} (g : A -> result B) (l : list A)
  : result (list B) :=
  match l with
  | [] => Ok []
  | x :: l' => y <- g x ;; ys <- map_result g l' ;; Ok (y :: ys)
  end.

(** The colour one iteration of the loop of [add_gradient] appends. *)
Definition gradient_color (color1 color2 : color) (number_in_between : Z)
  (i : Z) : result color :=
  t <- int_truediv (i + 1) (number_in_between + 1) ;;
  c <- mix_colors color1 color2 t ;;
  Ok (hue c mod 255, sat c, val c).

(** [color1] as the loop of [add_gradient] uses it. *)
Definition shift_hue (hue_ascending : bool) (c : color) : color :=
  if negb hue_ascending then (hue c + 255, sat c, val c) else c.

(** The colour one iteration of the loop of [add_shades] appends. *)
Definition shade (base_color shift : color) (i : Z) : color :=
  (hue base_color + hue shift * i,
   sat base_color + sat shift * i,
   val base_color + val shift * i).

(** A range all of whose channels are positive. *)
Definition range_positive (r : color) : Prop :=
  0 < hue r /\ 0 < sat r /\ 0 < val r.

(** A range one of whose channels is zero. *)
Definition range_has_zero (r : color) : Prop :=
  hue r = 0 \/ sat r = 0 \/ val r = 0.

(** A range none of whose channels is zero. *)
Definition range_nonzero (r : color) : Prop :=
  hue r <> 0 /\ sat r <> 0 /\ val r <> 0.

(** An external colour within the range. *)
Definition in_range (c r : color) : Prop :=
  0 <= hue c <= hue r /\ 0 <= sat c <= sat r /\ 0 <= val c <= val r.

(** A colour within the canonical scale. *)
Definition canonical_bounds (c : color) : Prop :=
  0 <= hue c <= 255 /\ 0 <= sat c <= 255 /\ 0 <= val c <= 255.

(** A colour whose channels are at most [B] in magnitude. *)
Definition channels_within (B : Z) (c : color) : Prop :=
  Z.abs (hue c) <= B /\ Z.abs (sat c) <= B /\ Z.abs (val c) <= B.

(** [z] is an integer nearest to the exact quotient [255 * c / r]. *)
Definition nearest_scaled (c r z : Z) : Prop :=
  Z.abs (2 * r * z - 510 * c) <= r.

(** [z] is an integer nearest to the exact mix [a * (1-t) + b * t] at
    [t = (i+1) / (n+1)]. *)
Definition nearest_mix (a b n i z : Z) : Prop :=
  Z.abs (2 * (n + 1) * z - 2 * (a * (n - i) + b * (i + 1))) <= n + 1.

(** *** Real values of floats *)

Definition bpow (e : Z) : R := powerRZ 2 e.

Definition cond_Ropp (s : bool) (x : R) : R := if s then (- x)%R else x.

(** The real number a float stands for (zero for the special values). *)
Definition F2R (f : float) : R :=
  match f with
  | S754_finite s m e => (IZR (cond_Zopp s (Zpos m)) * bpow e)%R
  | _ => 0%R
  end.

Definition is_finite (f : float) : bool :=
  match f with
  | S754_finite _ _ _ | S754_zero _ => true
  | _ => false
  end.

(** An integer within one half, and the rounding error of the division,
    of [255 * c / r]. *)
Definition near_scaled (c r z : Z) : Prop :=
  (255 * IZR c / IZR r - (/ 2 + bpow (-45)) <= IZR z
     <= 255 * IZR c / IZR r + (/ 2 + bpow (-45)))%R.

(** The exact mix of two channels at the ratio [q]. *)
Definition exact_mix (a b : Z) (q : R) : R :=
  (IZR a * (1 - q) + IZR b * q)%R.

(** An integer within one half, and the rounding error of [mix], of the
    exact mix. *)
Definition near_mix (a b : Z) (q : R) (z : Z) : Prop :=
  (exact_mix a b q - (/ 2 + bpow (-40)) <= IZR z
     <= exact_mix a b q + (/ 2 + bpow (-40)))%R.

(** *** Calls and their effect *)

(** The call [m] on [self] succeeds and appends [row], leaving the rows
    already there and the range as they were. *)
Definition appends (m : method unit) (self : PixelPalette)
  (row : list color) : Prop :=
  m self = (Ok tt, {| rows := rows self ++ [row];
                      hsv_range := hsv_range self |}).

(** What [save_as_image] hands to the image library. *)
Definition handed_image (filename : string) (self : PixelPalette)
  : pil_image :=
  fst (save_as_image (fun img => img) filename self).

(** A colour, or a range, with every channel negated. *)
Definition opp_color (c : color) : color := (- hue c, - sat c, - val c).

(** * Properties *)

(** Goals about the channels of concrete colours and ranges. *)
Ltac channels :=
  unfold range_positive, range_nonzero, range_has_zero, in_range,
    canonical_bounds, hue, sat, val;
  cbn; lia.

(** ** Binary64 arithmetic: error bounds for the operations of [SpecFloat]

    Each operation rounds its exact result through [binary_round_aux].
    The lemmas of this part bound the distance between the float returned
    and the exact real result by one unit in the last place (which of the
    two neighbouring floats is returned is not needed below), and show
    that the result is finite away from overflow. *)

(** *** Powers of two *)

Section Bpow.
Local Open Scope R_scope.

Lemma bpow_add (a b : Z) : bpow (a + b) = bpow a * bpow b.
Proof. unfold bpow. apply powerRZ_add. lra. Qed.

Lemma bpow_gt_0 (e : Z) : 0 < bpow e.
Proof. unfold bpow. apply powerRZ_lt. lra. Qed.

Lemma bpow_IZR (k : Z) : (0 <= k)%Z -> bpow k = IZR (2 ^ k).
Proof.
  intros Hk. unfold bpow. destruct k as [|p|p]; [reflexivity| |lia].
  rewrite <- Z.pow_pos_fold. now rewrite Zpower_pos_powerRZ.
Qed.

Lemma bpow_ge_1 (k : Z) : (0 <= k)%Z -> 1 <= bpow k.
Proof.
  intros Hk. rewrite bpow_IZR by assumption. apply IZR_le.
  assert (0 < 2 ^ k)%Z by (apply Z.pow_pos_nonneg; lia). lia.
Qed.

Lemma bpow_le (a b : Z) : (a <= b)%Z -> bpow a <= bpow b.
Proof.
  intros Hab. replace b with (a + (b - a))%Z by lia. rewrite bpow_add.
  pose proof (bpow_gt_0 a). pose proof (bpow_ge_1 (b - a) ltac:(lia)). nra.
Qed.

Lemma bpow_0 : bpow 0 = 1.
Proof. reflexivity. Qed.

Lemma bpow_1 : bpow 1 = 2.
Proof. unfold bpow. simpl. lra. Qed.

Lemma bpow_lt_inv (a b : Z) : bpow a < bpow b -> (a < b)%Z.
Proof.
  intros H. destruct (Z_lt_le_dec a b) as [|Hle]; [assumption|].
  apply bpow_le in Hle. lra.
Qed.

Lemma bpow_opp (a : Z) : bpow (- a) = / bpow a.
Proof. unfold bpow. apply powerRZ_neg'. Qed.

Lemma bpow_sub_mul (a b : Z) : bpow a = bpow (a - b) * bpow b.
Proof. rewrite <- bpow_add. f_equal. lia. Qed.

End Bpow.

(** *** Binary digits *)

Section Digits.

Lemma digits2_pos_size (p : positive) : digits2_pos p = Pos.size p.
Proof. induction p; simpl; congruence. Qed.

Lemma Zdigits2_log2 (m : Z) : 0 < m -> Zdigits2 m = Z.log2 m + 1.
Proof.
  destruct m as [|p|p]; try lia. intros _.
  destruct p; simpl; rewrite ?digits2_pos_size; lia.
Qed.

Lemma Zdigits2_nonneg (m : Z) : 0 <= Zdigits2 m.
Proof. destruct m; simpl; lia. Qed.

Lemma Zdigits2_bounds (m : Z) :
  0 < m -> 2 ^ (Zdigits2 m - 1) <= m < 2 ^ Zdigits2 m.
Proof.
  intros Hm. rewrite (Zdigits2_log2 m Hm).
  replace (Z.log2 m + 1 - 1) with (Z.log2 m) by lia.
  apply (Z.log2_spec m Hm).
Qed.

Lemma Zdigits2_le (m k : Z) : 0 <= m -> 0 <= k -> m < 2 ^ k -> Zdigits2 m <= k.
Proof.
  intros Hm Hk Hlt. destruct (Z.eq_dec m 0) as [->|Hne]; [simpl; lia|].
  rewrite Zdigits2_log2 by lia.
  assert (Z.log2 m < k) by (apply Z.log2_lt_pow2; lia). lia.
Qed.

Lemma Zdigits2_div_pow2 (m n : Z) :
  0 < m -> 0 <= n -> 0 < m / 2 ^ n -> Zdigits2 (m / 2 ^ n) = Zdigits2 m - n.
Proof.
  intros Hm Hn Hq. rewrite !Zdigits2_log2 by lia.
  rewrite <- Z.shiftr_div_pow2 by lia.
  rewrite Z.log2_shiftr by lia.
  assert (n <= Z.log2 m).
  { apply Z.log2_le_pow2; [lia|].
    destruct (Z_lt_le_dec m (2 ^ n)) as [Hlt|]; [|assumption].
    rewrite Z.div_small in Hq by lia. lia. }
  lia.
Qed.

End Digits.

(** *** Shifting a mantissa to the right *)

Section Shr.

Lemma shr_1_m (mrs : shr_record) :
  0 <= shr_m mrs -> shr_m (shr_1 mrs) = shr_m mrs / 2.
Proof.
  destruct mrs as [m r s]. simpl. intros Hm.
  destruct m as [|p|p]; [reflexivity| |lia].
  destruct p; simpl.
  - rewrite Pos2Z.inj_xI. apply (Z.div_unique _ _ _ 1); lia.
  - rewrite Pos2Z.inj_xO. apply (Z.div_unique _ _ _ 0); lia.
  - reflexivity.
Qed.

Lemma iter_shr_1_m (p : positive) : forall mrs : shr_record,
  0 <= shr_m mrs ->
  shr_m (SpecFloat.iter_pos shr_1 p mrs) = shr_m mrs / 2 ^ Zpos p.
Proof.
  assert (Hnn : forall mrs, 0 <= shr_m mrs -> 0 <= shr_m mrs / 2).
  { intros. apply Z.div_pos; lia. }
  induction p as [p IH|p IH|]; intros mrs Hm; cbn [SpecFloat.iter_pos].
  - rewrite IH, IH, shr_1_m; try assumption.
    + rewrite !Z.div_div by (try apply Z.pow_pos_nonneg; lia).
      f_equal. rewrite (Pos2Z.inj_xI p), Z.pow_add_r, Z.pow_1_r by lia.
      replace (2 * Z.pos p) with (Z.pos p + Z.pos p) by lia.
      rewrite Z.pow_add_r by lia. ring.
    + rewrite shr_1_m by assumption. auto.
    + rewrite IH by (rewrite shr_1_m by assumption; auto).
      apply Z.div_pos; [|apply Z.pow_pos_nonneg; lia].
      rewrite shr_1_m by assumption. auto.
  - rewrite IH, IH; try assumption.
    + rewrite !Z.div_div by (try apply Z.pow_pos_nonneg; lia).
      f_equal. rewrite (Pos2Z.inj_xO p).
      replace (2 * Z.pos p) with (Z.pos p + Z.pos p) by lia.
      rewrite Z.pow_add_r by lia. ring.
    + rewrite IH by assumption.
      apply Z.div_pos; [assumption|apply Z.pow_pos_nonneg; lia].
  - rewrite shr_1_m by assumption. now rewrite Z.pow_1_r.
Qed.

Lemma loc_of_shr_record_of_loc (m : Z) (l : location) :
  loc_of_shr_record (shr_record_of_loc m l) = l.
Proof. destruct l as [|[]]; reflexivity. Qed.

Lemma shr_m_record_of_loc (m : Z) (l : location) :
  shr_m (shr_record_of_loc m l) = m.
Proof. destruct l as [|[]]; reflexivity. Qed.

(** What [shr_fexp] returns: the mantissa shifted to the exponent
    [Z.max e (fexp (digits m + e))], and the location kept when nothing is
    shifted out. *)
Lemma shr_fexp_spec (m e : Z) (l : location) :
  0 <= m ->
  let e' := Z.max e (fexp prec emax (Zdigits2 m + e)) in
  exists mrs,
    shr_fexp prec emax m e l = (mrs, e') /\
    shr_m mrs = m / 2 ^ (e' - e) /\
    (e' = e -> loc_of_shr_record mrs = l).
Proof.
  intros Hm e'. unfold shr_fexp, shr.
  destruct (fexp prec emax (Zdigits2 m + e) - e) as [|p|p] eqn:Hn.
  - exists (shr_record_of_loc m l). replace e' with e by lia.
    rewrite Z.sub_diag, Z.div_1_r, shr_m_record_of_loc, loc_of_shr_record_of_loc.
    auto.
  - exists (SpecFloat.iter_pos shr_1 p (shr_record_of_loc m l)).
    replace e' with (e + Z.pos p) by lia.
    rewrite iter_shr_1_m by (rewrite shr_m_record_of_loc; assumption).
    rewrite shr_m_record_of_loc. replace (e + Z.pos p - e) with (Z.pos p) by lia.
    repeat split. lia.
  - exists (shr_record_of_loc m l). replace e' with e by lia.
    rewrite Z.sub_diag, Z.div_1_r, shr_m_record_of_loc, loc_of_shr_record_of_loc.
    auto.
Qed.

Lemma round_nearest_even_cases (m : Z) (l : location) :
  round_nearest_even m l = m \/ round_nearest_even m l = m + 1.
Proof.
  destruct l as [|[]]; simpl; auto. destruct (Z.even m); auto.
Qed.

End Shr.

(** *** The rounding function [binary_round_aux] *)

Section RoundAux.

Lemma fexp_eq (e : Z) : fexp prec emax e = Z.max (e - 53) (-1074).
Proof. reflexivity. Qed.

(** After the first shift the mantissa fits the format. *)
Lemma shifted_fits (mx ex : Z) :
  0 <= mx ->
  let e1 := Z.max ex (fexp prec emax (Zdigits2 mx + ex)) in
  fexp prec emax (Zdigits2 (mx / 2 ^ (e1 - ex)) + e1) <= e1.
Proof.
  intros Hmx e1.
  destruct (Z.eq_dec e1 ex) as [He|He].
  - rewrite He, Z.sub_diag, Z.div_1_r. lia.
  - assert (He1 : e1 = fexp prec emax (Zdigits2 mx + ex)) by lia.
    assert (Hq : 0 <= mx / 2 ^ (e1 - ex)).
    { apply Z.div_pos; [assumption|apply Z.pow_pos_nonneg; lia]. }
    destruct (Z.eq_dec (mx / 2 ^ (e1 - ex)) 0) as [Hz|Hnz].
    + rewrite Hz. simpl Zdigits2. rewrite fexp_eq in *. lia.
    + assert (0 < mx).
      { destruct (Z.eq_dec mx 0) as [->|]; [|lia].
        rewrite Z.div_0_l in Hnz; [lia|].
        apply Z.pow_nonzero; lia. }
      rewrite Zdigits2_div_pow2 by lia.
      replace (Zdigits2 mx - (e1 - ex) + e1) with (Zdigits2 mx + ex) by lia.
      lia.
Qed.

(** Rounding up can overflow the mantissa by one bit only, and then the
    second shift loses nothing. *)
Lemma renorm_exact (m1 m2 e1 : Z) :
  0 <= m1 ->
  fexp prec emax (Zdigits2 m1 + e1) <= e1 ->
  m2 = m1 \/ m2 = m1 + 1 ->
  let e3 := Z.max e1 (fexp prec emax (Zdigits2 m2 + e1)) in
  e3 <= e1 + 1 /\ m2 / 2 ^ (e3 - e1) * 2 ^ (e3 - e1) = m2.
Proof.
  intros Hm1 Hfit Hm2 e3. rewrite fexp_eq in Hfit.
  assert (Hsame : Zdigits2 m2 = Zdigits2 m1 -> e3 = e1).
  { intros E. unfold e3. rewrite E, fexp_eq. lia. }
  assert (Hdone : e3 = e1 -> e3 <= e1 + 1 /\ m2 / 2 ^ (e3 - e1) * 2 ^ (e3 - e1) = m2).
  { intros ->. rewrite Z.sub_diag, Z.div_1_r. lia. }
  destruct Hm2 as [->| ->]; [auto|].
  destruct (Z.eq_dec m1 0) as [->|Hnz].
  - apply Hdone. unfold e3. simpl Zdigits2 in *. rewrite fexp_eq. lia.
  - destruct (Z.log2_succ_or m1) as [Hs|Hs]; unfold Z.succ in Hs.
    + destruct (Z.log2_eq_succ_is_pow2 m1 Hs) as [b Hb]. unfold Z.succ in Hb.
      assert (Hd : Zdigits2 (m1 + 1) = Zdigits2 m1 + 1).
      { rewrite !Zdigits2_log2 by lia. lia. }
      assert (He3 : e3 <= e1 + 1) by (unfold e3; rewrite Hd, fexp_eq; lia).
      split; [assumption|].
      destruct (Z.eq_dec e3 e1) as [E|E]; [apply Hdone; assumption|].
      replace (e3 - e1) with 1 by lia. rewrite Z.pow_1_r.
      assert (0 < b).
      { destruct (Z_lt_le_dec 0 b) as [|Hb0]; [assumption|].
        assert (2 ^ b <= 1).
        { destruct (Z.eq_dec b 0) as [->|]; [simpl; lia|].
          rewrite Z.pow_neg_r by lia. lia. }
        lia. }
      rewrite Hb. replace b with (1 + (b - 1)) by lia.
      rewrite Z.pow_add_r, Z.pow_1_r by lia.
      rewrite (Z.mul_comm 2 (2 ^ (b - 1))), Z.div_mul by lia. ring.
    + apply Hdone, Hsame. rewrite !Zdigits2_log2 by lia. lia.
Qed.

(** The result of [binary_round_aux] on a non-negative mantissa: the
    mantissa truncated to the target exponent [e1], or its successor. *)
Lemma binary_round_aux_spec (sx : bool) (mx ex : Z) (lx : location) :
  0 <= mx ->
  let e1 := Z.max ex (fexp prec emax (Zdigits2 mx + ex)) in
  let m1 := mx / 2 ^ (e1 - ex) in
  exists m2,
    (m2 = m1 \/ m2 = m1 + 1) /\
    (lx = loc_Exact -> e1 = ex -> m2 = mx) /\
    ((m2 = 0 /\ binary_round_aux prec emax sx mx ex lx = S754_zero sx) \/
     (exists m3 e3,
        (IZR (Zpos m3) * bpow e3 = IZR m2 * bpow e1)%R /\
        e3 <= e1 + 1 /\
        binary_round_aux prec emax sx mx ex lx =
          if e3 <=? emax - prec then S754_finite sx m3 e3
          else S754_infinity sx)).
Proof.
  intros Hmx e1 m1. unfold binary_round_aux.
  destruct (shr_fexp_spec mx ex lx Hmx) as (mrs & E1 & Hm1 & Hl1).
  fold e1 in E1, Hm1, Hl1. fold m1 in Hm1. rewrite E1.
  set (m2 := round_nearest_even (shr_m mrs) (loc_of_shr_record mrs)).
  assert (Hm1nn : 0 <= m1).
  { apply Z.div_pos; [assumption|apply Z.pow_pos_nonneg; lia]. }
  assert (Hm2 : m2 = m1 \/ m2 = m1 + 1).
  { unfold m2. rewrite Hm1. apply round_nearest_even_cases. }
  assert (Hm2nn : 0 <= m2) by lia.
  destruct (shr_fexp_spec m2 e1 loc_Exact Hm2nn) as (mrs2 & E2 & Hm3 & _).
  rewrite E2.
  destruct (renorm_exact m1 m2 e1 Hm1nn (shifted_fits mx ex Hmx) Hm2)
    as [He3 Hex].
  set (e3 := Z.max e1 (fexp prec emax (Zdigits2 m2 + e1))) in *.
  exists m2. split; [assumption|]. split.
  { intros -> He. unfold m2. rewrite (Hl1 He). simpl. rewrite Hm1.
    unfold m1. rewrite He, Z.sub_diag, Z.div_1_r. reflexivity. }
  assert (Hpow : 0 < 2 ^ (e3 - e1)) by (apply Z.pow_pos_nonneg; lia).
  rewrite Hm3. destruct (m2 / 2 ^ (e3 - e1)) as [|m3|m3] eqn:Hq.
  - left. split; [lia|reflexivity].
  - right. exists m3, e3. split; [|split; [assumption|reflexivity]].
    rewrite <- Hex at 1. rewrite mult_IZR.
    rewrite (bpow_sub_mul e3 e1), bpow_IZR by lia. ring.
  - exfalso.
    assert (0 <= m2 / 2 ^ (e3 - e1)) by (apply Z.div_pos; lia). lia.
Qed.

End RoundAux.

(** *** Its error on a real number *)

Section RoundApprox.
Local Open Scope R_scope.

Lemma F2R_finite (s : bool) (m : positive) (e : Z) :
  F2R (S754_finite s m e) = cond_Ropp s (IZR (Zpos m) * bpow e).
Proof.
  unfold F2R. destruct s; simpl cond_Zopp; simpl cond_Ropp; [|reflexivity].
  change (Z.neg m) with (- Z.pos m)%Z. rewrite opp_IZR. ring.
Qed.

Lemma IZR_mantissa_lower (m : Z) (e : Z) :
  (0 < m)%Z -> bpow (Zdigits2 m - 1 + e) <= IZR m * bpow e.
Proof.
  intros Hm. rewrite bpow_add.
  pose proof (bpow_gt_0 e).
  assert (bpow (Zdigits2 m - 1) <= IZR m).
  { pose proof (Zdigits2_bounds m Hm) as [Hlo _].
    pose proof (Zdigits2_log2 m Hm). pose proof (Z.log2_nonneg m).
    rewrite bpow_IZR by lia. now apply IZR_le. }
  nra.
Qed.

(** Truncating a mantissa to a larger exponent brackets the number. *)
Lemma truncate_bracket (mx ex e1 : Z) (x : R) :
  (0 <= mx)%Z -> (ex <= e1)%Z ->
  IZR mx * bpow ex <= x < IZR (mx + 1) * bpow ex ->
  IZR (mx / 2 ^ (e1 - ex)) * bpow e1 <= x
    < IZR (mx / 2 ^ (e1 - ex) + 1) * bpow e1.
Proof.
  intros Hmx He [Hlo Hhi].
  assert (Hp : (0 < 2 ^ (e1 - ex))%Z) by (apply Z.pow_pos_nonneg; lia).
  pose proof (Z.mul_div_le mx _ Hp) as H1.
  pose proof (Z.mul_succ_div_gt mx _ Hp) as H2. unfold Z.succ in H2.
  rewrite (bpow_sub_mul e1 ex), bpow_IZR by lia.
  pose proof (bpow_gt_0 ex) as Hb.
  apply IZR_le in H1. rewrite mult_IZR in H1.
  assert (H3 : (mx + 1 <= 2 ^ (e1 - ex) * (mx / 2 ^ (e1 - ex) + 1))%Z) by lia.
  apply IZR_le in H3. rewrite mult_IZR in H3.
  split.
  - apply Rle_trans with (2 := Hlo). nra.
  - apply Rlt_le_trans with (1 := Hhi). nra.
Qed.

(** The rounding error of [binary_round_aux] on a number below [2^K] in
    the range of the format is at most [2^(K-53)] (one unit in the last
    place; the rounding direction is not used), and the result is finite. *)
Lemma binary_round_aux_approx (sx : bool) (mx ex : Z) (lx : location)
  (x : R) (K : Z) :
  (0 <= mx)%Z ->
  IZR mx * bpow ex <= x < IZR (mx + 1) * bpow ex ->
  (lx = loc_Exact -> (0 < mx)%Z /\ x = IZR mx * bpow ex) ->
  (lx <> loc_Exact -> (ex <= K - 53)%Z) -> (ex <= 970)%Z ->
  x < bpow K -> (-1021 <= K <= 1023)%Z ->
  exists v,
    is_finite (binary_round_aux prec emax sx mx ex lx) = true /\
    F2R (binary_round_aux prec emax sx mx ex lx) = cond_Ropp sx v /\
    0 <= v /\ x - bpow (K - 53) <= v <= x + bpow (K - 53).
Proof.
  intros Hmx Hx Hexact Hinexact Hex970 HK HKr.
  destruct (binary_round_aux_spec sx mx ex lx Hmx) as (m2 & Hm2 & Hsame & Hres).
  set (e1 := Z.max ex (fexp prec emax (Zdigits2 mx + ex))) in *.
  set (m1 := (mx / 2 ^ (e1 - ex))%Z) in *.
  assert (Hm1nn : (0 <= m1)%Z).
  { apply Z.div_pos; [assumption|apply Z.pow_pos_nonneg; lia]. }
  pose proof (truncate_bracket mx ex e1 x Hmx ltac:(lia) Hx) as Hbr.
  fold m1 in Hbr.
  pose proof (bpow_gt_0 e1) as He1pos.
  pose proof (bpow_gt_0 (K - 53)) as HKpos.
  (* the target exponent is small, or nothing is rounded *)
  assert (Hfexp : (fexp prec emax (Zdigits2 mx + ex) <= K - 53)%Z).
  { rewrite fexp_eq. destruct (Z.eq_dec mx 0) as [->|Hnz].
    - simpl Zdigits2.
      assert (lx <> loc_Exact) by (intros E; apply Hexact in E; lia).
      specialize (Hinexact H). lia.
    - assert (Zdigits2 mx - 1 + ex < K)%Z; [|lia].
      apply bpow_lt_inv.
      apply Rle_lt_trans with (2 := HK).
      apply Rle_trans with (2 := proj1 Hx).
      apply IZR_mantissa_lower. lia. }
  assert (Hcase : (e1 <= K - 53)%Z \/ (lx = loc_Exact /\ e1 = ex)).
  { destruct lx as [|c]; [|left; specialize (Hinexact ltac:(discriminate)); lia].
    destruct (Z.eq_dec e1 ex); [right; auto|left; lia]. }
  assert (He1K : (e1 + 1 <= 971)%Z) by lia.
  assert (Hv : 0 <= IZR m2 * bpow e1 /\
               x - bpow (K - 53) <= IZR m2 * bpow e1 <= x + bpow (K - 53)).
  { assert (0 <= IZR m2) by (apply IZR_le; lia).
    split; [nra|].
    destruct Hcase as [Hle|[E1 E2]].
    - apply bpow_le in Hle.
      rewrite plus_IZR in Hbr.
      destruct Hm2 as [E|E]; rewrite E; [|rewrite plus_IZR]; lra.
    - rewrite (Hsame E1 E2), E2. destruct (Hexact E1) as [_ ->]. lra. }
  exists (IZR m2 * bpow e1).
  destruct Hres as [[Hz Hr]|(m3 & e3 & Hval & He3 & Hr)]; rewrite Hr.
  - split; [reflexivity|]. split; [|assumption].
    rewrite Hz. simpl. destruct sx; simpl; lra.
  - assert (Hle : (e3 <=? emax - prec)%Z = true).
    { apply Z.leb_le. change (emax - prec)%Z with 971%Z. lia. }
    rewrite Hle. split; [reflexivity|]. split; [|assumption].
    rewrite F2R_finite, Hval. reflexivity.
Qed.

End RoundApprox.

(** *** Rounding of exact binary numbers, and of integers *)

Section Operations.
Local Open Scope R_scope.

Lemma shl_align_spec (mx : positive) (ex ex' : Z) :
  exists k : Z,
    (0 <= k)%Z /\
    shl_align mx ex ex' = (Z.to_pos (Zpos mx * 2 ^ k), (ex - k)%Z) /\
    (ex - k = Z.min ex ex')%Z.
Proof.
  unfold shl_align. destruct (ex' - ex)%Z as [|d|d] eqn:Hd.
  - exists 0%Z. change (2 ^ 0)%Z with 1%Z. rewrite Z.mul_1_r, Z.sub_0_r.
    simpl. repeat split; lia.
  - exists 0%Z. change (2 ^ 0)%Z with 1%Z. rewrite Z.mul_1_r, Z.sub_0_r.
    simpl. repeat split; lia.
  - exists (Zpos d). split; [lia|]. split; [|lia].
    f_equal; [|lia].
    change (Pos.iter xO mx d) with (shift_pos d mx).
    rewrite <- (Pos2Z.id (shift_pos d mx)), shift_pos_correct.
    rewrite Z.pow_pos_fold. f_equal. ring.
Qed.

Lemma shl_align_fst (mx : positive) (ex ez : Z) :
  (ez <= ex)%Z ->
  Zpos (fst (shl_align mx ex ez)) = (Zpos mx * 2 ^ (ex - ez))%Z.
Proof.
  intros Hle. destruct (shl_align_spec mx ex ez) as (k & Hk & -> & Hmin).
  cbn [fst]. replace (ex - ez)%Z with k by lia.
  assert (0 < 2 ^ k)%Z by (apply Z.pow_pos_nonneg; lia).
  rewrite Z2Pos.id by (apply Z.mul_pos_pos; lia). reflexivity.
Qed.

Lemma binary_round_approx (sx : bool) (mx : positive) (ex : Z) (K : Z) :
  IZR (Zpos mx) * bpow ex < bpow K -> (-1021 <= K <= 1023)%Z ->
  exists v,
    is_finite (binary_round prec emax sx mx ex) = true /\
    F2R (binary_round prec emax sx mx ex) = cond_Ropp sx v /\
    0 <= v /\
    IZR (Zpos mx) * bpow ex - bpow (K - 53) <= v
      <= IZR (Zpos mx) * bpow ex + bpow (K - 53).
Proof.
  intros HK HKr. unfold binary_round.
  change (Z.pos (digits2_pos mx)) with (Zdigits2 (Zpos mx)).
  destruct (shl_align_spec mx ex (fexp prec emax (Zdigits2 (Z.pos mx) + ex)))
    as (k & Hk & -> & Hmin).
  assert (Hp : (0 < 2 ^ k)%Z) by (apply Z.pow_pos_nonneg; lia).
  assert (Hsmall : (ex - k <= 970)%Z).
  { assert (Zdigits2 (Z.pos mx) - 1 + ex < K)%Z.
    { apply bpow_lt_inv. apply Rle_lt_trans with (2 := HK).
      apply IZR_mantissa_lower. lia. }
    rewrite fexp_eq in Hmin. lia. }
  assert (Hval : IZR (Z.pos (Z.to_pos (Z.pos mx * 2 ^ k))) * bpow (ex - k)
                 = IZR (Zpos mx) * bpow ex).
  { rewrite Z2Pos.id by (apply Z.mul_pos_pos; lia).
    rewrite mult_IZR, <- bpow_IZR by lia.
    rewrite Rmult_assoc, <- bpow_add. do 2 f_equal. lia. }
  rewrite <- Hval in *.
  apply binary_round_aux_approx; try assumption; try lia.
  - rewrite plus_IZR. pose proof (bpow_gt_0 (ex - k)). simpl (IZR 1). lra.
  - intros _. split; [lia|reflexivity].
  - intros H. contradiction H. reflexivity.
Qed.

Lemma binary_normalize_approx (m e : Z) (s0 : bool) (K : Z) :
  - bpow K < IZR m * bpow e < bpow K -> (-1021 <= K <= 1023)%Z ->
  is_finite (binary_normalize prec emax m e s0) = true /\
  IZR m * bpow e - bpow (K - 53)
    <= F2R (binary_normalize prec emax m e s0)
    <= IZR m * bpow e + bpow (K - 53).
Proof.
  intros HK HKr. pose proof (bpow_gt_0 (K - 53)) as Hpos.
  destruct m as [|p|p]; simpl binary_normalize.
  - split; [reflexivity|]. simpl. lra.
  - destruct (binary_round_approx false p e K ltac:(lra) HKr)
      as (v & Hf & HF & Hv & Hb).
    rewrite HF. simpl. auto.
  - assert (E : IZR (Z.neg p) = - IZR (Zpos p)).
    { change (Z.neg p) with (- Z.pos p)%Z. now rewrite opp_IZR. }
    rewrite E in *.
    destruct (binary_round_approx true p e K ltac:(lra) HKr)
      as (v & Hf & HF & Hv & Hb).
    rewrite HF. simpl. split; [assumption|]. lra.
Qed.

(** A mantissa that already fits the format is kept as it is. *)
Lemma binary_round_aux_exact (sx : bool) (mx : positive) (ex : Z) :
  (fexp prec emax (Zdigits2 (Zpos mx) + ex) <= ex)%Z -> (ex <= 970)%Z ->
  is_finite (binary_round_aux prec emax sx (Zpos mx) ex loc_Exact) = true /\
  F2R (binary_round_aux prec emax sx (Zpos mx) ex loc_Exact)
    = cond_Ropp sx (IZR (Zpos mx) * bpow ex).
Proof.
  intros Hfit Hex.
  destruct (binary_round_aux_spec sx (Zpos mx) ex loc_Exact ltac:(lia))
    as (m2 & _ & Hsame & Hres).
  assert (He1 : Z.max ex (fexp prec emax (Zdigits2 (Z.pos mx) + ex)) = ex) by lia.
  rewrite He1 in *. specialize (Hsame eq_refl eq_refl). subst m2.
  destruct Hres as [[Hz _]|(m3 & e3 & Hval & He3 & Hr)]; [lia|].
  rewrite Hr.
  assert (Hle : (e3 <=? emax - prec)%Z = true).
  { apply Z.leb_le. change (emax - prec)%Z with 971%Z. lia. }
  rewrite Hle. split; [reflexivity|]. now rewrite F2R_finite, Hval.
Qed.

Lemma Zdigits2_mul_pow2 (m k : Z) :
  (0 < m)%Z -> (0 <= k)%Z -> Zdigits2 (m * 2 ^ k) = (Zdigits2 m + k)%Z.
Proof.
  intros Hm Hk.
  assert (0 < 2 ^ k)%Z by (apply Z.pow_pos_nonneg; lia).
  rewrite !Zdigits2_log2 by (try apply Z.mul_pos_pos; lia).
  rewrite Z.log2_mul_pow2 by lia. lia.
Qed.

Lemma binary_round_exact (sx : bool) (mx : positive) (ex : Z) :
  (fexp prec emax (Zdigits2 (Zpos mx) + ex) <= ex)%Z -> (ex <= 970)%Z ->
  is_finite (binary_round prec emax sx mx ex) = true /\
  F2R (binary_round prec emax sx mx ex)
    = cond_Ropp sx (IZR (Zpos mx) * bpow ex).
Proof.
  intros Hfit Hex. unfold binary_round.
  change (Z.pos (digits2_pos mx)) with (Zdigits2 (Zpos mx)).
  destruct (shl_align_spec mx ex (fexp prec emax (Zdigits2 (Zpos mx) + ex)))
    as (k & Hk & -> & Hmin).
  assert (Hp : (0 < 2 ^ k)%Z) by (apply Z.pow_pos_nonneg; lia).
  assert (Hpos : (0 < Z.pos mx * 2 ^ k)%Z) by (apply Z.mul_pos_pos; lia).
  assert (Hval : IZR (Z.pos (Z.to_pos (Z.pos mx * 2 ^ k))) * bpow (ex - k)
                 = IZR (Zpos mx) * bpow ex).
  { rewrite Z2Pos.id by assumption.
    rewrite mult_IZR, <- bpow_IZR by lia.
    rewrite Rmult_assoc, <- bpow_add. do 2 f_equal. lia. }
  rewrite <- Hval.
  apply binary_round_aux_exact; [|lia].
  rewrite Z2Pos.id by assumption.
  rewrite Zdigits2_mul_pow2 by lia.
  replace (Zdigits2 (Z.pos mx) + k + (ex - k))%Z
    with (Zdigits2 (Z.pos mx) + ex)%Z by lia.
  lia.
Qed.

(** An integer below [2^53] in magnitude converts exactly. *)
Lemma float_of_int_exact (a : Z) :
  (Z.abs a < 2 ^ 53)%Z ->
  exists f, float_of_int a = Ok f /\ is_finite f = true /\ F2R f = IZR a.
Proof.
  intros Ha. unfold float_of_int.
  destruct a as [|p|p]; simpl binary_normalize.
  - exists (S754_zero false). auto.
  - assert (Hd : (Zdigits2 (Zpos p) <= 53)%Z) by (apply Zdigits2_le; lia).
    destruct (binary_round_exact false p 0) as [Hf HF]; [rewrite fexp_eq; lia|lia|].
    exists (binary_round prec emax false p 0).
    assert (HF' : F2R (binary_round prec emax false p 0) = IZR (Zpos p)).
    { rewrite HF. unfold cond_Ropp, bpow. rewrite powerRZ_O. ring. }
    destruct (binary_round prec emax false p 0); try discriminate; auto.
  - assert (Hd : (Zdigits2 (Zpos p) <= 53)%Z) by (apply Zdigits2_le; lia).
    destruct (binary_round_exact true p 0) as [Hf HF]; [rewrite fexp_eq; lia|lia|].
    exists (binary_round prec emax true p 0).
    assert (HF' : F2R (binary_round prec emax true p 0) = IZR (Zneg p)).
    { rewrite HF. unfold cond_Ropp, bpow. rewrite powerRZ_O.
      change (Z.neg p) with (- Z.pos p)%Z. rewrite opp_IZR. ring. }
    destruct (binary_round prec emax true p 0); try discriminate; auto.
Qed.

End Operations.

(** *** Multiplication, addition and subtraction *)

Section FloatArith.
Local Open Scope R_scope.

Lemma cond_Ropp_mul (s1 s2 : bool) (a b : R) :
  cond_Ropp s1 a * cond_Ropp s2 b = cond_Ropp (xorb s1 s2) (a * b).
Proof. destruct s1, s2; simpl; ring. Qed.

Lemma cond_Ropp_bounds (s : bool) (v x eps : R) :
  x - eps <= v <= x + eps ->
  cond_Ropp s x - eps <= cond_Ropp s v <= cond_Ropp s x + eps.
Proof. destruct s; simpl; lra. Qed.

Lemma cond_Ropp_lt (s : bool) (x b : R) :
  - b < cond_Ropp s x < b -> 0 <= x -> x < b.
Proof. destruct s; simpl; lra. Qed.

Lemma mantissa_nonneg (m : positive) (e : Z) : 0 < IZR (Zpos m) * bpow e.
Proof.
  apply Rmult_lt_0_compat; [apply IZR_lt; lia|apply bpow_gt_0].
Qed.

Lemma float_mul_approx (x y : float) (K : Z) :
  is_finite x = true -> is_finite y = true ->
  - bpow K < F2R x * F2R y < bpow K -> (-1021 <= K <= 971)%Z ->
  is_finite (SFmul prec emax x y) = true /\
  F2R x * F2R y - bpow (K - 53) <= F2R (SFmul prec emax x y)
    <= F2R x * F2R y + bpow (K - 53).
Proof.
  intros Hx Hy HK HKr. pose proof (bpow_gt_0 (K - 53)) as Hpos.
  destruct x as [sx|sx| |sx mx ex]; try discriminate;
    destruct y as [sy|sy| |sy my ey]; try discriminate;
    cbn [SFmul];
    try (split; [reflexivity|]; cbn [F2R]; rewrite ?Rmult_0_l, ?Rmult_0_r; lra).
  rewrite !F2R_finite in *. rewrite cond_Ropp_mul in *.
  set (X := IZR (Z.pos mx) * bpow ex * (IZR (Z.pos my) * bpow ey)) in *.
  assert (HX : X = IZR (Z.pos (mx * my)) * bpow (ex + ey)).
  { unfold X. rewrite Pos2Z.inj_mul, mult_IZR, bpow_add. ring. }
  assert (HXpos : 0 < X) by (rewrite HX; apply mantissa_nonneg).
  assert (HXK : X < bpow K).
  { apply (cond_Ropp_lt (xorb sx sy)); [assumption|lra]. }
  assert (Hsmall : (ex + ey <= 970)%Z).
  { assert (ex + ey < K)%Z; [|lia].
    apply bpow_lt_inv. apply Rle_lt_trans with (2 := HXK). rewrite HX.
    assert (1 <= IZR (Z.pos (mx * my))) by (apply IZR_le; lia).
    pose proof (bpow_gt_0 (ex + ey)). nra. }
  destruct (binary_round_aux_approx (xorb sx sy) (Z.pos (mx * my)) (ex + ey)
              loc_Exact X K) as (v & Hf & HF & Hv & Hb); try assumption; try lia.
  - rewrite plus_IZR, <- HX. pose proof (bpow_gt_0 (ex + ey)). simpl (IZR 1). lra.
  - intros _. split; [lia|assumption].
  - intros H. contradiction H. reflexivity.
  - split; [assumption|]. rewrite HF. now apply cond_Ropp_bounds.
Qed.

Lemma aligned_value (s : bool) (m : positive) (e ez : Z) :
  (ez <= e)%Z ->
  IZR (cond_Zopp s (Zpos (fst (shl_align m e ez)))) * bpow ez
    = F2R (S754_finite s m e).
Proof.
  intros Hle. rewrite shl_align_fst by assumption.
  rewrite F2R_finite, (bpow_sub_mul e ez), (bpow_IZR (e - ez)) by lia.
  destruct s; cbn [cond_Zopp cond_Ropp];
    rewrite ?opp_IZR, mult_IZR; ring.
Qed.

Lemma float_add_approx (x y : float) (K : Z) :
  is_finite x = true -> is_finite y = true ->
  - bpow K < F2R x + F2R y < bpow K -> (-1021 <= K <= 1023)%Z ->
  is_finite (float_add x y) = true /\
  F2R x + F2R y - bpow (K - 53) <= F2R (float_add x y)
    <= F2R x + F2R y + bpow (K - 53).
Proof.
  intros Hx Hy HK HKr. pose proof (bpow_gt_0 (K - 53)) as Hpos.
  destruct x as [sx|sx| |sx mx ex]; try discriminate;
    destruct y as [sy|sy| |sy my ey]; try discriminate;
    unfold float_add; cbn [SFadd].
  - split; [destruct sx, sy; reflexivity|].
    destruct sx, sy; cbn [F2R]; lra.
  - split; [reflexivity|]. cbn [F2R] in *. lra.
  - split; [reflexivity|]. cbn [F2R] in *. lra.
  - set (ez := Z.min ex ey).
    set (m := (cond_Zopp sx (Z.pos (fst (shl_align mx ex ez))) +
               cond_Zopp sy (Z.pos (fst (shl_align my ey ez))))%Z).
    assert (Hm : IZR m * bpow ez
                 = F2R (S754_finite sx mx ex) + F2R (S754_finite sy my ey)).
    { unfold m. rewrite plus_IZR, Rmult_plus_distr_r.
      rewrite !aligned_value by lia. reflexivity. }
    rewrite <- Hm in *. now apply binary_normalize_approx.
Qed.

Lemma float_sub_approx (x y : float) (K : Z) :
  is_finite x = true -> is_finite y = true ->
  - bpow K < F2R x - F2R y < bpow K -> (-1021 <= K <= 1023)%Z ->
  is_finite (SFsub prec emax x y) = true /\
  F2R x - F2R y - bpow (K - 53) <= F2R (SFsub prec emax x y)
    <= F2R x - F2R y + bpow (K - 53).
Proof.
  intros Hx Hy HK HKr. pose proof (bpow_gt_0 (K - 53)) as Hpos.
  destruct x as [sx|sx| |sx mx ex]; try discriminate;
    destruct y as [sy|sy| |sy my ey]; try discriminate;
    cbn [SFsub].
  - split; [destruct sx, sy; reflexivity|].
    destruct sx, sy; cbn [F2R]; lra.
  - split; [reflexivity|]. rewrite !F2R_finite. cbn [F2R].
    destruct sy; cbn [negb cond_Ropp]; lra.
  - split; [reflexivity|]. cbn [F2R] in *. lra.
  - set (ez := Z.min ex ey).
    set (m := (cond_Zopp sx (Z.pos (fst (shl_align mx ex ez))) -
               cond_Zopp sy (Z.pos (fst (shl_align my ey ez))))%Z).
    assert (Hm : IZR m * bpow ez
                 = F2R (S754_finite sx mx ex) - F2R (S754_finite sy my ey)).
    { unfold m. rewrite minus_IZR, Rmult_minus_distr_r.
      rewrite !aligned_value by lia. reflexivity. }
    rewrite <- Hm in *. now apply binary_normalize_approx.
Qed.

End FloatArith.

(** *** Division *)

Section DivRound.
Local Open Scope R_scope.

Lemma new_location_exact (n k : Z) : new_location n k = loc_Exact -> k = 0%Z.
Proof.
  unfold new_location, new_location_even, new_location_odd.
  destruct (Z.even n); destruct (Z.eqb_spec k 0); auto; discriminate.
Qed.

(** The quotient computed by [SFdiv_core_binary] brackets the exact
    quotient, at an exponent small enough for the format. *)
Lemma SFdiv_core_binary_spec (mx my : positive) (ex ey : Z) :
  let X := (IZR (Zpos mx) * bpow ex) / (IZR (Zpos my) * bpow ey) in
  exists q e' l,
    SFdiv_core_binary prec emax (Zpos mx) ex (Zpos my) ey = (q, e', l) /\
    (0 <= q)%Z /\
    (e' <= fexp prec emax (Zdigits2 (Zpos mx) + ex - (Zdigits2 (Zpos my) + ey)))%Z /\
    IZR q * bpow e' <= X < IZR (q + 1) * bpow e' /\
    (l = loc_Exact -> (0 < q)%Z /\ X = IZR q * bpow e').
Proof.
  intros X. unfold SFdiv_core_binary.
  set (e' := Z.min (fexp prec emax (Zdigits2 (Z.pos mx) + ex - (Zdigits2 (Z.pos my) + ey)))
                   (ex - ey)).
  set (s := (ex - ey - e')%Z).
  assert (Hs : (0 <= s)%Z) by (unfold s, e'; lia).
  set (m' := match s with
             | 0%Z => Z.pos mx
             | Z.pos _ => Z.shiftl (Z.pos mx) s
             | Z.neg _ => 0%Z
             end).
  assert (Hm' : m' = (Z.pos mx * 2 ^ s)%Z).
  { unfold m'. destruct s as [|p|p] eqn:E.
    - simpl. lia.
    - now rewrite Z.shiftl_mul_pow2 by lia.
    - lia. }
  clearbody m'.
  assert (Hp : (0 < 2 ^ s)%Z) by (apply Z.pow_pos_nonneg; lia).
  pose proof (Z_div_mod m' (Z.pos my) ltac:(lia)) as Hdm.
  destruct (Z.div_eucl m' (Z.pos my)) as [q r]. destruct Hdm as [Hq Hr].
  exists q, e', (new_location (Z.pos my) r).
  assert (Hmpos : (0 < m')%Z) by (rewrite Hm'; apply Z.mul_pos_pos; lia).
  assert (Hqnn : (0 <= q)%Z) by nia.
  assert (HX : X * IZR (Zpos my) = IZR m' * bpow e').
  { unfold X. rewrite Hm', mult_IZR, <- bpow_IZR by lia.
    replace (bpow ex) with (bpow s * bpow e' * bpow ey).
    - field. split.
      + pose proof (bpow_gt_0 ey). lra.
      + apply not_0_IZR. lia.
    - rewrite <- !bpow_add. f_equal. unfold s. lia. }
  assert (Hmy : 0 < IZR (Zpos my)) by (apply IZR_lt; lia).
  pose proof (bpow_gt_0 e') as He'.
  split; [reflexivity|]. split; [assumption|]. split; [unfold e'; lia|].
  assert (Hlo : IZR q * IZR (Zpos my) <= IZR m').
  { rewrite <- mult_IZR. apply IZR_le. lia. }
  assert (Hhi : IZR m' < IZR (q + 1) * IZR (Zpos my)).
  { rewrite <- mult_IZR. apply IZR_lt. lia. }
  split; [split|].
  - apply Rmult_le_reg_r with (1 := Hmy). rewrite HX. nra.
  - apply Rmult_lt_reg_r with (1 := Hmy). rewrite HX. nra.
  - intros Hl. apply new_location_exact in Hl. subst r.
    split; [nia|].
    apply Rmult_eq_reg_r with (IZR (Zpos my)); [|lra].
    rewrite HX, Hq, Z.add_0_r, mult_IZR. ring.
Qed.

Lemma quotient_lower (mx my : positive) (ex ey : Z) :
  bpow (Zdigits2 (Zpos mx) + ex - (Zdigits2 (Zpos my) + ey) - 1)
    <= (IZR (Zpos mx) * bpow ex) / (IZR (Zpos my) * bpow ey).
Proof.
  pose proof (IZR_mantissa_lower (Zpos mx) ex ltac:(lia)) as Hx.
  pose proof (Zdigits2_bounds (Zpos my) ltac:(lia)) as [_ Hy].
  pose proof (Zdigits2_nonneg (Zpos my)).
  apply IZR_lt in Hy. rewrite <- bpow_IZR in Hy by lia.
  pose proof (mantissa_nonneg my ey) as Hden.
  pose proof (bpow_gt_0 ey) as Hey.
  apply Rmult_le_reg_r with (1 := Hden).
  unfold Rdiv. rewrite Rmult_assoc, Rinv_l, Rmult_1_r by lra.
  apply Rle_trans with (2 := Hx).
  replace (Zdigits2 (Z.pos mx) - 1 + ex)%Z
    with ((Zdigits2 (Z.pos mx) + ex - (Zdigits2 (Z.pos my) + ey) - 1)
          + (Zdigits2 (Zpos my) + ey))%Z by lia.
  rewrite (bpow_add (_ - 1)).
  pose proof (bpow_gt_0 (Zdigits2 (Z.pos mx) + ex - (Zdigits2 (Z.pos my) + ey) - 1)).
  rewrite (bpow_add (Zdigits2 (Zpos my))).
  apply Rmult_le_compat_l; [lra|].
  apply Rmult_le_compat_r; lra.
Qed.

Lemma SFdiv_finite_approx (sx sy : bool) (mx my : positive) (ex ey : Z)
  (K : Z) :
  let X := (IZR (Zpos mx) * bpow ex) / (IZR (Zpos my) * bpow ey) in
  X < bpow K -> (-1021 <= K <= 1023)%Z ->
  exists v,
    is_finite (SFdiv prec emax (S754_finite sx mx ex) (S754_finite sy my ey))
      = true /\
    F2R (SFdiv prec emax (S754_finite sx mx ex) (S754_finite sy my ey))
      = cond_Ropp (xorb sx sy) v /\
    0 <= v /\ X - bpow (K - 53) <= v <= X + bpow (K - 53).
Proof.
  intros X HK HKr. cbn [SFdiv].
  destruct (SFdiv_core_binary_spec mx my ex ey)
    as (q & e' & l & -> & Hq & He' & Hbr & Hex).
  fold X in Hbr, Hex.
  assert (Zdigits2 (Z.pos mx) + ex - (Zdigits2 (Z.pos my) + ey) - 1 < K)%Z.
  { apply bpow_lt_inv. apply Rle_lt_trans with (2 := HK).
    apply quotient_lower. }
  rewrite fexp_eq in He'.
  apply binary_round_aux_approx; try assumption; lia.
Qed.

(** Integer true division: away from overflow it returns a finite float
    within [2^(K-53)] of the exact quotient. *)
Lemma int_truediv_approx (a b : Z) (K : Z) :
  b <> 0%Z -> - bpow K < IZR a / IZR b < bpow K -> (-1021 <= K <= 1023)%Z ->
  exists f,
    int_truediv a b = Ok f /\ is_finite f = true /\
    IZR a / IZR b - bpow (K - 53) <= F2R f <= IZR a / IZR b + bpow (K - 53).
Proof.
  intros Hb HK HKr. unfold int_truediv.
  destruct (Z.eqb_spec b 0) as [|_]; [contradiction|].
  pose proof (bpow_gt_0 (K - 53)) as Hpos.
  assert (Hgoal : is_finite (SFdiv prec emax (Z2SF a) (Z2SF b)) = true /\
                  IZR a / IZR b - bpow (K - 53)
                    <= F2R (SFdiv prec emax (Z2SF a) (Z2SF b))
                    <= IZR a / IZR b + bpow (K - 53)).
  { destruct a as [|p|p].
    - destruct b as [|q|q]; [contradiction| |]; cbn [Z2SF SFdiv F2R is_finite];
        (split; [reflexivity|]); unfold Rdiv; rewrite Rmult_0_l; lra.
    - destruct b as [|q|q]; [contradiction| |]; cbn [Z2SF].
      + destruct (SFdiv_finite_approx false false p q 0 0 K)
          as (v & Hf & HF & Hv & Hbd); [|assumption|].
        * rewrite !bpow_0, !Rmult_1_r. lra.
        * rewrite HF. split; [assumption|]. cbn [xorb cond_Ropp].
          rewrite !bpow_0, !Rmult_1_r in Hbd.
          assumption.
      + assert (E : IZR (Z.neg q) = - IZR (Zpos q)).
        { change (Z.neg q) with (- Z.pos q)%Z. now rewrite opp_IZR. }
        assert (Hq : 0 < IZR (Zpos q)) by (apply IZR_lt; lia).
        assert (E2 : IZR (Zpos p) / IZR (Z.neg q) = - (IZR (Zpos p) / IZR (Zpos q))).
        { rewrite E. field. lra. }
        rewrite E2 in *.
        destruct (SFdiv_finite_approx false true p q 0 0 K)
          as (v & Hf & HF & Hv & Hbd); [|assumption|].
        * rewrite !bpow_0, !Rmult_1_r. lra.
        * rewrite HF. split; [assumption|]. cbn [xorb cond_Ropp].
          rewrite !bpow_0, !Rmult_1_r in Hbd.
          lra.
    - assert (Ep : IZR (Z.neg p) = - IZR (Zpos p)).
      { change (Z.neg p) with (- Z.pos p)%Z. now rewrite opp_IZR. }
      destruct b as [|q|q]; [contradiction| |]; cbn [Z2SF].
      + assert (Hq : 0 < IZR (Zpos q)) by (apply IZR_lt; lia).
        assert (E2 : IZR (Z.neg p) / IZR (Zpos q) = - (IZR (Zpos p) / IZR (Zpos q))).
        { rewrite Ep. field. lra. }
        rewrite E2 in *.
        destruct (SFdiv_finite_approx true false p q 0 0 K)
          as (v & Hf & HF & Hv & Hbd); [|assumption|].
        * rewrite !bpow_0, !Rmult_1_r. lra.
        * rewrite HF. split; [assumption|]. cbn [xorb cond_Ropp].
          rewrite !bpow_0, !Rmult_1_r in Hbd.
          lra.
      + assert (E : IZR (Z.neg q) = - IZR (Zpos q)).
        { change (Z.neg q) with (- Z.pos q)%Z. now rewrite opp_IZR. }
        assert (Hq : 0 < IZR (Zpos q)) by (apply IZR_lt; lia).
        assert (E2 : IZR (Z.neg p) / IZR (Z.neg q) = IZR (Zpos p) / IZR (Zpos q)).
        { rewrite Ep, E. field. lra. }
        rewrite E2 in *.
        destruct (SFdiv_finite_approx true true p q 0 0 K)
          as (v & Hf & HF & Hv & Hbd); [|assumption|].
        * rewrite !bpow_0, !Rmult_1_r. lra.
        * rewrite HF. split; [assumption|]. cbn [xorb cond_Ropp].
          rewrite !bpow_0, !Rmult_1_r in Hbd.
          assumption. }
  destruct Hgoal as [Hf Hbd].
  exists (SFdiv prec emax (Z2SF a) (Z2SF b)).
  destruct (SFdiv prec emax (Z2SF a) (Z2SF b)); try discriminate; auto.
Qed.

End DivRound.

(** *** [round]: from a float to the nearest integer *)

Section Round.
Local Open Scope R_scope.

Lemma round_half_even_approx (m e : Z) :
  (0 <= m)%Z ->
  IZR m * bpow e - / 2 <= IZR (round_half_even m e) <= IZR m * bpow e + / 2.
Proof.
  intros Hm. unfold round_half_even. destruct e as [|p|p].
  - rewrite bpow_0, Z.pow_0_r, Z.mul_1_r. lra.
  - rewrite mult_IZR, <- bpow_IZR by lia. lra.
  - rewrite Z.pow_pos_fold.
    set (d := (2 ^ Z.pos p)%Z).
    assert (Hd : (0 < d)%Z) by (apply Z.pow_pos_nonneg; lia).
    change (Z.neg p) with (- Z.pos p)%Z. rewrite bpow_opp, bpow_IZR by lia.
    fold d.
    pose proof (Z.div_mod m d ltac:(lia)) as Hdm.
    pose proof (Z.mod_pos_bound m d Hd) as Hr.
    set (q := (m / d)%Z) in *. set (r := (m mod d)%Z) in *.
    assert (HdR : 0 < IZR d) by (apply IZR_lt; lia).
    assert (Hval : IZR m * / IZR d = IZR q + IZR r * / IZR d).
    { rewrite Hdm, plus_IZR, mult_IZR. field. lra. }
    rewrite Hval.
    assert (Hhalf : forall c : R, c = IZR r * / IZR d -> 2 * c * IZR d = 2 * IZR r).
    { intros c ->. field. lra. }
    set (c := IZR r * / IZR d) in *. specialize (Hhalf c eq_refl).
    assert (Hc0 : 0 <= c).
    { unfold c. apply Rmult_le_pos; [apply IZR_le; lia|].
      apply Rlt_le, Rinv_0_lt_compat, HdR. }
    destruct (Z.compare_spec (2 * r) d) as [E|E|E].
    + assert (c = / 2).
      { apply IZR_eq in E. rewrite mult_IZR in E. simpl (IZR 2) in E. nra. }
      destruct (Z.even q); rewrite ?plus_IZR; simpl (IZR 1); lra.
    + apply IZR_lt in E. rewrite mult_IZR in E. simpl (IZR 2) in E.
      assert (c < / 2) by nra. lra.
    + apply IZR_lt in E. rewrite mult_IZR in E. simpl (IZR 2) in E.
      assert (/ 2 < c) by nra.
      assert (c < 1).
      { assert (IZR r < IZR d) by (apply IZR_lt; lia). nra. }
      rewrite plus_IZR. simpl (IZR 1). lra.
Qed.

Lemma round_approx (f : float) :
  is_finite f = true ->
  exists z, round f = Ok z /\ F2R f - / 2 <= IZR z <= F2R f + / 2.
Proof.
  intros Hf. destruct f as [s|s| |s m e]; try discriminate; cbn [round].
  - exists 0%Z. split; [reflexivity|]. cbn [F2R]. lra.
  - eexists. split; [reflexivity|]. rewrite F2R_finite.
    pose proof (round_half_even_approx (Zpos m) e ltac:(lia)).
    destruct s; cbn [cond_Zopp cond_Ropp]; rewrite ?opp_IZR; lra.
Qed.

End Round.

(** *** Concrete powers of two *)

Section Units.
Local Open Scope R_scope.

(** Powers of two relative to the unit in the last place of [1]. *)
Lemma bpow_unit (k : Z) :
  (-53 <= k)%Z -> bpow k = IZR (2 ^ (k + 53)) * bpow (-53).
Proof.
  intros Hk. rewrite <- bpow_IZR, <- bpow_add by lia. f_equal. lia.
Qed.

Lemma bpow_m53 : 9007199254740992 * bpow (-53) = 1.
Proof.
  change 9007199254740992 with (IZR (2 ^ 53)).
  rewrite <- bpow_IZR, <- bpow_add by lia. reflexivity.
Qed.

Lemma IZR_div_bound (a b : Z) (B : R) :
  b <> 0%Z -> - B < IZR a < B -> - B < IZR a / IZR b < B.
Proof.
  intros Hb Ha. unfold Rdiv.
  destruct (Z_lt_le_dec 0 b) as [Hpos|Hneg].
  - assert (H1 : 1 <= IZR b) by (apply IZR_le; lia).
    assert (H2 : 0 < / IZR b <= 1).
    { split; [apply Rinv_0_lt_compat; lra|].
      rewrite <- Rinv_1. apply Rinv_le_contravar; lra. }
    nra.
  - assert (H1 : 1 <= - IZR b) by (rewrite <- opp_IZR; apply IZR_le; lia).
    assert (H2 : 0 < / (- IZR b) <= 1).
    { split; [apply Rinv_0_lt_compat; lra|].
      rewrite <- Rinv_1. apply Rinv_le_contravar; lra. }
    rewrite Rinv_opp in H2. nra.
Qed.

End Units.

(** ** The conversion of one channel *)

Section Conversion.
Local Open Scope R_scope.

(** A channel within the range converts to a canonical value within
    [0, 255], the nearest integer of [255 * c / r] up to the rounding of
    the division. *)
Lemma hsv_adjust_channel_in_range (c r : Z) :
  (0 < r)%Z -> (0 <= c <= r)%Z ->
  exists z,
    hsv_adjust_channel c r = Ok z /\ (0 <= z <= 255)%Z /\ near_scaled c r z.
Proof.
  intros Hr Hc. unfold hsv_adjust_channel, near_scaled.
  assert (HrR : 0 < IZR r) by (apply IZR_lt; lia).
  assert (Hx : 0 <= IZR (255 * c) / IZR r <= 255).
  { assert (E : IZR (255 * c) / IZR r * IZR r = IZR (255 * c)) by (field; lra).
    assert (0 <= IZR (255 * c)) by (apply IZR_le; lia).
    assert (IZR (255 * c) <= 255 * IZR r).
    { rewrite <- mult_IZR. apply IZR_le. lia. }
    split.
    - apply Rmult_le_reg_r with (1 := HrR). lra.
    - apply Rmult_le_reg_r with (1 := HrR). lra. }
  destruct (int_truediv_approx (255 * c) r 8) as (f & -> & Hf & Hb); [lia| |lia|].
  { rewrite (bpow_IZR 8) by lia. simpl (IZR (2 ^ 8)). lra. }
  destruct (round_approx f Hf) as (z & Hz & Hzb).
  exists z. cbn [bind]. split; [assumption|].
  replace (8 - 53)%Z with (-45)%Z in Hb by lia.
  pose proof bpow_m53 as Hu. pose proof (bpow_gt_0 (-53)) as Hu0.
  assert (E : bpow (-45) = 256 * bpow (-53)).
  { rewrite (bpow_unit (-45)) by lia. reflexivity. }
  rewrite E in *. rewrite mult_IZR in *. simpl (IZR 255) in *.
  split; [|lra].
  assert (H1 : IZR (-1) < IZR z) by (simpl (IZR (-1)); lra).
  assert (H2 : IZR z < IZR 256) by (simpl (IZR 256); lra).
  apply lt_IZR in H1, H2. lia.
Qed.

(** For a range below [2^44] the rounding error of the division cannot
    move the quotient across a half-integer: the canonical channel is an
    integer nearest to the exact [255 * c / r]. *)
Lemma near_scaled_nearest (c r z : Z) :
  (0 < r < 2 ^ 44)%Z -> near_scaled c r z -> nearest_scaled c r z.
Proof.
  unfold near_scaled, nearest_scaled. intros Hr Hz.
  assert (HrR : 0 < IZR r < 17592186044416).
  { split; apply IZR_lt; [lia|]. change 17592186044416%Z with (2 ^ 44)%Z. lia. }
  pose proof bpow_m53 as Hu. pose proof (bpow_gt_0 (-53)) as Hu0.
  assert (E : bpow (-45) = 256 * bpow (-53)).
  { rewrite (bpow_unit (-45)) by lia. reflexivity. }
  rewrite E in Hz. set (u := bpow (-53)) in *.
  set (X := 255 * IZR c / IZR r) in *.
  assert (HX : X * IZR r = 255 * IZR c) by (unfold X; field; lra).
  assert (Herr : 2 * IZR r * (256 * u) < 1) by nra.
  assert (H1 : IZR (2 * r * z - 510 * c) < IZR (r + 1)).
  { rewrite minus_IZR, !mult_IZR, plus_IZR. simpl (IZR 2). simpl (IZR 510).
    simpl (IZR 1). nra. }
  assert (H2 : IZR (- r - 1) < IZR (2 * r * z - 510 * c)).
  { rewrite !minus_IZR, !mult_IZR, opp_IZR. simpl (IZR 2). simpl (IZR 510).
    simpl (IZR 1). nra. }
  apply lt_IZR in H1, H2. lia.
Qed.

End Conversion.

(** ** The error of [mix] *)

Section Mixing.
Local Open Scope R_scope.

Lemma mul_err (A U U0 B e : R) :
  - B <= A <= B -> U0 - e <= U <= U0 + e ->
  A * U0 - B * e <= A * U <= A * U0 + B * e.
Proof. intros HA HU. nra. Qed.

Lemma scale_bound (A q B : R) :
  - B <= A <= B -> 0 <= q <= 1 -> - B <= A * q <= B.
Proof. intros HA Hq. nra. Qed.

Lemma int_sub_float_approx (a : Z) (x : float) (K : Z) :
  (Z.abs a < 2 ^ 53)%Z -> is_finite x = true ->
  - bpow K < IZR a - F2R x < bpow K -> (-1021 <= K <= 1023)%Z ->
  exists f,
    int_sub_float a x = Ok f /\ is_finite f = true /\
    IZR a - F2R x - bpow (K - 53) <= F2R f <= IZR a - F2R x + bpow (K - 53).
Proof.
  intros Ha Hx HK HKr. unfold int_sub_float.
  destruct (float_of_int_exact a Ha) as (fa & -> & Hfa & Ea). cbn [bind].
  rewrite <- Ea in *. eexists. split; [reflexivity|].
  now apply float_sub_approx.
Qed.

Lemma int_mul_float_approx (a : Z) (x : float) (K : Z) :
  (Z.abs a < 2 ^ 53)%Z -> is_finite x = true ->
  - bpow K < IZR a * F2R x < bpow K -> (-1021 <= K <= 971)%Z ->
  exists f,
    int_mul_float a x = Ok f /\ is_finite f = true /\
    IZR a * F2R x - bpow (K - 53) <= F2R f <= IZR a * F2R x + bpow (K - 53).
Proof.
  intros Ha Hx HK HKr. unfold int_mul_float.
  destruct (float_of_int_exact a Ha) as (fa & -> & Hfa & Ea). cbn [bind].
  rewrite <- Ea in *. eexists. split; [reflexivity|].
  now apply float_mul_approx.
Qed.

(** [mix] on canonical channels (also after the shift by 255) and a ratio
    close to a number [q] of [[0, 1]]: the result is finite and within
    [2^-40] of the exact mix. *)
Lemma mix_approx (a b : Z) (t : float) (q : R) :
  (Z.abs a <= 510)%Z -> (Z.abs b <= 510)%Z ->
  is_finite t = true -> 0 <= q <= 1 ->
  q - bpow (-52) <= F2R t <= q + bpow (-52) ->
  exists f,
    mix a b t = Ok f /\ is_finite f = true /\
    IZR a * (1 - q) + IZR b * q - bpow (-40) <= F2R f
      <= IZR a * (1 - q) + IZR b * q + bpow (-40).
Proof.
  intros Ha Hb Ht Hq HT. unfold mix.
  pose proof bpow_m53 as Hu. pose proof (bpow_gt_0 (-53)) as Hu0.
  assert (E52 : bpow (-52) = 2 * bpow (-53)).
  { rewrite (bpow_unit (-52)) by lia. reflexivity. }
  assert (E44 : bpow (-44) = 512 * bpow (-53)).
  { rewrite (bpow_unit (-44)) by lia. reflexivity. }
  assert (E43 : bpow (-43) = 1024 * bpow (-53)).
  { rewrite (bpow_unit (-43)) by lia. reflexivity. }
  assert (E40 : bpow (-40) = 8192 * bpow (-53)).
  { rewrite (bpow_unit (-40)) by lia. reflexivity. }
  assert (E1 : bpow 1 = 2) by apply bpow_1.
  assert (E9 : bpow 9 = 512) by (rewrite bpow_IZR by lia; reflexivity).
  assert (E10 : bpow 10 = 1024) by (rewrite bpow_IZR by lia; reflexivity).
  set (u := bpow (-53)) in *. rewrite E52 in HT. rewrite E40.
  assert (HA : - 510 <= IZR a <= 510).
  { split; apply IZR_le; lia. }
  assert (HB : - 510 <= IZR b <= 510).
  { split; apply IZR_le; lia. }
  (* 1 - ratio_b *)
  destruct (int_sub_float_approx 1 t 1) as (fu & -> & Hfu & HU);
    [simpl; lia|assumption|rewrite E1; simpl (IZR 1); lra|lia|].
  cbn [bind]. replace (1 - 53)%Z with (-52)%Z in HU by lia.
  rewrite E52 in HU. simpl (IZR 1) in HU.
  assert (HU' : (1 - q) - 4 * u <= F2R fu <= (1 - q) + 4 * u) by lra.
  (* a * (1 - ratio_b) *)
  pose proof (mul_err (IZR a) (F2R fu) (1 - q) 510 (4 * u) HA HU') as HAU.
  pose proof (scale_bound (IZR a) (1 - q) 510 HA ltac:(lra)) as HAq.
  destruct (int_mul_float_approx a fu 9) as (fx & -> & Hfx & HX);
    [simpl; lia|assumption|rewrite E9; lra|lia|].
  cbn [bind]. replace (9 - 53)%Z with (-44)%Z in HX by lia. rewrite E44 in HX.
  (* b * ratio_b *)
  pose proof (mul_err (IZR b) (F2R t) q 510 (2 * u) HB HT) as HBT.
  pose proof (scale_bound (IZR b) q 510 HB Hq) as HBq.
  destruct (int_mul_float_approx b t 9) as (fy & -> & Hfy & HY);
    [simpl; lia|assumption|rewrite E9; lra|lia|].
  cbn [bind]. replace (9 - 53)%Z with (-44)%Z in HY by lia. rewrite E44 in HY.
  (* the sum *)
  destruct (float_add_approx fx fy 10 Hfx Hfy) as [Hfs HS];
    [rewrite E10; lra|lia|].
  replace (10 - 53)%Z with (-43)%Z in HS by lia. rewrite E43 in HS.
  eexists. split; [reflexivity|]. split; [assumption|]. lra.
Qed.

End Mixing.

(** ** Ranges and loops *)

Section Loops.

Lemma range_length (lo hi : Z) : length (range lo hi) = Z.to_nat (hi - lo).
Proof. unfold range. now rewrite length_map, length_seq. Qed.

Lemma range_nth_error (lo hi : Z) (k : nat) :
  (k < Z.to_nat (hi - lo))%nat ->
  nth_error (range lo hi) k = Some (lo + Z.of_nat k).
Proof.
  intros Hk. unfold range.
  rewrite nth_error_map, nth_error_seq.
  destruct (Nat.ltb_spec k (Z.to_nat (hi - lo))); [reflexivity|lia].
Qed.

Lemma range_In (lo hi x : Z) : In x (range lo hi) <-> lo <= x < hi.
Proof.
  unfold range. rewrite in_map_iff. split.
  - intros (k & <- & Hk). apply in_seq in Hk. lia.
  - intros Hx. exists (Z.to_nat (x - lo)). split; [lia|].
    apply in_seq. lia.
Qed.

Lemma range_empty (lo hi : Z) : hi <= lo -> range lo hi = [].
Proof.
  intros H. unfold range. replace (Z.to_nat (hi - lo)) with 0%nat by lia.
  reflexivity.
Qed.

Lemma for_each_ext {A S : Type} (body body' : A -> S -> result S)
  (l : list A) :
  (forall x s, body x s = body' x s) ->
  forall s, for_each l body s = for_each l body' s.
Proof.
  intros H. induction l as [|x l IH]; intros s; cbn [for_each]; [reflexivity|].
  rewrite H. destruct (body' x s); cbn [bind]; auto.
Qed.

Lemma for_each_append {A B : Type} (g : A -> result B) (l : list A) :
  forall s : list B,
    for_each l (fun x s => y <- g x ;; Ok (s ++ [y])) s
    = (ys <- map_result g l ;; Ok (s ++ ys)).
Proof.
  induction l as [|x l IH]; intros s; cbn [for_each map_result bind].
  - now rewrite app_nil_r.
  - destruct (g x) as [y|e]; cbn [bind]; [|reflexivity].
    rewrite IH. destruct (map_result g l) as [ys|e]; cbn [bind]; [|reflexivity].
    now rewrite <- app_assoc.
Qed.

Lemma map_result_Forall2 {A B : Type} (g : A -> result B) (l : list A)
  (ys : list B) :
  map_result g l = Ok ys <-> Forall2 (fun x y => g x = Ok y) l ys.
Proof.
  revert ys. induction l as [|x l IH]; intros ys; cbn [map_result].
  - split.
    + intros [= <-]. constructor.
    + intros H. inversion H. reflexivity.
  - split.
    + destruct (g x) as [y|e] eqn:Ey; cbn [bind]; [|discriminate].
      destruct (map_result g l) as [ys'|e] eqn:El; cbn [bind]; [|discriminate].
      intros [= <-]. constructor; [assumption|]. now apply IH.
    + intros H. inversion H as [|x' y l' ys' Hy Hl]; subst.
      rewrite Hy. cbn [bind]. apply IH in Hl. rewrite Hl. reflexivity.
Qed.

Lemma map_result_total {A B : Type} (g : A -> result B) (l : list A) :
  (forall x, In x l -> exists y, g x = Ok y) ->
  exists ys, map_result g l = Ok ys.
Proof.
  induction l as [|x l IH]; intros H; cbn [map_result].
  - now exists [].
  - destruct (H x (or_introl eq_refl)) as [y ->].
    destruct IH as [ys ->]; [intros z Hz; apply H; now right|].
    now exists (y :: ys).
Qed.

Lemma map_result_pure {A B : Type} (g : A -> B) (l : list A) :
  map_result (fun x => Ok (g x)) l = Ok (map g l).
Proof.
  induction l as [|x l IH]; cbn [map_result map bind]; [reflexivity|].
  now rewrite IH.
Qed.

Lemma Forall2_nth_error_l {A B : Type} (R : A -> B -> Prop) (l : list A)
  (ys : list B) (k : nat) (x : A) :
  Forall2 R l ys -> nth_error l k = Some x ->
  exists y, nth_error ys k = Some y /\ R x y.
Proof.
  intros H. revert k. induction H as [|x' y l' ys' Hxy _ IH]; intros k.
  - destruct k; discriminate.
  - destruct k as [|k]; cbn [nth_error].
    + intros [= ->]. now exists y.
    + apply IH.
Qed.

End Loops.

(** ** The loops of [add_gradient] and [add_shades] as maps *)

Section RowShape.

Lemma gradient_step_color (color1 color2 : color) (n i : Z)
  (new_row : list color) :
  gradient_step color1 color2 n i new_row
  = (c <- gradient_color color1 color2 n i ;; Ok (new_row ++ [c])).
Proof.
  unfold gradient_step, gradient_color.
  destruct (int_truediv (i + 1) (n + 1)); cbn [bind]; [|reflexivity].
  destruct (mix_colors color1 color2 a); reflexivity.
Qed.

Lemma gradient_row_eq (r color1 color2 : color) (n : Z) (asc : bool) :
  gradient_row r color1 color2 n asc
  = (a <- hsv_adjust_range color1 r ;;
     b <- hsv_adjust_range color2 r ;;
     cs <- map_result (gradient_color (shift_hue asc a) b n) (range 0 n) ;;
     Ok (a :: cs ++ [b])).
Proof.
  unfold gradient_row.
  destruct (hsv_adjust_range color1 r) as [a|e]; cbn [bind]; [|reflexivity].
  destruct (hsv_adjust_range color2 r) as [b|e]; cbn [bind]; [|reflexivity].
  fold (shift_hue asc a).
  rewrite (for_each_ext _
             (fun i s => c <- gradient_color (shift_hue asc a) b n i ;;
                         Ok (s ++ [c])))
    by (intros; apply gradient_step_color).
  rewrite for_each_append.
  destruct (map_result _ _) as [cs|e]; cbn [bind]; [|reflexivity].
  now rewrite <- app_assoc.
Qed.

Lemma shades_row_eq (r base_color shift : color) (d u : Z) :
  shades_row r base_color shift d u
  = (b <- hsv_adjust_range base_color r ;;
     s <- hsv_adjust_range shift r ;;
     Ok (map (shade b s) (range (- d) (u + 1)))).
Proof.
  unfold shades_row.
  destruct (hsv_adjust_range base_color r) as [b|e]; cbn [bind]; [|reflexivity].
  destruct (hsv_adjust_range shift r) as [s|e]; cbn [bind]; [|reflexivity].
  rewrite (for_each_append (fun i => Ok (shade b s i))).
  now rewrite map_result_pure.
Qed.

End RowShape.

(** ** The conversion of a colour *)

Section ConversionTotal.
Local Open Scope R_scope.

Lemma hsv_adjust_range_in_range (c r : color) :
  range_positive r -> in_range c r ->
  exists a, hsv_adjust_range c r = Ok a /\ canonical_bounds a.
Proof.
  intros (Hh & Hs & Hv) (Ch & Cs & Cv). unfold hsv_adjust_range.
  destruct (hsv_adjust_channel_in_range _ _ Hh Ch) as (h & -> & Bh & _).
  destruct (hsv_adjust_channel_in_range _ _ Hs Cs) as (s & -> & Bs & _).
  destruct (hsv_adjust_channel_in_range _ _ Hv Cv) as (v & -> & Bv & _).
  cbn [bind]. exists (h, s, v). split; [reflexivity|].
  unfold canonical_bounds, hue, sat, val. cbn [fst snd]. auto.
Qed.

(** Away from a zero range and from overflow the conversion of a channel
    succeeds, whatever its sign. *)
Lemma hsv_adjust_channel_ok (c r : Z) :
  r <> 0%Z -> (Z.abs c <= 2 ^ 1000)%Z ->
  exists z, hsv_adjust_channel c r = Ok z.
Proof.
  intros Hr Hc. unfold hsv_adjust_channel.
  destruct (int_truediv_approx (255 * c) r 1023) as (f & -> & Hf & _);
    [assumption| |lia|].
  - apply IZR_div_bound; [assumption|].
    rewrite bpow_IZR by lia. rewrite <- opp_IZR.
    assert (Hp : (0 < 2 ^ 1000)%Z) by (apply Z.pow_pos_nonneg; lia).
    assert (E : (2 ^ 1023 = 2 ^ 23 * 2 ^ 1000)%Z).
    { rewrite <- Z.pow_add_r by lia. reflexivity. }
    rewrite E. change (2 ^ 23)%Z with 8388608%Z.
    set (P := (2 ^ 1000)%Z) in *. clearbody P.
    split; apply IZR_lt; lia.
  - cbn [bind]. destruct (round_approx f Hf) as (z & Hz & _). now exists z.
Qed.

End ConversionTotal.

(** ** The colours of the loop of [add_gradient] *)

Section GradientColor.
Local Open Scope R_scope.

(** The ratio of step [i]: a finite float within [2^-52] of
    [(i+1)/(n+1)]. *)
Lemma ratio_approx (n i : Z) :
  (0 <= i < n)%Z ->
  exists t,
    int_truediv (i + 1) (n + 1) = Ok t /\ is_finite t = true /\
    0 <= IZR (i + 1) / IZR (n + 1) <= 1 /\
    IZR (i + 1) / IZR (n + 1) - bpow (-52) <= F2R t
      <= IZR (i + 1) / IZR (n + 1) + bpow (-52).
Proof.
  intros Hi.
  assert (HN : 0 < IZR (n + 1)) by (apply IZR_lt; lia).
  assert (Hj : 0 < IZR (i + 1) < IZR (n + 1)) by (split; apply IZR_lt; lia).
  assert (Hq : 0 < IZR (i + 1) / IZR (n + 1) < 1).
  { split.
    - apply Rdiv_lt_0_compat; lra.
    - apply Rmult_lt_reg_r with (1 := HN). unfold Rdiv.
      rewrite Rmult_assoc, Rinv_l by lra. lra. }
  destruct (int_truediv_approx (i + 1) (n + 1) 0) as (t & Ht & Hf & Hb);
    [lia|rewrite bpow_0; lra|lia|].
  exists t. split; [assumption|]. split; [assumption|]. split; [lra|].
  replace (0 - 53)%Z with (-53)%Z in Hb by lia.
  pose proof (bpow_le (-53) (-52) ltac:(lia)). lra.
Qed.

Lemma mix_round_approx (a b : Z) (t : float) (q : R) :
  (Z.abs a <= 510)%Z -> (Z.abs b <= 510)%Z ->
  is_finite t = true -> 0 <= q <= 1 ->
  q - bpow (-52) <= F2R t <= q + bpow (-52) ->
  exists z,
    (m <- mix a b t ;; round m) = Ok z /\
    IZR a * (1 - q) + IZR b * q - (/ 2 + bpow (-40)) <= IZR z
      <= IZR a * (1 - q) + IZR b * q + (/ 2 + bpow (-40)).
Proof.
  intros Ha Hb Ht Hq HT.
  destruct (mix_approx a b t q Ha Hb Ht Hq HT) as (f & -> & Hf & Hbd).
  cbn [bind]. destruct (round_approx f Hf) as (z & -> & Hz).
  exists z. split; [reflexivity|]. lra.
Qed.


Lemma mix_colors_approx (c1 c2 : color) (t : float) (q : R) :
  channels_within 510 c1 -> channels_within 510 c2 ->
  is_finite t = true -> 0 <= q <= 1 ->
  q - bpow (-52) <= F2R t <= q + bpow (-52) ->
  exists c,
    mix_colors c1 c2 t = Ok c /\
    near_mix (hue c1) (hue c2) q (hue c) /\
    near_mix (sat c1) (sat c2) q (sat c) /\
    near_mix (val c1) (val c2) q (val c).
Proof.
  intros (H1 & S1 & V1) (H2 & S2 & V2) Ht Hq HT. unfold mix_colors.
  destruct (mix_round_approx _ _ t q H1 H2 Ht Hq HT) as (h & -> & Hh).
  destruct (mix_round_approx _ _ t q S1 S2 Ht Hq HT) as (s & -> & Hs).
  destruct (mix_round_approx _ _ t q V1 V2 Ht Hq HT) as (v & -> & Hv).
  cbn [bind]. exists (h, s, v). split; [reflexivity|].
  unfold near_mix, exact_mix, hue, sat, val. cbn [fst snd]. auto.
Qed.

Lemma gradient_color_approx (c1 c2 : color) (n i : Z) :
  channels_within 510 c1 -> channels_within 510 c2 -> (0 <= i < n)%Z ->
  let q := IZR (i + 1) / IZR (n + 1) in
  exists c,
    gradient_color c1 c2 n i = Ok c /\
    (exists h, hue c = (h mod 255)%Z /\ near_mix (hue c1) (hue c2) q h) /\
    near_mix (sat c1) (sat c2) q (sat c) /\
    near_mix (val c1) (val c2) q (val c).
Proof.
  intros B1 B2 Hi q. unfold gradient_color.
  destruct (ratio_approx n i Hi) as (t & -> & Ht & Hq & HT). cbn [bind].
  destruct (mix_colors_approx c1 c2 t q B1 B2 Ht Hq HT)
    as (c & -> & Hh & Hs & Hv).
  cbn [bind]. eexists. split; [reflexivity|].
  unfold hue at 1, sat at 1, val at 1. cbn [fst snd].
  split; [exists (hue c); auto|]. auto.
Qed.

End GradientColor.

(** ** The rows built by [add_gradient] and [add_shades] *)

Section Rows.

Lemma channels_within_canonical (c : color) :
  canonical_bounds c -> channels_within 510 c.
Proof. unfold canonical_bounds, channels_within. lia. Qed.

Lemma channels_within_shift_hue (asc : bool) (c : color) :
  canonical_bounds c -> channels_within 510 (shift_hue asc c).
Proof.
  unfold canonical_bounds, channels_within, shift_hue.
  destruct asc; cbn [negb hue sat val fst snd]; unfold hue, sat, val; lia.
Qed.

Lemma gradient_row_shape (r c1 c2 : color) (n : Z) (asc : bool)
  (row : list color) :
  gradient_row r c1 c2 n asc = Ok row ->
  exists a b cs,
    hsv_adjust_range c1 r = Ok a /\
    hsv_adjust_range c2 r = Ok b /\
    row = a :: cs ++ [b] /\
    Forall2 (fun i c => gradient_color (shift_hue asc a) b n i = Ok c)
      (range 0 n) cs.
Proof.
  rewrite gradient_row_eq.
  destruct (hsv_adjust_range c1 r) as [a|e]; cbn [bind]; [|discriminate].
  destruct (hsv_adjust_range c2 r) as [b|e]; cbn [bind]; [|discriminate].
  destruct (map_result _ _) as [cs|e] eqn:Hcs; cbn [bind]; [|discriminate].
  intros [= <-]. exists a, b, cs. repeat split.
  now apply map_result_Forall2.
Qed.

Lemma gradient_row_total (r c1 c2 : color) (n : Z) (asc : bool) :
  range_positive r -> in_range c1 r -> in_range c2 r ->
  exists row, gradient_row r c1 c2 n asc = Ok row.
Proof.
  intros Hr H1 H2. rewrite gradient_row_eq.
  destruct (hsv_adjust_range_in_range c1 r Hr H1) as (a & -> & Ba).
  destruct (hsv_adjust_range_in_range c2 r Hr H2) as (b & -> & Bb).
  cbn [bind].
  destruct (map_result_total (gradient_color (shift_hue asc a) b n) (range 0 n))
    as [cs ->].
  - intros i Hi. apply range_In in Hi.
    destruct (gradient_color_approx (shift_hue asc a) b n i) as (c & Hc & _);
      [now apply channels_within_shift_hue|now apply channels_within_canonical
      |lia|].
    now exists c.
  - cbn [bind]. eauto.
Qed.

Lemma Forall2_range_nth (P : Z -> color -> Prop) (lo hi : Z) (cs : list color) :
  Forall2 P (range lo hi) cs ->
  length cs = Z.to_nat (hi - lo) /\
  forall i, lo <= i < hi ->
    exists c, nth_error cs (Z.to_nat (i - lo)) = Some c /\ P i c.
Proof.
  intros H. split.
  - rewrite <- (Forall2_length H). apply range_length.
  - intros i Hi.
    destruct (Forall2_nth_error_l P _ _ (Z.to_nat (i - lo)) i H)
      as (c & Hc & HP).
    + rewrite range_nth_error by lia. f_equal. lia.
    + now exists c.
Qed.

Lemma nth_error_middle (a b : color) (cs : list color) (k : nat) :
  (k < length cs)%nat ->
  nth_error (a :: cs ++ [b]) (S k) = nth_error cs k.
Proof. intros Hk. cbn [nth_error]. now apply nth_error_app1. Qed.

Lemma nth_error_last (a b : color) (cs : list color) :
  nth_error (a :: cs ++ [b]) (S (length cs)) = Some b.
Proof.
  cbn [nth_error]. rewrite nth_error_app2 by lia.
  now rewrite Nat.sub_diag.
Qed.

Lemma add_gradient_result (c1 c2 : color) (n : Z) (asc : bool)
  (self : PixelPalette) :
  fst (add_gradient c1 c2 n asc self) = Ok tt ->
  exists row,
    gradient_row (hsv_range self) c1 c2 n asc = Ok row /\
    snd (add_gradient c1 c2 n asc self)
      = {| rows := rows self ++ [row]; hsv_range := hsv_range self |}.
Proof.
  unfold add_gradient.
  destruct (gradient_row (hsv_range self) c1 c2 n asc) as [row|e];
    cbn [fst snd]; [|discriminate].
  intros _. now exists row.
Qed.

Lemma add_gradient_total (c1 c2 : color) (n : Z) (asc : bool)
  (self : PixelPalette) :
  range_positive (hsv_range self) ->
  in_range c1 (hsv_range self) -> in_range c2 (hsv_range self) ->
  fst (add_gradient c1 c2 n asc self) = Ok tt.
Proof.
  intros Hr H1 H2. unfold add_gradient.
  destruct (gradient_row_total (hsv_range self) c1 c2 n asc Hr H1 H2)
    as [row ->].
  reflexivity.
Qed.

(** The shape of the row of a successful [add_gradient], for both values
    of [hue_ascending]. *)
Lemma gradient_row_elements (r c1 c2 : color) (n : Z) (asc : bool)
  (row : list color) :
  0 <= n ->
  gradient_row r c1 c2 n asc = Ok row ->
  exists a b,
    hsv_adjust_range c1 r = Ok a /\
    hsv_adjust_range c2 r = Ok b /\
    length row = Z.to_nat (n + 2) /\
    nth_error row 0 = Some a /\
    nth_error row (Z.to_nat (n + 1)) = Some b /\
    (n = 0 -> row = [a; b]) /\
    forall i, 0 <= i < n ->
      exists c,
        gradient_color (shift_hue asc a) b n i = Ok c /\
        nth_error row (Z.to_nat (i + 1)) = Some c.
Proof.
  intros Hn Hrow.
  destruct (gradient_row_shape _ _ _ _ _ _ Hrow) as (a & b & cs & Ha & Hb & -> & Hcs).
  apply Forall2_range_nth in Hcs. destruct Hcs as [Hlen Hnth].
  rewrite Z.sub_0_r in Hlen.
  exists a, b. repeat split; try assumption.
  - cbn [length]. rewrite length_app, Hlen. cbn [length]. lia.
  - replace (Z.to_nat (n + 1)) with (S (length cs)) by lia.
    apply nth_error_last.
  - intros ->. destruct cs; [reflexivity|discriminate].
  - intros i Hi. destruct (Hnth i Hi) as (c & Hc & HP).
    exists c. split; [assumption|].
    replace (Z.to_nat (i + 1)) with (S (Z.to_nat (i - 0))) by lia.
    rewrite nth_error_middle; [assumption|]. lia.
Qed.

End Rows.

(** ** Integers near an exact mix *)

Section NearMix.
Local Open Scope R_scope.

Lemma bpow_m40 : bpow (-40) * 1099511627776 = 1.
Proof.
  change 1099511627776 with (IZR (2 ^ 40)).
  rewrite <- bpow_IZR, <- bpow_add by lia. reflexivity.
Qed.

Lemma near_mix_start (a b : Z) : near_mix a b 0 a.
Proof.
  unfold near_mix, exact_mix. pose proof (bpow_gt_0 (-40)). lra.
Qed.

Lemma near_mix_end (a b : Z) : near_mix a b 1 b.
Proof.
  unfold near_mix, exact_mix. pose proof (bpow_gt_0 (-40)). lra.
Qed.

Lemma near_mix_sym (a b : Z) (q : R) (z : Z) :
  near_mix a b q z -> near_mix b a (1 - q) z.
Proof. unfold near_mix, exact_mix. intros H. lra. Qed.

(** An integer near the mix of two integers lies between them. *)
Lemma near_mix_between (a b : Z) (q : R) (z : Z) :
  0 <= q <= 1 -> near_mix a b q z -> (Z.min a b <= z <= Z.max a b)%Z.
Proof.
  unfold near_mix, exact_mix. intros Hq Hz.
  pose proof bpow_m40 as Hu. pose proof (bpow_gt_0 (-40)) as Hu0.
  assert (Hlo : IZR (Z.min a b) <= IZR a * (1 - q) + IZR b * q).
  { destruct (Z.min_spec a b) as [[Hab ->]|[Hab ->]];
      apply IZR_lt in Hab || apply IZR_le in Hab; nra. }
  assert (Hhi : IZR a * (1 - q) + IZR b * q <= IZR (Z.max a b)).
  { destruct (Z.max_spec a b) as [[Hab ->]|[Hab ->]];
      apply IZR_lt in Hab || apply IZR_le in Hab; nra. }
  assert (H1 : IZR (Z.min a b - 1) < IZR z) by (rewrite minus_IZR; lra).
  assert (H2 : IZR z < IZR (Z.max a b + 1)) by (rewrite plus_IZR; lra).
  apply lt_IZR in H1, H2. lia.
Qed.

(** Two integers near the exact mixes at consecutive ratios [q] and
    [q + 1/N] are ordered as the endpoints are, as long as the step [1/N]
    is larger than the rounding error of [mix]. *)
Lemma near_mix_step (a b N : Z) (q : R) (z1 z2 : Z) :
  (a <= b)%Z -> (0 < N <= 2 ^ 38)%Z ->
  near_mix a b q z1 -> near_mix a b (q + / IZR N) z2 -> (z1 <= z2)%Z.
Proof.
  unfold near_mix, exact_mix. intros Hab HN H1 H2.
  destruct (Z_le_gt_dec z1 z2) as [|Hgt]; [assumption|exfalso].
  pose proof bpow_m40 as Hu. pose proof (bpow_gt_0 (-40)) as Hu0.
  set (eps := bpow (-40)) in *.
  assert (HNR : 1 <= IZR N <= 274877906944).
  { split; apply IZR_le; [lia|]. change 274877906944%Z with (2 ^ 38)%Z. lia. }
  assert (Hinv : 0 < / IZR N) by (apply Rinv_0_lt_compat; lra).
  assert (Hinv1 : / IZR N * IZR N = 1) by (apply Rinv_l; lra).
  assert (Hz : IZR z2 + 1 <= IZR z1).
  { rewrite <- plus_IZR. apply IZR_le. lia. }
  set (D := IZR b - IZR a).
  assert (HD0 : 0 <= D) by (unfold D; apply IZR_le in Hab; lra).
  (* the exact mixes differ by D / N, at most twice the error *)
  assert (HDN : D * / IZR N <= 2 * eps) by (unfold D; nra).
  assert (HD1 : D < 1).
  { assert (D = D * / IZR N * IZR N) by (rewrite Rmult_assoc, Hinv1; ring).
    assert (D * / IZR N * IZR N <= 2 * eps * IZR N).
    { apply Rmult_le_compat_r; lra. }
    nra. }
  assert (Eab : a = b).
  { unfold D in HD1. rewrite <- minus_IZR in HD1.
    apply (lt_IZR _ 1) in HD1. lia. }
  subst b.
  assert (Hz1 : IZR z1 < IZR (a + 1)) by (rewrite plus_IZR; nra).
  assert (Hz2 : IZR (a - 1) < IZR z2) by (rewrite minus_IZR; nra).
  apply lt_IZR in Hz1, Hz2. lia.
Qed.

Lemma near_mix_step_down (a b N : Z) (q : R) (z1 z2 : Z) :
  (b <= a)%Z -> (0 < N <= 2 ^ 38)%Z ->
  near_mix a b q z1 -> near_mix a b (q + / IZR N) z2 -> (z2 <= z1)%Z.
Proof.
  intros Hab HN H1 H2.
  apply near_mix_sym in H1, H2.
  apply (near_mix_step b a N (1 - (q + / IZR N)) z2 z1 Hab HN H2).
  replace (1 - (q + / IZR N) + / IZR N) with (1 - q) by ring.
  assumption.
Qed.

(** With fewer than [2^38] steps the rounding error of [mix] cannot move
    the mix across a half-integer: the rounded mix is an integer nearest to
    the exact mix. *)
Lemma near_mix_nearest (a b n i z : Z) :
  (0 <= i < n)%Z -> (n < 2 ^ 38)%Z ->
  near_mix a b (IZR (i + 1) / IZR (n + 1)) z -> nearest_mix a b n i z.
Proof.
  unfold near_mix, exact_mix, nearest_mix. intros Hi Hn Hz.
  pose proof bpow_m40 as Hu. pose proof (bpow_gt_0 (-40)) as Hu0.
  set (eps := bpow (-40)) in *.
  assert (HNR : 1 <= IZR (n + 1) <= 274877906944).
  { split; apply IZR_le; [lia|]. change 274877906944%Z with (2 ^ 38)%Z. lia. }
  set (N := IZR (n + 1)) in *. set (q := IZR (i + 1) / N) in *.
  assert (Hq : q * N = IZR (i + 1)) by (unfold q; field; lra).
  assert (HE : IZR (a * (n - i) + b * (i + 1))
               = (IZR a * (1 - q) + IZR b * q) * N).
  { rewrite plus_IZR, !mult_IZR, minus_IZR.
    replace (IZR n) with (N - 1) by (unfold N; rewrite plus_IZR; simpl; ring).
    replace (IZR i) with (q * N - 1) by (rewrite Hq, plus_IZR; simpl; ring).
    rewrite <- Hq. ring. }
  set (M := IZR a * (1 - q) + IZR b * q) in *.
  assert (Herr : 2 * N * eps < 1) by nra.
  assert (H1 : IZR (2 * (n + 1) * z - 2 * (a * (n - i) + b * (i + 1)))
               < IZR (n + 1 + 1)).
  { rewrite minus_IZR, !mult_IZR, HE, (plus_IZR (n + 1)). fold N.
    simpl (IZR 2). simpl (IZR 1). nra. }
  assert (H2 : IZR (- (n + 1) - 1)
               < IZR (2 * (n + 1) * z - 2 * (a * (n - i) + b * (i + 1)))).
  { rewrite !minus_IZR, !mult_IZR, HE, opp_IZR. fold N.
    simpl (IZR 2). simpl (IZR 1). nra. }
  apply lt_IZR in H1, H2. lia.
Qed.

End NearMix.

(** ** The elements of a gradient row *)

Section GradientElements.

Lemma gradient_color_inv (c1 c2 : color) (n i : Z) (c : color) :
  gradient_color c1 c2 n i = Ok c ->
  exists t c0,
    int_truediv (i + 1) (n + 1) = Ok t /\
    mix_colors c1 c2 t = Ok c0 /\
    c = (hue c0 mod 255, sat c0, val c0).
Proof.
  unfold gradient_color.
  destruct (int_truediv (i + 1) (n + 1)) as [t|e]; cbn [bind]; [|discriminate].
  destruct (mix_colors c1 c2 t) as [c0|e] eqn:Hc0; cbn [bind]; [|discriminate].
  intros H. injection H as <-. exists t, c0. auto.
Qed.

Lemma mix_colors_inv (c1 c2 : color) (t : float) (c : color) :
  mix_colors c1 c2 t = Ok c ->
  (m <- mix (hue c1) (hue c2) t ;; round m) = Ok (hue c) /\
  (m <- mix (sat c1) (sat c2) t ;; round m) = Ok (sat c) /\
  (m <- mix (val c1) (val c2) t ;; round m) = Ok (val c).
Proof.
  unfold mix_colors.
  destruct (m <- mix (hue c1) (hue c2) t ;; round m) as [h|e];
    cbn [bind]; [|discriminate].
  destruct (m <- mix (sat c1) (sat c2) t ;; round m) as [s|e];
    cbn [bind]; [|discriminate].
  destruct (m <- mix (val c1) (val c2) t ;; round m) as [v|e];
    cbn [bind]; [|discriminate].
  intros H. injection H as <-. auto.
Qed.

(** The colour mixed at step [i] is near the exact mix at [(i+1)/(n+1)]. *)
Lemma mix_colors_near (c1 c2 : color) (n i : Z) (t : float) (c0 : color) :
  channels_within 510 c1 -> channels_within 510 c2 -> 0 <= i < n ->
  int_truediv (i + 1) (n + 1) = Ok t ->
  mix_colors c1 c2 t = Ok c0 ->
  let q := (IZR (i + 1) / IZR (n + 1))%R in
  (0 <= q <= 1)%R /\
  near_mix (hue c1) (hue c2) q (hue c0) /\
  near_mix (sat c1) (sat c2) q (sat c0) /\
  near_mix (val c1) (val c2) q (val c0).
Proof.
  intros B1 B2 Hi Ht Hc q.
  destruct (ratio_approx n i Hi) as (t' & Ht' & Hf & Hq & HT).
  rewrite Ht in Ht'. injection Ht' as <-.
  destruct (mix_colors_approx c1 c2 t q B1 B2 Hf Hq HT) as (c & Hc' & Hnear).
  rewrite Hc in Hc'. injection Hc' as <-.
  split; assumption.
Qed.

(** Every position [k] of a gradient row on in-range colours holds
    saturation and value near the exact mix at [k/(n+1)]. *)
Lemma gradient_row_near (r c1 c2 : color) (n : Z) (asc : bool)
  (a b : color) (row : list color) :
  0 <= n -> canonical_bounds a -> canonical_bounds b ->
  hsv_adjust_range c1 r = Ok a -> hsv_adjust_range c2 r = Ok b ->
  gradient_row r c1 c2 n asc = Ok row ->
  forall k, 0 <= k <= n + 1 ->
    exists c,
      nth_error row (Z.to_nat k) = Some c /\
      near_mix (sat a) (sat b) (IZR k / IZR (n + 1)) (sat c) /\
      near_mix (val a) (val b) (IZR k / IZR (n + 1)) (val c).
Proof.
  intros Hn Ba Bb Ha Hb Hrow k Hk.
  destruct (gradient_row_elements _ _ _ _ _ _ Hn Hrow)
    as (a' & b' & Ha' & Hb' & _ & H0 & Hlast & _ & Hmid).
  rewrite Ha in Ha'. injection Ha' as <-.
  rewrite Hb in Hb'. injection Hb' as <-.
  assert (HN : (0 < IZR (n + 1))%R) by (apply IZR_lt; lia).
  destruct (Z.eq_dec k 0) as [->|Hk0];
    [|destruct (Z.eq_dec k (n + 1)) as [->|Hk1]].
  - exists a. split; [assumption|].
    unfold Rdiv. rewrite Rmult_0_l. split; apply near_mix_start.
  - exists b. split; [assumption|].
    unfold Rdiv. rewrite Rinv_r by lra. split; apply near_mix_end.
  - destruct (Hmid (k - 1) ltac:(lia)) as (c & Hc & Hnth).
    replace (k - 1 + 1) with k in Hnth by lia.
    exists c. split; [assumption|].
    destruct (gradient_color_inv _ _ _ _ _ Hc) as (t & c0 & Ht & Hc0 & ->).
    destruct (mix_colors_near (shift_hue asc a) b n (k - 1) t c0)
      as (_ & _ & Hs & Hv); try assumption; try lia.
    + now apply channels_within_shift_hue.
    + now apply channels_within_canonical.
    + replace (k - 1 + 1) with k in * by lia.
      unfold sat at 3, val at 3. cbn [fst snd].
      assert (Es : sat (shift_hue asc a) = sat a) by (destruct asc; reflexivity).
      assert (Ev : val (shift_hue asc a) = val a) by (destruct asc; reflexivity).
      rewrite Es in Hs. rewrite Ev in Hv. split; assumption.
Qed.

End GradientElements.

(** ** [add_gradient] *)

Section AddGradient.

(** C1 (amended): for every [n >= 0], a call [add_gradient(c1, c2, n, True)]
    succeeds whenever the range is positive and both colours lie within it,
    and every successful call appends exactly one row of length [n + 2]
    whose first element is [canonical(c1)], whose last element is
    [canonical(c2)], and whose interior element at position [i] is the
    componentwise [round(c1[ch]*(1-t) + c2[ch]*t)] at [t = (i+1)/(n+1)],
    with the hue, and only the hue, reduced modulo 255 afterwards; [n = 0]
    yields the two endpoints alone.  On canonical endpoints and fewer than
    [2^38] steps each rounded mix, computed in floating point, is an
    integer nearest to the exact mix. *)
Theorem add_gradient_ascending_row (self : PixelPalette) (c1 c2 : color)
  (n : Z) :
  0 <= n ->
  (range_positive (hsv_range self) ->
   in_range c1 (hsv_range self) -> in_range c2 (hsv_range self) ->
   fst (add_gradient c1 c2 n true self) = Ok tt) /\
  (fst (add_gradient c1 c2 n true self) = Ok tt ->
   exists a b row,
     hsv_adjust_range c1 (hsv_range self) = Ok a /\
     hsv_adjust_range c2 (hsv_range self) = Ok b /\
     snd (add_gradient c1 c2 n true self)
       = {| rows := rows self ++ [row]; hsv_range := hsv_range self |} /\
     length row = Z.to_nat (n + 2) /\
     nth_error row 0 = Some a /\
     nth_error row (Z.to_nat (n + 1)) = Some b /\
     (n = 0 -> row = [a; b]) /\
     forall i, 0 <= i < n ->
       exists t h s v,
         int_truediv (i + 1) (n + 1) = Ok t /\
         (m <- mix (hue a) (hue b) t ;; round m) = Ok h /\
         (m <- mix (sat a) (sat b) t ;; round m) = Ok s /\
         (m <- mix (val a) (val b) t ;; round m) = Ok v /\
         nth_error row (Z.to_nat (i + 1)) = Some (h mod 255, s, v) /\
         (canonical_bounds a -> canonical_bounds b -> n < 2 ^ 38 ->
          nearest_mix (hue a) (hue b) n i h /\
          nearest_mix (sat a) (sat b) n i s /\
          nearest_mix (val a) (val b) n i v)).
Proof.
  intros Hn. split.
  - apply add_gradient_total.
  - intros Hok.
    destruct (add_gradient_result _ _ _ _ _ Hok) as (row & Hrow & Hsnd).
    destruct (gradient_row_elements _ _ _ _ _ _ Hn Hrow)
      as (a & b & Ha & Hb & Hlen & H0 & Hlast & Hzero & Hmid).
    exists a, b, row. repeat (split; [assumption|]).
    intros i Hi. destruct (Hmid i Hi) as (c & Hc & Hnth).
    destruct (gradient_color_inv _ _ _ _ _ Hc) as (t & c0 & Ht & Hc0 & ->).
    change (shift_hue true a) with a in Hc0.
    destruct (mix_colors_inv _ _ _ _ Hc0) as (Hh & Hs & Hv).
    exists t, (hue c0), (sat c0), (val c0).
    repeat (split; [assumption|]).
    intros Ba Bb Hn38.
    destruct (mix_colors_near a b n i t c0) as (_ & Nh & Ns & Nv);
      try assumption; try (now apply channels_within_canonical).
    repeat split; apply near_mix_nearest; assumption.
Qed.

Lemma add_gradient_ascending_row_witness :
  0 <= 2 /\
  fst (add_gradient (48, 19, 99) (16, 60, 99) 2 true (init (360, 100, 100)))
    = Ok tt.
Proof.
  split; [lia|].
  apply (add_gradient_ascending_row (init (360, 100, 100)) (48, 19, 99)
           (16, 60, 99) 2); [lia| | |];
    channels.
Defined.

(** C1, as stated, fails where the mixed hue rounds to 255: in a
    (255, 255, 255) palette the gradient between (255, 0, 0) and itself has
    the componentwise rounded mix (255, 0, 0) at its one interior position,
    and the row holds (0, 0, 0) there. *)
Lemma add_gradient_interior_hue_counterexample :
  exists t c row,
    hsv_adjust_range (255, 0, 0) (255, 255, 255) = Ok (255, 0, 0) /\
    int_truediv (0 + 1) (1 + 1) = Ok t /\
    mix_colors (255, 0, 0) (255, 0, 0) t = Ok c /\
    gradient_row (255, 255, 255) (255, 0, 0) (255, 0, 0) 1 true = Ok row /\
    nth_error row (Z.to_nat (0 + 1)) <> Some c.
Proof.
  exists (S754_finite false 4503599627370496 (-53)), (255, 0, 0),
    [(255, 0, 0); (0, 0, 0); (255, 0, 0)].
  repeat split; try (vm_compute; reflexivity).
  vm_compute. discriminate.
Qed.

(** C2 (amended): for every [n >= 0], a call
    [add_gradient(c1, c2, n, False)] succeeds on in-range colours, and a
    successful call mixes from [canonical(c1)] with its hue increased by 255
    and reduces the hue of every interior colour modulo 255, while the two
    endpoints are stored as converted (unshifted and unreduced).  On
    canonical endpoints each interior hue is the residue of an integer
    between [hue2] and [hue1 + 255] (nearest to the exact mix of
    [hue1 + 255] and [hue2] when the steps are fewer than [2^38]); when
    [hue1 <= hue2] it therefore lies on the arc that leaves [hue1]
    downwards through 0 and reaches [hue2]. *)
Theorem add_gradient_descending_row (self : PixelPalette) (c1 c2 : color)
  (n : Z) :
  0 <= n ->
  (range_positive (hsv_range self) ->
   in_range c1 (hsv_range self) -> in_range c2 (hsv_range self) ->
   fst (add_gradient c1 c2 n false self) = Ok tt) /\
  (fst (add_gradient c1 c2 n false self) = Ok tt ->
   exists a b row,
     hsv_adjust_range c1 (hsv_range self) = Ok a /\
     hsv_adjust_range c2 (hsv_range self) = Ok b /\
     snd (add_gradient c1 c2 n false self)
       = {| rows := rows self ++ [row]; hsv_range := hsv_range self |} /\
     length row = Z.to_nat (n + 2) /\
     nth_error row 0 = Some a /\
     nth_error row (Z.to_nat (n + 1)) = Some b /\
     forall i, 0 <= i < n ->
       exists t h s v,
         int_truediv (i + 1) (n + 1) = Ok t /\
         (m <- mix (hue a + 255) (hue b) t ;; round m) = Ok h /\
         (m <- mix (sat a) (sat b) t ;; round m) = Ok s /\
         (m <- mix (val a) (val b) t ;; round m) = Ok v /\
         nth_error row (Z.to_nat (i + 1)) = Some (h mod 255, s, v) /\
         (canonical_bounds a -> canonical_bounds b ->
          hue b <= h <= hue a + 255 /\
          (n < 2 ^ 38 -> nearest_mix (hue a + 255) (hue b) n i h) /\
          (hue a <= hue b -> hue b <= h mod 255 \/ h mod 255 <= hue a))).
Proof.
  intros Hn. split.
  - apply add_gradient_total.
  - intros Hok.
    destruct (add_gradient_result _ _ _ _ _ Hok) as (row & Hrow & Hsnd).
    destruct (gradient_row_elements _ _ _ _ _ _ Hn Hrow)
      as (a & b & Ha & Hb & Hlen & H0 & Hlast & _ & Hmid).
    exists a, b, row. repeat (split; [assumption|]).
    intros i Hi. destruct (Hmid i Hi) as (c & Hc & Hnth).
    destruct (gradient_color_inv _ _ _ _ _ Hc) as (t & c0 & Ht & Hc0 & ->).
    destruct (mix_colors_inv _ _ _ _ Hc0) as (Hh & Hs & Hv).
    change (hue (shift_hue false a)) with (hue a + 255) in Hh.
    change (sat (shift_hue false a)) with (sat a) in Hs.
    change (val (shift_hue false a)) with (val a) in Hv.
    exists t, (hue c0), (sat c0), (val c0).
    repeat (split; [assumption|]).
    intros Ba Bb.
    destruct (mix_colors_near (shift_hue false a) b n i t c0)
      as (Hq & Nh & _); try assumption.
    { now apply channels_within_shift_hue. }
    { now apply channels_within_canonical. }
    change (hue (shift_hue false a)) with (hue a + 255) in Nh.
    pose proof (near_mix_between _ _ _ _ Hq Nh) as Hbt.
    destruct Ba as (Bh & _). destruct Bb as (Bh' & _).
    split; [lia|]. split; [intros Hn38; now apply near_mix_nearest|].
    intros Hle.
    destruct (Z_lt_le_dec (hue c0) 255) as [Hlt|Hge].
    + left. rewrite Z.mod_small by lia. lia.
    + right. destruct (Z.eq_dec (hue c0) 510) as [->|Hne]; [cbn; lia|].
      replace (hue c0) with (hue c0 - 255 + 1 * 255) by ring.
      rewrite Z.mod_add, Z.mod_small by lia. lia.
Qed.

Lemma add_gradient_descending_row_witness :
  0 <= 5 /\
  fst (add_gradient (16, 60, 99) (217, 25, 12) 5 false (init (360, 100, 100)))
    = Ok tt.
Proof.
  split; [lia|].
  apply (add_gradient_descending_row (init (360, 100, 100)) (16, 60, 99)
           (217, 25, 12) 5); [lia| | |];
    channels.
Defined.

(** C2, as stated, fails twice.  An endpoint hue is not reduced modulo
    255: the colour (360, 0, 0) of a (360, 100, 100) palette is stored with
    hue 255.  And between (350, 50, 50) and (10, 50, 50), canonical hues 248
    and 7, two steps give the interior hues 83 and 172, neither of which is
    on the short arc through 0 (hues from 248 up to 254 and from 0 to 7). *)
Lemma add_gradient_descending_counterexample :
  gradient_row (360, 100, 100) (360, 0, 0) (10, 0, 0) 0 false
    = Ok [(255, 0, 0); (7, 0, 0)] /\
  255 mod 255 <> 255 /\
  gradient_row (360, 100, 100) (350, 50, 50) (10, 50, 50) 2 false
    = Ok [(248, 128, 128); (83, 128, 128); (172, 128, 128); (7, 128, 128)] /\
  ~ (248 <= 83 \/ 83 <= 7) /\ ~ (248 <= 172 \/ 172 <= 7).
Proof.
  split; [vm_compute; reflexivity|].
  split; [vm_compute; discriminate|].
  split; [vm_compute; reflexivity|].
  split; lia.
Qed.

(** C6: along the row appended by [add_gradient(c1, c2, n, True)], the
    saturation and the value are non-decreasing from each element to the
    next when the channel of [canonical(c1)] is at most that of
    [canonical(c2)], and non-increasing when the endpoint channels are
    ordered the other way.  The gradients are those of a palette with a
    positive range, between external colours within the range, with fewer
    than [2^38] steps. *)
Theorem add_gradient_channels_monotone (self : PixelPalette) (c1 c2 : color)
  (n : Z) :
  0 <= n < 2 ^ 38 ->
  range_positive (hsv_range self) ->
  in_range c1 (hsv_range self) -> in_range c2 (hsv_range self) ->
  exists a b row,
    hsv_adjust_range c1 (hsv_range self) = Ok a /\
    hsv_adjust_range c2 (hsv_range self) = Ok b /\
    add_gradient c1 c2 n true self
      = (Ok tt, {| rows := rows self ++ [row];
                   hsv_range := hsv_range self |}) /\
    forall k, 0 <= k <= n ->
      exists c c',
        nth_error row (Z.to_nat k) = Some c /\
        nth_error row (Z.to_nat (k + 1)) = Some c' /\
        (sat a <= sat b -> sat c <= sat c') /\
        (sat b <= sat a -> sat c' <= sat c) /\
        (val a <= val b -> val c <= val c') /\
        (val b <= val a -> val c' <= val c).
Proof.
  intros Hn Hr H1 H2.
  destruct (hsv_adjust_range_in_range c1 _ Hr H1) as (a & Ha & Ba).
  destruct (hsv_adjust_range_in_range c2 _ Hr H2) as (b & Hb & Bb).
  destruct (gradient_row_total _ c1 c2 n true Hr H1 H2) as [row Hrow].
  exists a, b, row. repeat (split; [assumption|]).
  split; [unfold add_gradient; now rewrite Hrow|].
  intros k Hk.
  assert (Hn0 : 0 <= n) by lia.
  assert (Hk0 : 0 <= k <= n + 1) by lia.
  assert (Hk1 : 0 <= k + 1 <= n + 1) by lia.
  destruct (gradient_row_near _ _ _ _ _ a b row Hn0 Ba Bb Ha Hb Hrow k Hk0)
    as (c & Hc & Hs & Hv).
  destruct (gradient_row_near _ _ _ _ _ a b row Hn0 Ba Bb Ha Hb Hrow
              (k + 1) Hk1) as (c' & Hc' & Hs' & Hv').
  exists c, c'. repeat (split; [assumption|]).
  assert (HN : 0 < n + 1 <= 2 ^ 38) by lia.
  assert (Eq : (IZR (k + 1) / IZR (n + 1)
                = IZR k / IZR (n + 1) + / IZR (n + 1))%R).
  { rewrite plus_IZR. unfold Rdiv. ring. }
  rewrite Eq in Hs', Hv'.
  repeat split; intros Hab.
  - exact (near_mix_step _ _ _ _ _ _ Hab HN Hs Hs').
  - exact (near_mix_step_down _ _ _ _ _ _ Hab HN Hs Hs').
  - exact (near_mix_step _ _ _ _ _ _ Hab HN Hv Hv').
  - exact (near_mix_step_down _ _ _ _ _ _ Hab HN Hv Hv').
Qed.

Lemma add_gradient_channels_monotone_witness :
  exists row,
    add_gradient (48, 19, 99) (16, 60, 99) 2 true (init (360, 100, 100))
      = (Ok tt, {| rows := [row]; hsv_range := (360, 100, 100) |}).
Proof.
  destruct (add_gradient_channels_monotone (init (360, 100, 100))
              (48, 19, 99) (16, 60, 99) 2)
    as (a & b & row & _ & _ & Hrow & _).
  - lia.
  - channels.
  - channels.
  - channels.
  - exists row. exact Hrow.
Defined.

(** The two hypotheses of the monotonicity above are used: the mix is a
    floating-point one.  On channels beyond the range, too large for the
    mix to be exact, the row between two colours of saturation [2^53 + 2]
    in a (255, 255, 255) palette rises to [2^53 + 4] at its second element
    and falls back at its third; and with [10^15 + 6] steps, more than any
    row that can be built, the colours mixed at two consecutive steps
    between the saturations 254 and 255 are out of order. *)
Lemma add_gradient_monotone_limits :
  (exists a b row c c',
     hsv_adjust_range (0, 2 ^ 53 + 2, 0) (255, 255, 255) = Ok a /\
     hsv_adjust_range (0, 2 ^ 53 + 2, 0) (255, 255, 255) = Ok b /\
     gradient_row (255, 255, 255) (0, 2 ^ 53 + 2, 0) (0, 2 ^ 53 + 2, 0) 4 true
       = Ok row /\
     sat a <= sat b /\
     nth_error row 1 = Some c /\ nth_error row 2 = Some c' /\
     sat c' < sat c) /\
  (exists a b row c c',
     hsv_adjust_range (0, 254, 0) (255, 255, 255) = Ok a /\
     hsv_adjust_range (0, 255, 0) (255, 255, 255) = Ok b /\
     gradient_row (255, 255, 255) (0, 254, 0) (0, 255, 0)
       1000000000000006 true = Ok row /\
     sat a <= sat b /\
     nth_error row (Z.to_nat (500000000000023 + 1)) = Some c /\
     nth_error row (Z.to_nat (500000000000024 + 1)) = Some c' /\
     sat c' < sat c).
Proof.
  split.
  - exists (0, 9007199254740994, 0), (0, 9007199254740994, 0),
      [(0, 9007199254740994, 0); (0, 9007199254740996, 0);
       (0, 9007199254740994, 0); (0, 9007199254740994, 0);
       (0, 9007199254740994, 0); (0, 9007199254740994, 0)],
      (0, 9007199254740996, 0), (0, 9007199254740994, 0).
    repeat split; try (vm_compute; reflexivity).
    vm_compute. discriminate.
  - destruct (gradient_row_total (255, 255, 255) (0, 254, 0) (0, 255, 0)
                1000000000000006 true) as [row Hrow];
      try (unfold range_positive, in_range, hue, sat, val; cbn [fst snd]; lia).
    assert (Hn : 0 <= 1000000000000006) by lia.
    destruct (gradient_row_elements _ _ _ _ _ _ Hn Hrow)
      as (a & b & Ha & Hb & _ & _ & _ & _ & Hmid).
    assert (Ea : a = (0, 254, 0)).
    { assert (E : hsv_adjust_range (0, 254, 0) (255, 255, 255)
                  = Ok (0, 254, 0)) by (vm_compute; reflexivity).
      rewrite E in Ha. injection Ha as <-. reflexivity. }
    assert (Eb : b = (0, 255, 0)).
    { assert (E : hsv_adjust_range (0, 255, 0) (255, 255, 255)
                  = Ok (0, 255, 0)) by (vm_compute; reflexivity).
      rewrite E in Hb. injection Hb as <-. reflexivity. }
    subst a b.
    assert (Ec : gradient_color (shift_hue true (0, 254, 0)) (0, 255, 0)
                   1000000000000006 500000000000023 = Ok (0, 255, 0))
      by (vm_compute; reflexivity).
    assert (Ec' : gradient_color (shift_hue true (0, 254, 0)) (0, 255, 0)
                    1000000000000006 500000000000024 = Ok (0, 254, 0))
      by (vm_compute; reflexivity).
    assert (H1 : 0 <= 500000000000023 < 1000000000000006) by lia.
    assert (H2 : 0 <= 500000000000024 < 1000000000000006) by lia.
    destruct (Hmid 500000000000023 H1) as (c & Hc & Hnc).
    destruct (Hmid 500000000000024 H2) as (c' & Hc' & Hnc').
    clear Hmid H1 H2.
    rewrite Ec in Hc. rewrite Ec' in Hc'.
    injection Hc as <-. injection Hc' as <-.
    exists (0, 254, 0), (0, 255, 0), row, (0, 255, 0), (0, 254, 0).
    split; [exact Ha|]. split; [exact Hb|]. split; [exact Hrow|].
    split; [discriminate|].
    split; [exact Hnc|]. split; [exact Hnc'|]. reflexivity.
Qed.

(** C9: whatever [hue_ascending] is, every interior colour of the row
    appended by [add_gradient] holds the rounded mix of the two hues (the
    first one increased by 255 when [hue_ascending] is false) reduced
    modulo 255, next to the rounded mixes of saturation and value as they
    are.  So with [hue_ascending=True], between two colours within the
    range whose canonical hues are both 255, the mixed hue of every
    interior colour rounds to 255 and is stored as 0; between
    (255, 100, 200) and (255, 50, 60) in a (255, 255, 255) palette the one
    interior colour is (0, 75, 130). *)
Theorem add_gradient_interior_hue_wrapped :
  (forall (self : PixelPalette) (c1 c2 : color) (n : Z) (asc : bool),
     0 <= n ->
     fst (add_gradient c1 c2 n asc self) = Ok tt ->
     exists a b row,
       hsv_adjust_range c1 (hsv_range self) = Ok a /\
       hsv_adjust_range c2 (hsv_range self) = Ok b /\
       snd (add_gradient c1 c2 n asc self)
         = {| rows := rows self ++ [row]; hsv_range := hsv_range self |} /\
       forall i, 0 <= i < n ->
         exists t h s v,
           int_truediv (i + 1) (n + 1) = Ok t /\
           (m <- mix (if asc then hue a else hue a + 255) (hue b) t ;;
            round m) = Ok h /\
           (m <- mix (sat a) (sat b) t ;; round m) = Ok s /\
           (m <- mix (val a) (val b) t ;; round m) = Ok v /\
           nth_error row (Z.to_nat (i + 1)) = Some (h mod 255, s, v) /\
           0 <= h mod 255 < 255 /\
           (h = 255 ->
            nth_error row (Z.to_nat (i + 1)) = Some (0, s, v))) /\
  (forall (self : PixelPalette) (c1 c2 a b : color) (n : Z),
     0 <= n ->
     range_positive (hsv_range self) ->
     in_range c1 (hsv_range self) -> in_range c2 (hsv_range self) ->
     hsv_adjust_range c1 (hsv_range self) = Ok a ->
     hsv_adjust_range c2 (hsv_range self) = Ok b ->
     hue a = 255 -> hue b = 255 ->
     exists row,
       add_gradient c1 c2 n true self
         = (Ok tt, {| rows := rows self ++ [row];
                      hsv_range := hsv_range self |}) /\
       forall i, 0 <= i < n ->
         exists t s v,
           int_truediv (i + 1) (n + 1) = Ok t /\
           (m <- mix (hue a) (hue b) t ;; round m) = Ok 255 /\
           (m <- mix (sat a) (sat b) t ;; round m) = Ok s /\
           (m <- mix (val a) (val b) t ;; round m) = Ok v /\
           nth_error row (Z.to_nat (i + 1)) = Some (0, s, v)) /\
  (exists t m,
     hsv_adjust_range (255, 100, 200) (255, 255, 255) = Ok (255, 100, 200) /\
     hsv_adjust_range (255, 50, 60) (255, 255, 255) = Ok (255, 50, 60) /\
     int_truediv (0 + 1) (1 + 1) = Ok t /\
     mix 255 255 t = Ok m /\ round m = Ok 255 /\
     mix_colors (255, 100, 200) (255, 50, 60) t = Ok (255, 75, 130) /\
     add_gradient (255, 100, 200) (255, 50, 60) 1 true (init (255, 255, 255))
       = (Ok tt,
          {| rows := [[(255, 100, 200); (0, 75, 130); (255, 50, 60)]];
             hsv_range := (255, 255, 255) |})).
Proof.
  split; [|split].
  - intros self c1 c2 n asc Hn Hok.
    destruct (add_gradient_result _ _ _ _ _ Hok) as (row & Hrow & Hsnd).
    destruct (gradient_row_elements _ _ _ _ _ _ Hn Hrow)
      as (a & b & Ha & Hb & _ & _ & _ & _ & Hmid).
    exists a, b, row. repeat (split; [assumption|]).
    intros i Hi. destruct (Hmid i Hi) as (c & Hc & Hnth).
    destruct (gradient_color_inv _ _ _ _ _ Hc) as (t & c0 & Ht & Hc0 & ->).
    destruct (mix_colors_inv _ _ _ _ Hc0) as (Hh & Hs & Hv).
    assert (Eh : hue (shift_hue asc a)
                 = if asc then hue a else hue a + 255)
      by (destruct asc; reflexivity).
    assert (Es : sat (shift_hue asc a) = sat a) by (destruct asc; reflexivity).
    assert (Ev : val (shift_hue asc a) = val a) by (destruct asc; reflexivity).
    rewrite Eh in Hh. rewrite Es in Hs. rewrite Ev in Hv.
    exists t, (hue c0), (sat c0), (val c0).
    repeat (split; [assumption|]).
    split; [apply Z.mod_pos_bound; lia|].
    intros E. rewrite E in Hnth. exact Hnth.
  - intros self c1 c2 a b n Hn Hr H1 H2 Ha Hb Ea Eb.
    destruct (gradient_row_total _ c1 c2 n true Hr H1 H2) as [row Hrow].
    exists row. split; [unfold add_gradient; now rewrite Hrow|].
    destruct (hsv_adjust_range_in_range c1 _ Hr H1) as (a' & Ha' & Ba).
    destruct (hsv_adjust_range_in_range c2 _ Hr H2) as (b' & Hb' & Bb).
    rewrite Ha in Ha'. injection Ha' as <-.
    rewrite Hb in Hb'. injection Hb' as <-.
    destruct (gradient_row_elements _ _ _ _ _ _ Hn Hrow)
      as (a' & b' & Ha' & Hb' & _ & _ & _ & _ & Hmid).
    rewrite Ha in Ha'. injection Ha' as <-.
    rewrite Hb in Hb'. injection Hb' as <-.
    intros i Hi. destruct (Hmid i Hi) as (c & Hc & Hnth).
    destruct (gradient_color_inv _ _ _ _ _ Hc) as (t & c0 & Ht & Hc0 & ->).
    change (shift_hue true a) with a in Hc0.
    destruct (mix_colors_inv _ _ _ _ Hc0) as (Hh & Hs & Hv).
    destruct (mix_colors_near a b n i t c0) as (Hq & Nh & _);
      try assumption; try (now apply channels_within_canonical).
    pose proof (near_mix_between _ _ _ _ Hq Nh) as Hbt.
    assert (E : hue c0 = 255) by lia.
    rewrite E in Hh, Hnth. change (255 mod 255) with 0 in Hnth.
    exists t, (sat c0), (val c0). repeat (split; [assumption|]).
    assumption.
  - exists (S754_finite false 4503599627370496 (-53)),
      (S754_finite false 8972014882652160 (-45)).
    repeat split; vm_compute; reflexivity.
Qed.

Lemma add_gradient_interior_hue_wrapped_witness :
  exists row,
    add_gradient (360, 50, 50) (360, 20, 90) 3 true (init (360, 100, 100))
      = (Ok tt, {| rows := [row]; hsv_range := (360, 100, 100) |}) /\
    exists t s v,
      int_truediv (1 + 1) (3 + 1) = Ok t /\
      nth_error row (Z.to_nat (1 + 1)) = Some (0, s, v).
Proof.
  destruct (proj1 (proj2 add_gradient_interior_hue_wrapped)
              (init (360, 100, 100)) (360, 50, 50) (360, 20, 90)
              (255, 128, 128) (255, 51, 230) 3)
    as (row & Hrow & Hmid);
    [lia|channels|channels|channels|vm_compute; reflexivity
    |vm_compute; reflexivity|reflexivity|reflexivity|].
  exists row. split; [exact Hrow|].
  destruct (Hmid 1 ltac:(lia)) as (t & s & v & Ht & _ & _ & _ & Hnth).
  exists t, s, v. split; assumption.
Defined.

End AddGradient.

(** ** The conversion to the canonical scale *)

Section Canonical.

Lemma hsv_adjust_range_ok (c r : color) :
  range_nonzero r -> channels_within (2 ^ 1000) c ->
  exists a, hsv_adjust_range c r = Ok a.
Proof.
  intros (Rh & Rs & Rv) (Ch & Cs & Cv). unfold hsv_adjust_range.
  destruct (hsv_adjust_channel_ok _ _ Rh Ch) as [h ->].
  destruct (hsv_adjust_channel_ok _ _ Rs Cs) as [s ->].
  destruct (hsv_adjust_channel_ok _ _ Rv Cv) as [v ->].
  cbn [bind]. eauto.
Qed.

(** With a zero channel in the range the conversion divides by zero, as
    soon as the channels before it have been converted. *)
Lemma hsv_adjust_range_zero (c r : color) :
  range_has_zero r -> channels_within (2 ^ 1000) c ->
  hsv_adjust_range c r = Raise ZeroDivisionError.
Proof.
  intros Hz (Ch & Cs & Cv). unfold hsv_adjust_range.
  destruct (Z.eq_dec (hue r) 0) as [->|Rh]; [reflexivity|].
  destruct (hsv_adjust_channel_ok _ _ Rh Ch) as [h ->]. cbn [bind].
  destruct (Z.eq_dec (sat r) 0) as [->|Rs]; [reflexivity|].
  destruct (hsv_adjust_channel_ok _ _ Rs Cs) as [s ->]. cbn [bind].
  destruct (Z.eq_dec (val r) 0) as [->|Rv]; [reflexivity|].
  destruct Hz as [Hz|[Hz|Hz]]; contradiction.
Qed.

(** C4: the conversion is [round(255 * value / range)] channel by channel;
    for a positive range and channels within it the canonical channels lie
    in [0, 255], each within one half (and the rounding error of the float
    division) of [255 * value / range], hence an integer nearest to it when
    the range is below [2^44]; in a (360, 100, 100) palette (48, 19, 99)
    converts to (34, 48, 252), the first element of the row of
    [add_gradient((48,19,99), (16,60,99), 2)]. *)
Theorem hsv_adjust_range_canonical :
  (forall c r : color,
     hsv_adjust_range c r
     = (h <- (q <- int_truediv (255 * hue c) (hue r) ;; round q) ;;
        s <- (q <- int_truediv (255 * sat c) (sat r) ;; round q) ;;
        v <- (q <- int_truediv (255 * val c) (val r) ;; round q) ;;
        Ok (h, s, v))) /\
  (forall c r : color,
     range_positive r -> in_range c r ->
     exists a,
       hsv_adjust_range c r = Ok a /\ canonical_bounds a /\
       near_scaled (hue c) (hue r) (hue a) /\
       near_scaled (sat c) (sat r) (sat a) /\
       near_scaled (val c) (val r) (val a) /\
       (hue r < 2 ^ 44 -> nearest_scaled (hue c) (hue r) (hue a)) /\
       (sat r < 2 ^ 44 -> nearest_scaled (sat c) (sat r) (sat a)) /\
       (val r < 2 ^ 44 -> nearest_scaled (val c) (val r) (val a))) /\
  (hsv_adjust_range (48, 19, 99) (360, 100, 100) = Ok (34, 48, 252) /\
   exists rest,
     snd (add_gradient (48, 19, 99) (16, 60, 99) 2 true
            (init (360, 100, 100)))
       = {| rows := [(34, 48, 252) :: rest]; hsv_range := (360, 100, 100) |} /\
     length rest = 3%nat).
Proof.
  split; [reflexivity|]. split.
  - intros c r (Hh & Hs & Hv) (Ch & Cs & Cv). unfold hsv_adjust_range.
    destruct (hsv_adjust_channel_in_range _ _ Hh Ch) as (h & -> & Bh & Nh).
    destruct (hsv_adjust_channel_in_range _ _ Hs Cs) as (s & -> & Bs & Ns).
    destruct (hsv_adjust_channel_in_range _ _ Hv Cv) as (v & -> & Bv & Nv).
    cbn [bind]. exists (h, s, v). split; [reflexivity|].
    unfold canonical_bounds. change (hue (h, s, v)) with h.
    change (sat (h, s, v)) with s. change (val (h, s, v)) with v.
    split; [lia|].
    do 3 (split; [assumption|]).
    repeat split; intros Hlt; apply near_scaled_nearest;
      (assumption || lia).
  - split; [vm_compute; reflexivity|].
    exists [(26, 83, 252); (19, 118, 252); (11, 153, 252)].
    split; vm_compute; reflexivity.
Qed.

Lemma hsv_adjust_range_canonical_witness :
  exists a,
    hsv_adjust_range (350, 50, 100) (360, 100, 100) = Ok a /\
    canonical_bounds a.
Proof.
  destruct (proj1 (proj2 hsv_adjust_range_canonical) (350, 50, 100)
              (360, 100, 100)) as (a & Ha & Ba & _).
  - channels.
  - channels.
  - exists a. split; assumption.
Defined.

End Canonical.

(** ** [add_shades] *)

Section AddShades.

Lemma add_shades_result (base shift : color) (d u : Z) (self : PixelPalette) :
  fst (add_shades base shift d u self) = Ok tt ->
  exists b s,
    hsv_adjust_range base (hsv_range self) = Ok b /\
    hsv_adjust_range shift (hsv_range self) = Ok s /\
    snd (add_shades base shift d u self)
      = {| rows := rows self ++ [map (shade b s) (range (- d) (u + 1))];
           hsv_range := hsv_range self |}.
Proof.
  unfold add_shades. rewrite shades_row_eq.
  destruct (hsv_adjust_range base (hsv_range self)) as [b|e];
    cbn [bind fst snd]; [|discriminate].
  destruct (hsv_adjust_range shift (hsv_range self)) as [s|e];
    cbn [bind fst snd]; [|discriminate].
  intros _. now exists b, s.
Qed.

Lemma shades_nth_error (b s : color) (d u k : Z) :
  0 <= k < d + u + 1 ->
  nth_error (map (shade b s) (range (- d) (u + 1))) (Z.to_nat k)
    = Some (shade b s (k - d)).
Proof.
  intros Hk. rewrite nth_error_map, range_nth_error by lia.
  cbn [option_map]. do 2 f_equal. lia.
Qed.

(** C3: for [d >= 0] and [u >= 0], [add_shades(base, shift, d, u)]
    succeeds whenever no range channel is zero and no channel overflows the
    conversion, and a successful call appends exactly one row of length
    [d + u + 1] holding, for [i] from [-d] to [u] in increasing order,
    [canonical(base) + canonical(shift) * i] in exact integer arithmetic:
    the element at index [d] is [canonical(base)], consecutive elements
    differ by [canonical(shift)], and nothing is clamped or wrapped (the
    hard-coded call on (138, 32, 77) reaches the value 260). *)
Theorem add_shades_row (self : PixelPalette) (base shift : color) (d u : Z) :
  0 <= d -> 0 <= u ->
  (range_nonzero (hsv_range self) ->
   channels_within (2 ^ 1000) base -> channels_within (2 ^ 1000) shift ->
   fst (add_shades base shift d u self) = Ok tt) /\
  (fst (add_shades base shift d u self) = Ok tt ->
   exists b s row,
     hsv_adjust_range base (hsv_range self) = Ok b /\
     hsv_adjust_range shift (hsv_range self) = Ok s /\
     snd (add_shades base shift d u self)
       = {| rows := rows self ++ [row]; hsv_range := hsv_range self |} /\
     length row = Z.to_nat (d + u + 1) /\
     (forall k, 0 <= k <= d + u ->
        nth_error row (Z.to_nat k)
          = Some (hue b + hue s * (k - d),
                  sat b + sat s * (k - d),
                  val b + val s * (k - d))) /\
     nth_error row (Z.to_nat d) = Some b /\
     (forall k, 0 <= k < d + u ->
        exists c c',
          nth_error row (Z.to_nat k) = Some c /\
          nth_error row (Z.to_nat (k + 1)) = Some c' /\
          hue c' - hue c = hue s /\
          sat c' - sat c = sat s /\
          val c' - val c = val s)) /\
  shades_row (360, 100, 100) (138, 32, 77) (-10, -10, 25) 2 1
    = Ok [(112, 134, 68); (105, 108, 132); (98, 82, 196); (91, 56, 260)].
Proof.
  intros Hd Hu. split; [|split].
  - intros Hr Hb Hs. unfold add_shades. rewrite shades_row_eq.
    destruct (hsv_adjust_range_ok base _ Hr Hb) as [b ->].
    destruct (hsv_adjust_range_ok shift _ Hr Hs) as [s ->].
    reflexivity.
  - intros Hok. destruct (add_shades_result _ _ _ _ _ Hok) as (b & s & Hb & Hs & Hsnd).
    exists b, s, (map (shade b s) (range (- d) (u + 1))).
    repeat (split; [assumption|]).
    split; [rewrite length_map, range_length; f_equal; lia|].
    split; [intros k Hk; apply shades_nth_error; lia|].
    split.
    + rewrite shades_nth_error by lia. f_equal.
      unfold shade. rewrite Z.sub_diag, !Z.mul_0_r, !Z.add_0_r.
      destruct b as [[h sa] v]. reflexivity.
    + intros k Hk. exists (shade b s (k - d)), (shade b s (k + 1 - d)).
      rewrite !shades_nth_error by lia.
      unfold shade, hue, sat, val. cbn [fst snd].
      repeat split; ring.
  - vm_compute. reflexivity.
Qed.

Lemma add_shades_row_witness :
  0 <= 2 /\ 0 <= 1 /\
  fst (add_shades (138, 32, 77) (-10, -10, 25) 2 1 (init (360, 100, 100)))
    = Ok tt.
Proof.
  split; [lia|]. split; [lia|].
  apply (add_shades_row (init (360, 100, 100)) (138, 32, 77) (-10, -10, 25)
           2 1); [lia|lia| | |].
  - channels.
  - unfold channels_within, hue, sat, val. cbn [fst snd Z.abs].
    assert (2 ^ 10 <= 2 ^ 1000) by (apply Z.pow_le_mono_r; lia).
    change (2 ^ 10) with 1024 in *. lia.
  - unfold channels_within, hue, sat, val. cbn [fst snd Z.abs].
    assert (2 ^ 10 <= 2 ^ 1000) by (apply Z.pow_le_mono_r; lia).
    change (2 ^ 10) with 1024 in *. lia.
Defined.

End AddShades.

(** ** [save_as_image] *)

Section SaveAsImage.

Lemma image_width_max (rows : list (list color)) :
  image_width rows = Z.of_nat (list_max (map (@length color) rows)).
Proof.
  unfold image_width.
  assert (H : forall acc, 0 <= acc ->
             fold_left (fun width row => Z.max width (Z.of_nat (length row)))
               rows acc
             = Z.max acc (Z.of_nat (list_max (map (@length color) rows)))).
  { induction rows as [|row rows IH]; intros acc Hacc; cbn [fold_left map].
    - cbn. lia.
    - rewrite IH by lia. unfold list_max. cbn [fold_right].
      fold (list_max (map (@length color) rows)). lia. }
  rewrite H by lia. lia.
Qed.

Lemma fold_left_append_map {A B : Type} (g : A -> B) (l : list A) :
  forall acc : list B,
    fold_left (fun acc x => acc ++ [g x]) l acc = acc ++ map g l.
Proof.
  induction l as [|x l IH]; intros acc; cbn [fold_left map].
  - now rewrite app_nil_r.
  - now rewrite IH, <- app_assoc.
Qed.

Lemma image_pixels_concat (rows : list (list color)) (width : Z) :
  image_pixels rows width
  = concat (map (fun row => map (pixel_at row) (range 0 width)) rows).
Proof.
  unfold image_pixels.
  assert (H : forall acc,
             fold_left
               (fun pixels row =>
                  fold_left (fun pixels i => pixels ++ [pixel_at row i])
                    (range 0 width) pixels) rows acc
             = acc ++ concat (map (fun row => map (pixel_at row)
                                                (range 0 width)) rows)).
  { induction rows as [|row rows IH]; intros acc; cbn [fold_left map concat].
    - now rewrite app_nil_r.
    - now rewrite IH, fold_left_append_map, <- app_assoc. }
  now rewrite H.
Qed.

Lemma nth_error_concat_uniform {A : Type} (W : nat) (ls : list (list A)) :
  Forall (fun l => length l = W) ls ->
  length (concat ls) = (length ls * W)%nat /\
  forall (y x : nat) (l : list A),
    nth_error ls y = Some l -> (x < W)%nat ->
    nth_error (concat ls) (y * W + x) = nth_error l x.
Proof.
  induction 1 as [|l0 ls Hl0 Hls [IHlen IHnth]]; cbn [concat length].
  - split; [reflexivity|]. intros [|y] x l; discriminate.
  - split; [rewrite length_app, IHlen, Hl0; lia|].
    intros [|y] x l; cbn [nth_error].
    + intros [= ->] Hx. apply nth_error_app1. lia.
    + intros Hy Hx. rewrite nth_error_app2 by lia.
      replace (S y * W + x - length l0)%nat with (y * W + x)%nat by lia.
      now apply IHnth.
Qed.

Lemma pixel_at_nth (row : list color) (x : nat) :
  pixel_at row (Z.of_nat x)
  = if (x <? length row)%nat then nth x row (0, 0, 0) else (0, 0, 0).
Proof.
  unfold pixel_at. rewrite Nat2Z.id.
  destruct (Z.ltb_spec (Z.of_nat x) (Z.of_nat (length row)));
    destruct (Nat.ltb_spec x (length row)); try reflexivity; lia.
Qed.

(** C5: [save_as_image] hands the image library a grid whose width is the
    largest row length (0 without rows) and whose height is the number of
    rows, flattened row by row in append order: the cell at column [x] of
    row [y] is element [x] of that row when the row is long enough, and
    canonical black otherwise; rows of lengths 2, 5 and 3 give a grid of
    width 5 and height 3. *)
Theorem save_as_image_grid (pil_outcome : Type)
  (pil : pil_image -> pil_outcome) (filename : string)
  (self : PixelPalette) :
  exists img,
    save_as_image pil filename self = (pil img, self) /\
    im_mode img = HSV /\ im_convert img = RGB /\
    im_filename img = filename /\
    let w := list_max (map (@length color) (rows self)) in
    let h := length (rows self) in
    im_size img = (Z.of_nat w, Z.of_nat h) /\
    length (im_data img) = (h * w)%nat /\
    (forall (y x : nat) (row : list color),
       nth_error (rows self) y = Some row -> (x < w)%nat ->
       nth_error (im_data img) (y * w + x)
         = Some (if (x <? length row)%nat then nth x row (0, 0, 0)
                 else (0, 0, 0))) /\
    (rows self = [] -> im_size img = (0, 0) /\ im_data img = []) /\
    (map (@length color) (rows self) = [2; 5; 3]%nat ->
     im_size img = (5, 3) /\ length (im_data img) = 15%nat).
Proof.
  unfold save_as_image. eexists. split; [reflexivity|].
  cbn [im_mode im_convert im_filename im_size im_data].
  repeat (split; [reflexivity|]).
  rewrite image_width_max, image_pixels_concat.
  set (w := list_max (map (@length color) (rows self))).
  set (ls := map (fun row => map (pixel_at row) (range 0 (Z.of_nat w)))
               (rows self)).
  assert (Huni : Forall (fun l => length l = w) ls).
  { unfold ls. apply Forall_forall. intros l Hl.
    apply in_map_iff in Hl. destruct Hl as (row & <- & _).
    rewrite length_map, range_length. lia. }
  destruct (nth_error_concat_uniform w ls Huni) as [Hlen Hnth].
  assert (Hlen' : length (concat ls) = (length (rows self) * w)%nat).
  { rewrite Hlen. unfold ls. now rewrite length_map. }
  cbn zeta. split; [reflexivity|]. split; [assumption|]. split; [|split].
  - intros y x row Hy Hx.
    rewrite (Hnth y x (map (pixel_at row) (range 0 (Z.of_nat w)))).
    + rewrite nth_error_map, range_nth_error by lia.
      cbn [option_map]. f_equal. rewrite Z.add_0_l. apply pixel_at_nth.
    + unfold ls. rewrite nth_error_map, Hy. reflexivity.
    + assumption.
  - intros E. unfold ls, w. rewrite E. split; reflexivity.
  - intros E. rewrite Hlen'. unfold w. rewrite E.
    assert (El : length (rows self) = 3%nat).
    { rewrite <- (length_map (@length color)), E. reflexivity. }
    rewrite El. split; reflexivity.
Qed.

Lemma save_as_image_grid_witness :
  let self :=
    {| rows := [[(1, 1, 1); (2, 2, 2)];
                [(3, 3, 3); (4, 4, 4); (5, 5, 5); (6, 6, 6); (7, 7, 7)];
                [(8, 8, 8); (9, 9, 9); (10, 10, 10)]];
       hsv_range := (255, 255, 255) |} in
  exists img,
    save_as_image (fun img => img) EmptyString self = (img, self) /\
    im_size img = (5, 3) /\
    nth_error (im_data img) (0 * 5 + 2) = Some (0, 0, 0) /\
    nth_error (im_data img) (2 * 5 + 2) = Some (10, 10, 10).
Proof.
  intros self.
  destruct (save_as_image_grid pil_image (fun img => img) EmptyString
              self)
    as (img & Hcall & _ & _ & _ & _ & _ & Hcell & _ & Hex).
  exists img. split; [exact Hcall|].
  split; [apply Hex; reflexivity|].
  split.
  - apply (Hcell 0%nat 2%nat [(1, 1, 1); (2, 2, 2)]); [reflexivity|cbn; lia].
  - apply (Hcell 2%nat 2%nat [(8, 8, 8); (9, 9, 9); (10, 10, 10)]);
      [reflexivity|cbn; lia].
Defined.

End SaveAsImage.

(** ** Export leaves the palette alone *)

Section ExportTwice.

Variable pil_outcome : Type.

(** The image library, whatever it does with what it is handed. *)
Variable pil : pil_image -> pil_outcome.

(** C8: [save_as_image] leaves the palette (rows and range) as it was, so
    a second call with no append in between computes the same pixel
    sequence and hands the image library the same data: the library, a
    function of what it is handed, has the same outcome (the same file)
    both times. *)
Theorem save_as_image_idempotent (filename : string)
  (self : PixelPalette) :
  let first := save_as_image pil filename self in
  let second := save_as_image pil filename (snd first) in
  snd first = self /\
  rows (snd second) = rows self /\
  hsv_range (snd second) = hsv_range self /\
  fst second = fst first /\
  exists img,
    fst first = pil img /\ fst second = pil img /\
    im_data img = image_pixels (rows self) (image_width (rows self)).
Proof.
  intros first second.
  assert (E1 : snd first = self) by reflexivity.
  assert (E2 : second = first) by (unfold second; now rewrite E1).
  rewrite E2. repeat (split; [reflexivity|]).
  unfold first, save_as_image. cbn [fst]. eexists.
  repeat split; reflexivity.
Qed.

End ExportTwice.

(** ** Arguments that are not validated *)

Section Validation.

Lemma add_gradient_raise (c1 c2 : color) (n : Z) (asc : bool)
  (self : PixelPalette) (e : exn) :
  fst (add_gradient c1 c2 n asc self) = Raise e ->
  snd (add_gradient c1 c2 n asc self) = self.
Proof.
  unfold add_gradient.
  destruct (gradient_row (hsv_range self) c1 c2 n asc); cbn [fst snd];
    [discriminate|reflexivity].
Qed.

Lemma add_shades_raise (base shift : color) (d u : Z)
  (self : PixelPalette) (e : exn) :
  fst (add_shades base shift d u self) = Raise e ->
  snd (add_shades base shift d u self) = self.
Proof.
  unfold add_shades.
  destruct (shades_row (hsv_range self) base shift d u); cbn [fst snd];
    [discriminate|reflexivity].
Qed.

(** C7 (amended): no argument is validated and no call raises an
    [InvalidArgumentError]: with a negative [steps], [add_gradient] appends
    the two converted endpoints alone; with whatever counts, negative ones
    included, [add_shades] appends the row of the integers of
    [range(-number_down, number_up + 1)], which is empty when
    [number_up + 1 <= -number_down]; and a call of either method that
    raises (a division by zero or an overflow of the arithmetic) leaves the
    palette unchanged. *)
Theorem add_calls_unvalidated (self : PixelPalette) :
  (forall (c1 c2 : color) (n : Z) (asc : bool) (a b : color),
     n < 0 ->
     hsv_adjust_range c1 (hsv_range self) = Ok a ->
     hsv_adjust_range c2 (hsv_range self) = Ok b ->
     add_gradient c1 c2 n asc self
       = (Ok tt, {| rows := rows self ++ [[a; b]];
                    hsv_range := hsv_range self |})) /\
  (forall (base shift : color) (d u : Z) (b s : color),
     hsv_adjust_range base (hsv_range self) = Ok b ->
     hsv_adjust_range shift (hsv_range self) = Ok s ->
     add_shades base shift d u self
       = (Ok tt, {| rows := rows self
                            ++ [map (shade b s) (range (- d) (u + 1))];
                    hsv_range := hsv_range self |}) /\
     (u + 1 <= - d -> map (shade b s) (range (- d) (u + 1)) = [])) /\
  (forall (c1 c2 : color) (n : Z) (asc : bool) (e : exn),
     fst (add_gradient c1 c2 n asc self) = Raise e ->
     snd (add_gradient c1 c2 n asc self) = self) /\
  (forall (base shift : color) (d u : Z) (e : exn),
     fst (add_shades base shift d u self) = Raise e ->
     snd (add_shades base shift d u self) = self).
Proof.
  split; [|split; [|split]].
  - intros c1 c2 n asc a b Hn Ha Hb. unfold add_gradient.
    rewrite gradient_row_eq, Ha, Hb. cbn [bind].
    rewrite range_empty by lia. reflexivity.
  - intros base shift d u b s Hb Hs. split.
    + unfold add_shades. rewrite shades_row_eq, Hb, Hs. reflexivity.
    + intros Hle. rewrite range_empty by lia. reflexivity.
  - intros c1 c2 n asc e. apply add_gradient_raise.
  - intros base shift d u e. apply add_shades_raise.
Qed.

Lemma add_calls_unvalidated_witness :
  add_gradient (0, 0, 0) (100, 100, 100) (-3) true (init default_range)
    = (Ok tt, {| rows := [[(0, 0, 0); (255, 255, 255)]];
                 hsv_range := default_range |}) /\
  snd (add_gradient (1, 1, 1) (2, 2, 2) 3 true (init (0, 100, 100)))
    = init (0, 100, 100).
Proof.
  split.
  - apply (proj1 (add_calls_unvalidated (init default_range))
             (0, 0, 0) (100, 100, 100) (-3) true (0, 0, 0) (255, 255, 255));
      [lia|vm_compute; reflexivity|vm_compute; reflexivity].
  - apply (proj1 (proj2 (proj2 (add_calls_unvalidated (init (0, 100, 100)))))
             (1, 1, 1) (2, 2, 2) 3 true ZeroDivisionError).
    vm_compute. reflexivity.
Defined.

(** C7, as stated, fails: a negative [steps] and negative shade counts
    raise nothing.  [add_gradient] with [steps = -1] appends the row of the
    two endpoints, and [add_shades] with [number_up = -1] appends an empty
    row. *)
Lemma add_calls_negative_counterexample :
  add_gradient (0, 0, 0) (100, 100, 100) (-1) true (init default_range)
    = (Ok tt, {| rows := [[(0, 0, 0); (255, 255, 255)]];
                 hsv_range := default_range |}) /\
  add_shades (50, 50, 50) (10, 10, 10) 0 (-1) (init default_range)
    = (Ok tt, {| rows := [[]]; hsv_range := default_range |}) /\
  add_shades (50, 50, 50) (10, 10, 10) (-1) 2 (init default_range)
    = (Ok tt, {| rows := [[(154, 154, 154); (180, 180, 180)]];
                 hsv_range := default_range |}).
Proof. repeat split; vm_compute; reflexivity. Qed.

(** C10: construction validates nothing: [PixelPalette(hsv_range)] stores
    any range, zero and negative channels included, with no rows; a range
    with a zero channel makes the first [add_gradient] or [add_shades] call
    (and every later one) fail with the [ZeroDivisionError] of the
    conversion, the palette staying as constructed. *)
Theorem zero_range_fails_at_first_add (r : color) :
  rows (init r) = [] /\ hsv_range (init r) = r /\
  (range_has_zero r ->
   (forall (c1 c2 : color) (n : Z) (asc : bool),
      channels_within (2 ^ 1000) c1 ->
      add_gradient c1 c2 n asc (init r)
        = (Raise ZeroDivisionError, init r)) /\
   (forall (base shift : color) (d u : Z),
      channels_within (2 ^ 1000) base ->
      add_shades base shift d u (init r)
        = (Raise ZeroDivisionError, init r))).
Proof.
  split; [reflexivity|]. split; [reflexivity|].
  intros Hz. split.
  - intros c1 c2 n asc Hc. unfold add_gradient. rewrite gradient_row_eq.
    cbn [hsv_range init]. now rewrite (hsv_adjust_range_zero c1 r Hz Hc).
  - intros base shift d u Hc. unfold add_shades. rewrite shades_row_eq.
    cbn [hsv_range init]. now rewrite (hsv_adjust_range_zero base r Hz Hc).
Qed.

Lemma zero_range_fails_at_first_add_witness :
  hsv_range (init (360, 0, -100)) = (360, 0, -100) /\
  add_gradient (48, 19, 99) (16, 60, 99) 2 true (init (360, 0, -100))
    = (Raise ZeroDivisionError, init (360, 0, -100)).
Proof.
  destruct (zero_range_fails_at_first_add (360, 0, -100))
    as (_ & Hr & Hfail).
  split; [exact Hr|].
  apply Hfail.
  - channels.
  - unfold channels_within, hue, sat, val. cbn [fst snd Z.abs].
    assert (2 ^ 10 <= 2 ^ 1000) by (apply Z.pow_le_mono_r; lia).
    change (2 ^ 10) with 1024 in *. lia.
Defined.

End Validation.

(** * Further properties *)

(** ** Calls that append a row *)

Section Appends.

Lemma add_gradient_appends (c1 c2 : color) (n : Z) (asc : bool)
  (self : PixelPalette) (row : list color) :
  gradient_row (hsv_range self) c1 c2 n asc = Ok row ->
  appends (add_gradient c1 c2 n asc) self row.
Proof. intros H. unfold appends, add_gradient. now rewrite H. Qed.

Lemma add_shades_appends (base shift : color) (d u : Z)
  (self : PixelPalette) (row : list color) :
  shades_row (hsv_range self) base shift d u = Ok row ->
  appends (add_shades base shift d u) self row.
Proof. intros H. unfold appends, add_shades. now rewrite H. Qed.

End Appends.

(** ** More on the conversion to the canonical scale *)

Section ConversionSign.

Lemma binary_round_aux_opp (s : bool) (m e : Z) (l : location) :
  binary_round_aux prec emax (negb s) m e l
  = SFopp (binary_round_aux prec emax s m e l).
Proof.
  unfold binary_round_aux.
  destruct (shr_fexp prec emax m e l) as [mrs e'].
  destruct (shr_fexp prec emax _ e' loc_Exact) as [mrs' e''].
  destruct (shr_m mrs') as [|p|p]; try reflexivity.
  destruct (e'' <=? emax - prec); reflexivity.
Qed.

Lemma round_opp (f : float) :
  round (SFopp f) = (z <- round f ;; Ok (- z)).
Proof.
  destruct f as [s|s| |s m e]; try reflexivity.
  cbn [SFopp round bind]. f_equal. destruct s; cbn [negb cond_Zopp]; lia.
Qed.

(** The quotient of two integers, rounded to an integer: what one channel
    of the conversion computes from [255 * c] and the range. *)
Lemma rounded_quotient_opp_l (a b : Z) :
  (q <- int_truediv (- a) b ;; round q)
  = (z <- (q <- int_truediv a b ;; round q) ;; Ok (- z)).
Proof.
  unfold int_truediv. destruct (b =? 0); [reflexivity|].
  destruct a as [|p|p], b as [|q|q]; try reflexivity;
    cbn [Z.opp Z2SF SFdiv xorb];
    destruct (SFdiv_core_binary prec emax (Z.pos p) 0 (Z.pos q) 0)
      as [[mz ez] lz].
  - change true with (negb false). rewrite binary_round_aux_opp.
    destruct (binary_round_aux prec emax false mz ez lz) as [s|s| |s m e];
      try reflexivity.
    cbn [SFopp bind]. apply (round_opp (S754_finite s m e)).
  - change false with (negb true) at 1. rewrite binary_round_aux_opp.
    destruct (binary_round_aux prec emax true mz ez lz) as [s|s| |s m e];
      try reflexivity.
    cbn [SFopp bind]. apply (round_opp (S754_finite s m e)).
  - change false with (negb true) at 1. rewrite binary_round_aux_opp.
    destruct (binary_round_aux prec emax true mz ez lz) as [s|s| |s m e];
      try reflexivity.
    cbn [SFopp bind]. apply (round_opp (S754_finite s m e)).
  - change true with (negb false). rewrite binary_round_aux_opp.
    destruct (binary_round_aux prec emax false mz ez lz) as [s|s| |s m e];
      try reflexivity.
    cbn [SFopp bind]. apply (round_opp (S754_finite s m e)).
Qed.

Lemma rounded_quotient_opp_r (a b : Z) :
  (q <- int_truediv a (- b) ;; round q)
  = (q <- int_truediv (- a) b ;; round q).
Proof.
  unfold int_truediv.
  destruct b as [|q|q]; [reflexivity| |];
    destruct a as [|p|p]; reflexivity.
Qed.

Lemma hsv_adjust_channel_opp (c r : Z) :
  hsv_adjust_channel (- c) r = (z <- hsv_adjust_channel c r ;; Ok (- z)).
Proof.
  unfold hsv_adjust_channel.
  replace (255 * - c) with (- (255 * c)) by ring.
  apply rounded_quotient_opp_l.
Qed.

Lemma hsv_adjust_channel_opp_range (c r : Z) :
  hsv_adjust_channel c (- r) = (z <- hsv_adjust_channel c r ;; Ok (- z)).
Proof.
  unfold hsv_adjust_channel.
  rewrite rounded_quotient_opp_r. apply rounded_quotient_opp_l.
Qed.

Lemma hsv_adjust_range_opp_color (c r : color) :
  hsv_adjust_range (opp_color c) r
  = (a <- hsv_adjust_range c r ;; Ok (opp_color a)).
Proof.
  unfold hsv_adjust_range.
  change (hue (opp_color c)) with (- hue c).
  change (sat (opp_color c)) with (- sat c).
  change (val (opp_color c)) with (- val c).
  rewrite !hsv_adjust_channel_opp.
  destruct (hsv_adjust_channel (hue c) (hue r)); [|reflexivity].
  destruct (hsv_adjust_channel (sat c) (sat r)); [|reflexivity].
  destruct (hsv_adjust_channel (val c) (val r)); reflexivity.
Qed.

(** The conversion is odd in the colour and in the range: negating every
    channel of the colour, or of the range, negates every channel of the
    result, and a conversion that raises still raises the same exception. *)
Theorem hsv_adjust_range_odd (c r : color) :
  hsv_adjust_range (opp_color c) r
    = (a <- hsv_adjust_range c r ;; Ok (opp_color a)) /\
  hsv_adjust_range c (opp_color r)
    = (a <- hsv_adjust_range c r ;; Ok (opp_color a)).
Proof.
  split; [apply hsv_adjust_range_opp_color|].
  unfold hsv_adjust_range.
  change (hue (opp_color r)) with (- hue r).
  change (sat (opp_color r)) with (- sat r).
  change (val (opp_color r)) with (- val r).
  rewrite !hsv_adjust_channel_opp_range.
  destruct (hsv_adjust_channel (hue c) (hue r)); [|reflexivity].
  destruct (hsv_adjust_channel (sat c) (sat r)); [|reflexivity].
  destruct (hsv_adjust_channel (val c) (val r)); reflexivity.
Qed.

End ConversionSign.

Section ConversionErrors.

(** A quotient the true division returns is a finite float, never a NaN. *)
Lemma int_truediv_finite (a b : Z) (f : float) :
  int_truediv a b = Ok f -> is_finite f = true.
Proof.
  unfold int_truediv. destruct (b =? 0) eqn:Eb; [discriminate|].
  apply Z.eqb_neq in Eb.
  assert (H : forall sx sy p q,
             match SFdiv prec emax (S754_finite sx p 0) (S754_finite sy q 0) with
             | S754_infinity _ => Raise OverflowError
             | f0 => Ok f0
             end = Ok f -> is_finite f = true).
  { intros sx sy p q. cbn [SFdiv].
    destruct (SFdiv_core_binary_spec p q 0 0)
      as (mz & ez & lz & -> & Hmz & _).
    destruct (binary_round_aux_spec (xorb sx sy) mz ez lz Hmz)
      as (m2 & _ & _ & [[_ ->]|(m3 & e3 & _ & _ & ->)]).
    - intros [= <-]. reflexivity.
    - destruct (e3 <=? emax - prec); [|discriminate].
      intros [= <-]. reflexivity. }
  destruct a as [|p|p], b as [|q|q]; try contradiction; cbn [Z2SF];
    try apply H; cbn [SFdiv]; intros [= <-]; reflexivity.
Qed.

Lemma hsv_adjust_channel_raises (c r : Z) (e : exn) :
  hsv_adjust_channel c r = Raise e ->
  (e = ZeroDivisionError /\ r = 0) \/ (e = OverflowError /\ r <> 0).
Proof.
  unfold hsv_adjust_channel.
  destruct (int_truediv (255 * c) r) as [f|e'] eqn:E; cbn [bind].
  - apply int_truediv_finite in E.
    destruct f; try discriminate E; discriminate.
  - intros [= ->]. unfold int_truediv in E.
    destruct (Z.eqb_spec r 0) as [->|Hr].
    + left. split; [congruence|reflexivity].
    + right. split; [|assumption].
      destruct (SFdiv prec emax (Z2SF (255 * c)) (Z2SF r)); congruence.
Qed.

(** The conversion raises nothing but a [ZeroDivisionError], which needs a
    zero channel in the range, and an [OverflowError]; with a zero channel
    in the range it never returns. *)
Theorem hsv_adjust_range_errors (c r : color) :
  (forall e, hsv_adjust_range c r = Raise e ->
     (e = ZeroDivisionError /\ range_has_zero r) \/ e = OverflowError) /\
  (range_has_zero r -> exists e, hsv_adjust_range c r = Raise e) /\
  hsv_adjust_range (2 ^ 1024, 0, 0) (1, 0, 1) = Raise OverflowError.
Proof.
  split; [|split].
  - intros e. unfold hsv_adjust_range, range_has_zero.
    destruct (hsv_adjust_channel (hue c) (hue r)) as [h|e1] eqn:E1;
      cbn [bind].
    2:{ intros [= ->]. apply hsv_adjust_channel_raises in E1.
        destruct E1 as [[-> ->]|[-> _]]; auto. }
    destruct (hsv_adjust_channel (sat c) (sat r)) as [s|e2] eqn:E2;
      cbn [bind].
    2:{ intros [= ->]. apply hsv_adjust_channel_raises in E2.
        destruct E2 as [[-> ->]|[-> _]]; auto. }
    destruct (hsv_adjust_channel (val c) (val r)) as [v|e3] eqn:E3;
      cbn [bind]; [discriminate|].
    intros [= ->]. apply hsv_adjust_channel_raises in E3.
    destruct E3 as [[-> ->]|[-> _]]; auto.
  - intros Hz. unfold hsv_adjust_range.
    assert (Hzero : forall x, hsv_adjust_channel x 0 = Raise ZeroDivisionError)
      by reflexivity.
    destruct (hsv_adjust_channel (hue c) (hue r)) as [h|e1] eqn:E1;
      cbn [bind]; [|eauto].
    destruct (hsv_adjust_channel (sat c) (sat r)) as [s|e2] eqn:E2;
      cbn [bind]; [|eauto].
    destruct (hsv_adjust_channel (val c) (val r)) as [v|e3] eqn:E3;
      cbn [bind]; [|eauto].
    destruct Hz as [Hz|[Hz|Hz]]; rewrite Hz, Hzero in *; discriminate.
  - vm_compute. reflexivity.
Qed.

End ConversionErrors.

Section ConversionValues.
Local Open Scope R_scope.

Lemma hsv_adjust_channel_exact (c r m : Z) :
  (0 < r)%Z -> (0 <= c <= r)%Z -> (255 * c = m * r)%Z ->
  hsv_adjust_channel c r = Ok m.
Proof.
  intros Hr Hc Hm.
  destruct (hsv_adjust_channel_in_range c r Hr Hc) as (z & -> & _ & Hz).
  f_equal. unfold near_scaled in Hz.
  assert (HrR : 0 < IZR r) by (apply IZR_lt; lia).
  assert (E : 255 * IZR c / IZR r = IZR m).
  { change 255 with (IZR 255). rewrite <- mult_IZR, Hm, mult_IZR.
    field. lra. }
  rewrite E in Hz.
  pose proof bpow_m53 as Hu. pose proof (bpow_gt_0 (-53)) as Hu0.
  assert (E' : bpow (-45) = 256 * bpow (-53)).
  { rewrite (bpow_unit (-45)) by lia. reflexivity. }
  rewrite E' in Hz.
  assert (H1 : IZR (m - 1) < IZR z) by (rewrite minus_IZR; lra).
  assert (H2 : IZR z < IZR (m + 1)) by (rewrite plus_IZR; lra).
  apply lt_IZR in H1, H2. lia.
Qed.

Lemma hsv_adjust_channel_monotone (c c' r z z' : Z) :
  (0 < r < 2 ^ 44)%Z -> (0 <= c <= c')%Z -> (c' <= r)%Z ->
  hsv_adjust_channel c r = Ok z -> hsv_adjust_channel c' r = Ok z' ->
  (z <= z')%Z.
Proof.
  intros Hr Hc Hc' Hz Hz'.
  destruct (Z.eq_dec c c') as [<-|Hne].
  { rewrite Hz in Hz'. injection Hz' as <-. lia. }
  destruct (hsv_adjust_channel_in_range c r) as (y & Hy & _ & Ny); try lia.
  destruct (hsv_adjust_channel_in_range c' r) as (y' & Hy' & _ & Ny');
    try lia.
  rewrite Hz in Hy. rewrite Hz' in Hy'.
  injection Hy as <-. injection Hy' as <-.
  apply near_scaled_nearest in Ny, Ny'; try assumption.
  unfold nearest_scaled in *.
  assert (H : (2 * r * (z - z') < 2 * r * 1)%Z) by lia.
  apply Z.mul_lt_mono_pos_l in H; lia.
Qed.

End ConversionValues.

Section ConversionExact.

(** Where the range divides 255 times the colour, channel by channel, the
    conversion is exact: rounding changes nothing. *)
Theorem hsv_adjust_range_exact (c r : color) :
  range_positive r -> in_range c r ->
  (hue r | 255 * hue c) -> (sat r | 255 * sat c) -> (val r | 255 * val c) ->
  hsv_adjust_range c r
  = Ok (255 * hue c / hue r, 255 * sat c / sat r, 255 * val c / val r).
Proof.
  intros (Rh & Rs & Rv) (Ch & Cs & Cv) [mh Hh] [ms Hs] [mv Hv].
  unfold hsv_adjust_range.
  rewrite (hsv_adjust_channel_exact _ _ mh Rh Ch Hh).
  rewrite (hsv_adjust_channel_exact _ _ ms Rs Cs Hs).
  rewrite (hsv_adjust_channel_exact _ _ mv Rv Cv Hv).
  cbn [bind]. rewrite Hh, Hs, Hv, !Z.div_mul by lia. reflexivity.
Qed.

Lemma hsv_adjust_range_exact_witness :
  hsv_adjust_range (240, 20, 100) (360, 100, 100) = Ok (170, 51, 255).
Proof.
  apply (hsv_adjust_range_exact (240, 20, 100) (360, 100, 100));
    try channels.
  - exists 170. reflexivity.
  - exists 51. reflexivity.
  - exists 255. reflexivity.
Defined.

(** Whatever the positive range, black converts to black and the top of
    the range to (255, 255, 255); with the range (255, 255, 255) a
    canonical colour converts to itself. *)
Theorem hsv_adjust_range_fixed_points :
  (forall r : color,
     range_positive r ->
     hsv_adjust_range (0, 0, 0) r = Ok (0, 0, 0) /\
     hsv_adjust_range r r = Ok (255, 255, 255)) /\
  (forall c : color,
     canonical_bounds c -> hsv_adjust_range c (255, 255, 255) = Ok c).
Proof.
  split.
  - intros r (Rh & Rs & Rv). unfold hsv_adjust_range. split.
    + change (hue (0, 0, 0)) with 0. change (sat (0, 0, 0)) with 0.
      change (val (0, 0, 0)) with 0.
      rewrite !(hsv_adjust_channel_exact 0 _ 0) by lia. reflexivity.
    + rewrite !(hsv_adjust_channel_exact _ _ 255) by lia. reflexivity.
  - intros [[h s] v] (Ch & Cs & Cv). unfold hsv_adjust_range.
    unfold hue, sat, val in *. cbn [fst snd] in *.
    rewrite (hsv_adjust_channel_exact h 255 h) by lia.
    rewrite (hsv_adjust_channel_exact s 255 s) by lia.
    rewrite (hsv_adjust_channel_exact v 255 v) by lia.
    reflexivity.
Qed.

Lemma hsv_adjust_range_fixed_points_witness :
  hsv_adjust_range (360, 100, 100) (360, 100, 100) = Ok (255, 255, 255) /\
  hsv_adjust_range (34, 48, 252) (255, 255, 255) = Ok (34, 48, 252).
Proof.
  split.
  - apply (proj1 hsv_adjust_range_fixed_points (360, 100, 100)). channels.
  - apply (proj2 hsv_adjust_range_fixed_points (34, 48, 252)). channels.
Defined.

(** For a positive range below [2^44], the conversion is monotone: a
    colour within the range that is larger on a channel has a canonical
    colour at least as large on that channel. *)
Theorem hsv_adjust_range_monotone (c c' r : color) :
  range_positive r -> channels_within (2 ^ 44 - 1) r ->
  in_range c r -> in_range c' r ->
  exists a a',
    hsv_adjust_range c r = Ok a /\ hsv_adjust_range c' r = Ok a' /\
    (hue c <= hue c' -> hue a <= hue a') /\
    (sat c <= sat c' -> sat a <= sat a') /\
    (val c <= val c' -> val a <= val a').
Proof.
  intros (Rh & Rs & Rv) (Wh & Ws & Wv) (Ch & Cs & Cv) (Ch' & Cs' & Cv').
  unfold hsv_adjust_range.
  destruct (hsv_adjust_channel_in_range _ _ Rh Ch) as (h & Hh & _).
  destruct (hsv_adjust_channel_in_range _ _ Rs Cs) as (s & Hs & _).
  destruct (hsv_adjust_channel_in_range _ _ Rv Cv) as (v & Hv & _).
  destruct (hsv_adjust_channel_in_range _ _ Rh Ch') as (h' & Hh' & _).
  destruct (hsv_adjust_channel_in_range _ _ Rs Cs') as (s' & Hs' & _).
  destruct (hsv_adjust_channel_in_range _ _ Rv Cv') as (v' & Hv' & _).
  rewrite Hh, Hs, Hv, Hh', Hs', Hv'. cbn [bind].
  exists (h, s, v), (h', s', v').
  split; [reflexivity|]. split; [reflexivity|].
  change (hue (h, s, v)) with h. change (hue (h', s', v')) with h'.
  change (sat (h, s, v)) with s. change (sat (h', s', v')) with s'.
  change (val (h, s, v)) with v. change (val (h', s', v')) with v'.
  split; [|split]; intros Hle.
  - apply (hsv_adjust_channel_monotone (hue c) (hue c') (hue r));
      (assumption || lia).
  - apply (hsv_adjust_channel_monotone (sat c) (sat c') (sat r));
      (assumption || lia).
  - apply (hsv_adjust_channel_monotone (val c) (val c') (val r));
      (assumption || lia).
Qed.

Lemma hsv_adjust_range_monotone_witness :
  exists a a',
    hsv_adjust_range (48, 19, 99) (360, 100, 100) = Ok a /\
    hsv_adjust_range (49, 19, 12) (360, 100, 100) = Ok a' /\
    hue a <= hue a'.
Proof.
  destruct (hsv_adjust_range_monotone (48, 19, 99) (49, 19, 12)
              (360, 100, 100)) as (a & a' & Ha & Ha' & Hh & _);
    try channels.
  - unfold channels_within, hue, sat, val. cbn. lia.
  - exists a, a'. repeat split; try assumption. apply Hh. cbn. lia.
Defined.

End ConversionExact.

(** ** [mix_colors] at any ratio *)

Section MixRatio.
Local Open Scope R_scope.

(** An integer near an exact mix that is itself an integer is that
    integer. *)
Lemma near_mix_exact (a b : Z) (q : R) (z m : Z) :
  exact_mix a b q = IZR m -> near_mix a b q z -> z = m.
Proof.
  unfold near_mix. intros -> Hz.
  pose proof bpow_m40 as Hu. pose proof (bpow_gt_0 (-40)) as Hu0.
  assert (H1 : IZR (m - 1) < IZR z) by (rewrite minus_IZR; lra).
  assert (H2 : IZR z < IZR (m + 1)) by (rewrite plus_IZR; lra).
  apply lt_IZR in H1, H2. lia.
Qed.

(** Two integers near the same exact mix are at most one apart. *)
Lemma near_mix_close (a b : Z) (q : R) (z z' : Z) :
  near_mix a b q z -> near_mix a b q z' -> (Z.abs (z - z') <= 1)%Z.
Proof.
  unfold near_mix. intros Hz Hz'.
  pose proof bpow_m40 as Hu. pose proof (bpow_gt_0 (-40)) as Hu0.
  assert (H1 : IZR (z - z') < IZR 2) by (rewrite minus_IZR; simpl (IZR 2); lra).
  assert (H2 : IZR (- 2) < IZR (z - z'))
    by (rewrite minus_IZR; simpl (IZR (- 2)); lra).
  apply lt_IZR in H1, H2. lia.
Qed.

(** [mix_colors] on colours of channel magnitude at most 510 (canonical
    colours, also after the hue shift of a descending gradient) and a ratio
    of [[0, 1]]: every channel of the result lies between the channels of
    the two colours; the ratio 0 gives the first colour and the ratio 1 the
    second. *)
Theorem mix_colors_between (c1 c2 : color) (t : float) :
  channels_within 510 c1 -> channels_within 510 c2 ->
  is_finite t = true -> 0 <= F2R t <= 1 ->
  exists c,
    mix_colors c1 c2 t = Ok c /\
    (Z.min (hue c1) (hue c2) <= hue c <= Z.max (hue c1) (hue c2))%Z /\
    (Z.min (sat c1) (sat c2) <= sat c <= Z.max (sat c1) (sat c2))%Z /\
    (Z.min (val c1) (val c2) <= val c <= Z.max (val c1) (val c2))%Z /\
    (F2R t = 0 -> c = c1) /\ (F2R t = 1 -> c = c2).
Proof.
  intros B1 B2 Ht Hq.
  pose proof (bpow_gt_0 (-52)) as Hu.
  destruct (mix_colors_approx c1 c2 t (F2R t) B1 B2 Ht Hq ltac:(lra))
    as (c & Hc & Nh & Ns & Nv).
  exists c. split; [assumption|].
  do 3 (split; [eapply near_mix_between; eassumption|]).
  split; intros E; rewrite E in *.
  - apply (near_mix_exact _ _ _ _ (hue c1)) in Nh;
      [|unfold exact_mix; ring].
    apply (near_mix_exact _ _ _ _ (sat c1)) in Ns;
      [|unfold exact_mix; ring].
    apply (near_mix_exact _ _ _ _ (val c1)) in Nv;
      [|unfold exact_mix; ring].
    destruct c as [[h s] v], c1 as [[h1 s1] v1]. unfold hue, sat, val in *.
    cbn [fst snd] in *. congruence.
  - apply (near_mix_exact _ _ _ _ (hue c2)) in Nh;
      [|unfold exact_mix; ring].
    apply (near_mix_exact _ _ _ _ (sat c2)) in Ns;
      [|unfold exact_mix; ring].
    apply (near_mix_exact _ _ _ _ (val c2)) in Nv;
      [|unfold exact_mix; ring].
    destruct c as [[h s] v], c2 as [[h2 s2] v2]. unfold hue, sat, val in *.
    cbn [fst snd] in *. congruence.
Qed.

End MixRatio.

Section MixRatioWitness.

Lemma mix_colors_between_witness :
  exists c,
    mix_colors (34, 48, 252) (11, 153, 252)
      (S754_finite false 4503599627370496 (-53)) = Ok c /\
    Z.min 48 153 <= sat c <= Z.max 48 153.
Proof.
  destruct (mix_colors_between (34, 48, 252) (11, 153, 252)
              (S754_finite false 4503599627370496 (-53)))
    as (c & Hc & _ & Hs & _).
  - unfold channels_within, hue, sat, val. cbn. lia.
  - unfold channels_within, hue, sat, val. cbn. lia.
  - reflexivity.
  - rewrite F2R_finite. cbn [cond_Ropp].
    pose proof bpow_m53. pose proof (bpow_gt_0 (-53)). lra.
  - exists c. split; assumption.
Defined.

End MixRatioWitness.

(** ** More on the rows of [add_gradient] *)

Section GradientMore.

(** In a palette with a positive range, every colour of a gradient row
    between two colours within the range stays on the canonical scale,
    whatever [hue_ascending] is: nothing needs clamping. *)
Theorem add_gradient_row_on_scale (r c1 c2 : color) (n : Z) (asc : bool) :
  0 <= n -> range_positive r -> in_range c1 r -> in_range c2 r ->
  exists row,
    gradient_row r c1 c2 n asc = Ok row /\ Forall canonical_bounds row.
Proof.
  intros Hn Hr H1 H2.
  destruct (hsv_adjust_range_in_range c1 r Hr H1) as (a & Ha & Ba).
  destruct (hsv_adjust_range_in_range c2 r Hr H2) as (b & Hb & Bb).
  destruct (gradient_row_total r c1 c2 n asc Hr H1 H2) as [row Hrow].
  exists row. split; [assumption|].
  destruct (gradient_row_elements _ _ _ _ _ _ Hn Hrow)
    as (a' & b' & Ha' & Hb' & Hlen & H0 & Hlast & _ & Hmid).
  rewrite Ha in Ha'. injection Ha' as <-.
  rewrite Hb in Hb'. injection Hb' as <-.
  apply Forall_forall. intros c Hc.
  apply In_nth_error in Hc. destruct Hc as [k Hk].
  assert (Hlt : (k < length row)%nat).
  { apply nth_error_Some. rewrite Hk. discriminate. }
  destruct (Nat.eq_dec k 0) as [->|Hk0].
  { rewrite H0 in Hk. now injection Hk as <-. }
  destruct (Nat.eq_dec k (Z.to_nat (n + 1))) as [->|Hk1].
  { rewrite Hlast in Hk. now injection Hk as <-. }
  assert (Hi : 0 <= Z.of_nat k - 1 < n) by lia.
  destruct (Hmid _ Hi) as (c' & Hc' & Hnth).
  replace (Z.to_nat (Z.of_nat k - 1 + 1)) with k in Hnth by lia.
  rewrite Hk in Hnth. injection Hnth as <-.
  destruct (gradient_color_inv _ _ _ _ _ Hc') as (t & c0 & Ht & Hc0 & ->).
  destruct (mix_colors_near (shift_hue asc a) b n (Z.of_nat k - 1) t c0)
    as (Hq & _ & Ns & Nv); try assumption.
  { now apply channels_within_shift_hue. }
  { now apply channels_within_canonical. }
  apply near_mix_between in Ns, Nv; try assumption.
  assert (Es : sat (shift_hue asc a) = sat a) by (destruct asc; reflexivity).
  assert (Ev : val (shift_hue asc a) = val a) by (destruct asc; reflexivity).
  rewrite Es in Ns. rewrite Ev in Nv.
  unfold canonical_bounds in *.
  change (hue (hue c0 mod 255, sat c0, val c0)) with (hue c0 mod 255).
  change (sat (hue c0 mod 255, sat c0, val c0)) with (sat c0).
  change (val (hue c0 mod 255, sat c0, val c0)) with (val c0).
  pose proof (Z.mod_pos_bound (hue c0) 255 ltac:(lia)). lia.
Qed.

Lemma add_gradient_row_on_scale_witness :
  exists row,
    gradient_row (360, 100, 100) (16, 60, 99) (217, 25, 12) 5 false = Ok row /\
    Forall canonical_bounds row.
Proof.
  apply (add_gradient_row_on_scale (360, 100, 100) (16, 60, 99)
           (217, 25, 12) 5 false); [lia| | |];
    channels.
Defined.

Lemma map_result_const {A B : Type} (g : A -> result B) (l : list A) (y : B) :
  (forall x, In x l -> g x = Ok y) ->
  map_result g l = Ok (repeat y (length l)).
Proof.
  induction l as [|x l IH]; intros H; cbn [map_result length repeat].
  - reflexivity.
  - rewrite (H x) by now left. cbn [bind].
    rewrite IH by (intros x' Hx'; apply H; now right). reflexivity.
Qed.

(** A gradient from a colour to itself repeats the colour, but for the
    hue of the interior colours, which is reduced modulo 255. *)
Theorem add_gradient_same_color (self : PixelPalette) (c : color) (n : Z) :
  0 <= n ->
  range_positive (hsv_range self) -> in_range c (hsv_range self) ->
  exists a,
    hsv_adjust_range c (hsv_range self) = Ok a /\
    appends (add_gradient c c n true) self
      (a :: repeat (hue a mod 255, sat a, val a) (Z.to_nat n) ++ [a]).
Proof.
  intros Hn Hr Hc.
  destruct (hsv_adjust_range_in_range c _ Hr Hc) as (a & Ha & Ba).
  exists a. split; [assumption|]. apply add_gradient_appends.
  rewrite gradient_row_eq, Ha. cbn [bind].
  rewrite (map_result_const _ _ (hue a mod 255, sat a, val a)).
  - cbn [bind]. rewrite range_length, Z.sub_0_r. reflexivity.
  - intros i Hi. apply range_In in Hi.
    change (shift_hue true a) with a.
    pose proof (channels_within_canonical a Ba) as Wa.
    destruct (gradient_color_approx a a n i Wa Wa Hi)
      as (c' & -> & (h & Eh & Nh) & Ns & Nv).
    assert (Hq : (0 <= IZR (i + 1) / IZR (n + 1) <= 1)%R).
    { destruct (ratio_approx n i Hi) as (_ & _ & _ & Hq & _). exact Hq. }
    apply near_mix_between in Nh, Ns, Nv; try assumption.
    destruct c' as [[h' s'] v'], a as [[ha sa] va].
    unfold hue, sat, val in *. cbn [fst snd] in *.
    assert (h = ha) by lia. assert (s' = sa) by lia.
    assert (v' = va) by lia. subst. reflexivity.
Qed.

Lemma add_gradient_same_color_witness :
  appends (add_gradient (360, 50, 50) (360, 50, 50) 2 true)
    (init (360, 100, 100))
    [(255, 128, 128); (0, 128, 128); (0, 128, 128); (255, 128, 128)].
Proof.
  destruct (add_gradient_same_color (init (360, 100, 100)) (360, 50, 50) 2)
    as (a & Ha & Happ); [lia|channels|channels|].
  assert (E : hsv_adjust_range (360, 50, 50) (hsv_range (init (360, 100, 100)))
              = Ok (255, 128, 128)) by (vm_compute; reflexivity).
  rewrite E in Ha. injection Ha as <-. exact Happ.
Defined.


(** With [hue_ascending=True] and both canonical hues below 255, no
    interior hue wraps: every position of the row holds a hue near the
    exact mix of the two endpoint hues. *)
Lemma gradient_row_near_hue (r c1 c2 : color) (n : Z) (a b : color)
  (row : list color) :
  0 <= n -> canonical_bounds a -> canonical_bounds b ->
  hue a < 255 -> hue b < 255 ->
  hsv_adjust_range c1 r = Ok a -> hsv_adjust_range c2 r = Ok b ->
  gradient_row r c1 c2 n true = Ok row ->
  forall k, 0 <= k <= n + 1 ->
    exists c,
      nth_error row (Z.to_nat k) = Some c /\
      near_mix (hue a) (hue b) (IZR k / IZR (n + 1)) (hue c).
Proof.
  intros Hn Ba Bb La Lb Ha Hb Hrow k Hk.
  destruct (gradient_row_elements _ _ _ _ _ _ Hn Hrow)
    as (a' & b' & Ha' & Hb' & _ & H0 & Hlast & _ & Hmid).
  rewrite Ha in Ha'. injection Ha' as <-.
  rewrite Hb in Hb'. injection Hb' as <-.
  assert (HN : (0 < IZR (n + 1))%R) by (apply IZR_lt; lia).
  destruct (Z.eq_dec k 0) as [->|Hk0];
    [|destruct (Z.eq_dec k (n + 1)) as [->|Hk1]].
  - exists a. split; [assumption|].
    unfold Rdiv. rewrite Rmult_0_l. apply near_mix_start.
  - exists b. split; [assumption|].
    unfold Rdiv. rewrite Rinv_r by lra. apply near_mix_end.
  - destruct (Hmid (k - 1) ltac:(lia)) as (c & Hc & Hnth).
    replace (k - 1 + 1) with k in Hnth by lia.
    exists c. split; [assumption|].
    destruct (gradient_color_inv _ _ _ _ _ Hc) as (t & c0 & Ht & Hc0 & ->).
    change (shift_hue true a) with a in Hc0.
    destruct (mix_colors_near a b n (k - 1) t c0)
      as (Hq & Hh & _); try assumption; try lia;
      try (now apply channels_within_canonical).
    replace (k - 1 + 1) with k in * by lia.
    change (hue (hue c0 mod 255, sat c0, val c0)) with (hue c0 mod 255).
    pose proof (near_mix_between _ _ _ _ Hq Hh) as Hbt.
    destruct Ba as (Bh & _). destruct Bb as (Bh' & _).
    rewrite Z.mod_small by lia. assumption.
Qed.

(** With [hue_ascending=True], in-range colours whose canonical hues are
    both below 255, and fewer than [2^38] steps, the hue is monotone along
    the row, in the direction of the endpoint hues. *)
Theorem add_gradient_hue_monotone (self : PixelPalette) (c1 c2 : color)
  (n : Z) :
  0 <= n < 2 ^ 38 ->
  range_positive (hsv_range self) ->
  in_range c1 (hsv_range self) -> in_range c2 (hsv_range self) ->
  exists a b row,
    hsv_adjust_range c1 (hsv_range self) = Ok a /\
    hsv_adjust_range c2 (hsv_range self) = Ok b /\
    appends (add_gradient c1 c2 n true) self row /\
    (hue a < 255 -> hue b < 255 ->
     forall k, 0 <= k <= n ->
       exists c c',
         nth_error row (Z.to_nat k) = Some c /\
         nth_error row (Z.to_nat (k + 1)) = Some c' /\
         (hue a <= hue b -> hue c <= hue c') /\
         (hue b <= hue a -> hue c' <= hue c)).
Proof.
  intros Hn Hr H1 H2.
  destruct (hsv_adjust_range_in_range c1 _ Hr H1) as (a & Ha & Ba).
  destruct (hsv_adjust_range_in_range c2 _ Hr H2) as (b & Hb & Bb).
  destruct (gradient_row_total _ c1 c2 n true Hr H1 H2) as [row Hrow].
  exists a, b, row. repeat (split; [assumption|]).
  split; [now apply add_gradient_appends|].
  intros La Lb k Hk.
  assert (Hn0 : 0 <= n) by lia.
  assert (Hk0 : 0 <= k <= n + 1) by lia.
  assert (Hk1 : 0 <= k + 1 <= n + 1) by lia.
  destruct (gradient_row_near_hue _ _ _ _ a b row Hn0 Ba Bb La Lb Ha Hb Hrow
              k Hk0) as (c & Hc & Hh).
  destruct (gradient_row_near_hue _ _ _ _ a b row Hn0 Ba Bb La Lb Ha Hb Hrow
              (k + 1) Hk1) as (c' & Hc' & Hh').
  exists c, c'. repeat (split; [assumption|]).
  assert (HN : 0 < n + 1 <= 2 ^ 38) by lia.
  assert (Eq : (IZR (k + 1) / IZR (n + 1)
                = IZR k / IZR (n + 1) + / IZR (n + 1))%R).
  { rewrite plus_IZR. unfold Rdiv. ring. }
  rewrite Eq in Hh'.
  split; intros Hab.
  - exact (near_mix_step _ _ _ _ _ _ Hab HN Hh Hh').
  - exact (near_mix_step_down _ _ _ _ _ _ Hab HN Hh Hh').
Qed.

Lemma add_gradient_hue_monotone_witness :
  exists row,
    appends (add_gradient (16, 60, 99) (217, 25, 12) 5 true)
      (init (360, 100, 100)) row.
Proof.
  destruct (add_gradient_hue_monotone (init (360, 100, 100))
              (16, 60, 99) (217, 25, 12) 5)
    as (a & b & row & _ & _ & Happ & _);
    [lia|channels|channels|channels|].
  exists row. exact Happ.
Defined.

(** A gradient and the gradient between the same colours taken in the
    other order mirror each other up to one unit of saturation and of
    value at every position; they need not agree exactly, as the mix is
    rounded differently in the two directions. *)
Theorem add_gradient_reversed :
  (forall (self : PixelPalette) (c1 c2 : color) (n : Z),
     0 <= n ->
     range_positive (hsv_range self) ->
     in_range c1 (hsv_range self) -> in_range c2 (hsv_range self) ->
     exists row row',
       appends (add_gradient c1 c2 n true) self row /\
       appends (add_gradient c2 c1 n true) self row' /\
       forall k, 0 <= k <= n + 1 ->
         exists c c',
           nth_error row (Z.to_nat k) = Some c /\
           nth_error row' (Z.to_nat (n + 1 - k)) = Some c' /\
           Z.abs (sat c - sat c') <= 1 /\ Z.abs (val c - val c') <= 1) /\
  (exists row row',
     appends (add_gradient (0, 0, 0) (0, 9, 0) 5 true)
       (init (255, 255, 255)) row /\
     appends (add_gradient (0, 9, 0) (0, 0, 0) 5 true)
       (init (255, 255, 255)) row' /\
     nth_error row 1 = Some (0, 2, 0) /\
     nth_error row' 5 = Some (0, 1, 0)).
Proof.
  split.
  - intros self c1 c2 n Hn Hr H1 H2.
    destruct (hsv_adjust_range_in_range c1 _ Hr H1) as (a & Ha & Ba).
    destruct (hsv_adjust_range_in_range c2 _ Hr H2) as (b & Hb & Bb).
    destruct (gradient_row_total _ c1 c2 n true Hr H1 H2) as [row Hrow].
    destruct (gradient_row_total _ c2 c1 n true Hr H2 H1) as [row' Hrow'].
    exists row, row'.
    split; [now apply add_gradient_appends|].
    split; [now apply add_gradient_appends|].
    intros k Hk.
    destruct (gradient_row_near _ _ _ _ _ a b row Hn Ba Bb Ha Hb Hrow k Hk)
      as (c & Hc & Hs & Hv).
    destruct (gradient_row_near _ _ _ _ _ b a row' Hn Bb Ba Hb Ha Hrow'
                (n + 1 - k) ltac:(lia)) as (c' & Hc' & Hs' & Hv').
    exists c, c'. repeat (split; [assumption|]).
    assert (HN : (0 < IZR (n + 1))%R) by (apply IZR_lt; lia).
    assert (Eq : (1 - IZR (n + 1 - k) / IZR (n + 1)
                  = IZR k / IZR (n + 1))%R).
    { rewrite (minus_IZR (n + 1)). field. lra. }
    apply near_mix_sym in Hs', Hv'. rewrite Eq in Hs', Hv'.
    split; eapply near_mix_close; eassumption.
  - exists [(0, 0, 0); (0, 2, 0); (0, 3, 0); (0, 4, 0); (0, 6, 0);
            (0, 8, 0); (0, 9, 0)],
      [(0, 9, 0); (0, 8, 0); (0, 6, 0); (0, 4, 0); (0, 3, 0); (0, 1, 0);
       (0, 0, 0)].
    repeat split; vm_compute; reflexivity.
Qed.

Lemma add_gradient_reversed_witness :
  exists row row',
    appends (add_gradient (48, 19, 99) (16, 60, 99) 2 true)
      (init (360, 100, 100)) row /\
    appends (add_gradient (16, 60, 99) (48, 19, 99) 2 true)
      (init (360, 100, 100)) row'.
Proof.
  destruct (proj1 add_gradient_reversed (init (360, 100, 100))
              (48, 19, 99) (16, 60, 99) 2)
    as (row & row' & Happ & Happ' & _);
    [lia|channels|channels|channels|].
  exists row, row'. split; assumption.
Defined.

End GradientMore.

(** ** Even steps *)

Section EvenSteps.
Local Open Scope R_scope.

(** Two integers near the exact mixes at the consecutive ratios [q] and
    [q + 1/N] differ by the exact step [(b - a) / N], up to one unit. *)
Lemma near_mix_even (a b N : Z) (q : R) (z1 z2 : Z) :
  (0 < N <= 2 ^ 38)%Z ->
  near_mix a b q z1 -> near_mix a b (q + / IZR N) z2 ->
  (Z.abs (N * (z2 - z1) - (b - a)) <= N)%Z.
Proof.
  unfold near_mix, exact_mix. intros HN H1 H2.
  pose proof bpow_m40 as Hu. pose proof (bpow_gt_0 (-40)) as Hu0.
  set (eps := bpow (-40)) in *.
  assert (HNR : 1 <= IZR N <= 274877906944).
  { split; apply IZR_le; [lia|]. change 274877906944%Z with (2 ^ 38)%Z. lia. }
  assert (Hinv1 : / IZR N * IZR N = 1) by (apply Rinv_l; lra).
  set (D := IZR b - IZR a).
  set (X := IZR z2 - IZR z1 - D * / IZR N).
  assert (HX : - (1 + 2 * eps) <= X <= 1 + 2 * eps).
  { unfold X, D. split; nra. }
  assert (HXN : X * IZR N = IZR N * (IZR z2 - IZR z1) - D).
  { unfold X. rewrite Rmult_minus_distr_r, Rmult_assoc, Hinv1. ring. }
  assert (He : eps * IZR N <= eps * 274877906944)
    by (apply Rmult_le_compat_l; lra).
  assert (HXb : - (1 + 2 * eps) * IZR N <= X * IZR N <= (1 + 2 * eps) * IZR N).
  { split; apply Rmult_le_compat_r; lra. }
  rewrite HXN in HXb.
  assert (E : IZR (N * (z2 - z1) - (b - a))
              = IZR N * (IZR z2 - IZR z1) - D).
  { unfold D. now rewrite !minus_IZR, mult_IZR, minus_IZR. }
  assert (G1 : IZR (N * (z2 - z1) - (b - a)) < IZR (N + 1)).
  { rewrite E, plus_IZR. simpl (IZR 1). lra. }
  assert (G2 : IZR (- N - 1) < IZR (N * (z2 - z1) - (b - a))).
  { rewrite E, minus_IZR, opp_IZR. simpl (IZR 1). lra. }
  apply lt_IZR in G1, G2. lia.
Qed.

End EvenSteps.

Section EvenStepsRow.

(** The steps of a gradient are even: with fewer than [2^38] steps
    between in-range colours, the saturation and the value change from one
    element of the row to the next by the exact step
    [(channel2 - channel1) / (n + 1)], up to one unit. *)
Theorem add_gradient_even_steps (self : PixelPalette) (c1 c2 : color)
  (n : Z) (asc : bool) :
  0 <= n < 2 ^ 38 ->
  range_positive (hsv_range self) ->
  in_range c1 (hsv_range self) -> in_range c2 (hsv_range self) ->
  exists a b row,
    hsv_adjust_range c1 (hsv_range self) = Ok a /\
    hsv_adjust_range c2 (hsv_range self) = Ok b /\
    appends (add_gradient c1 c2 n asc) self row /\
    forall k, 0 <= k <= n ->
      exists c c',
        nth_error row (Z.to_nat k) = Some c /\
        nth_error row (Z.to_nat (k + 1)) = Some c' /\
        Z.abs ((n + 1) * (sat c' - sat c) - (sat b - sat a)) <= n + 1 /\
        Z.abs ((n + 1) * (val c' - val c) - (val b - val a)) <= n + 1.
Proof.
  intros Hn Hr H1 H2.
  destruct (hsv_adjust_range_in_range c1 _ Hr H1) as (a & Ha & Ba).
  destruct (hsv_adjust_range_in_range c2 _ Hr H2) as (b & Hb & Bb).
  destruct (gradient_row_total _ c1 c2 n asc Hr H1 H2) as [row Hrow].
  exists a, b, row. repeat (split; [assumption|]).
  split; [now apply add_gradient_appends|].
  intros k Hk.
  assert (Hn0 : 0 <= n) by lia.
  assert (Hk0 : 0 <= k <= n + 1) by lia.
  assert (Hk1 : 0 <= k + 1 <= n + 1) by lia.
  destruct (gradient_row_near _ _ _ _ _ a b row Hn0 Ba Bb Ha Hb Hrow k Hk0)
    as (c & Hc & Hs & Hv).
  destruct (gradient_row_near _ _ _ _ _ a b row Hn0 Ba Bb Ha Hb Hrow
              (k + 1) Hk1) as (c' & Hc' & Hs' & Hv').
  exists c, c'. repeat (split; [assumption|]).
  assert (HN : 0 < n + 1 <= 2 ^ 38) by lia.
  assert (Eq : (IZR (k + 1) / IZR (n + 1)
                = IZR k / IZR (n + 1) + / IZR (n + 1))%R).
  { rewrite plus_IZR. unfold Rdiv. ring. }
  rewrite Eq in Hs', Hv'.
  split.
  - exact (near_mix_even _ _ _ _ _ _ HN Hs Hs').
  - exact (near_mix_even _ _ _ _ _ _ HN Hv Hv').
Qed.

Lemma add_gradient_even_steps_witness :
  exists row,
    appends (add_gradient (48, 19, 99) (16, 60, 99) 2 true)
      (init (360, 100, 100)) row.
Proof.
  destruct (add_gradient_even_steps (init (360, 100, 100))
              (48, 19, 99) (16, 60, 99) 2 true)
    as (a & b & row & _ & _ & Happ & _);
    [lia|channels|channels|channels|].
  exists row. exact Happ.
Defined.

End EvenStepsRow.

(** ** [add_gradient] on colours outside the range *)

Section WideColours.
Local Open Scope R_scope.

Lemma IZR_abs_bound (a B : Z) :
  (Z.abs a <= B)%Z -> - IZR B <= IZR a <= IZR B.
Proof.
  intros H. rewrite <- opp_IZR. split; apply IZR_le; lia.
Qed.

(** A channel of magnitude at most [2^40] converts, whatever the nonzero
    range, to a canonical value of magnitude at most [2^49]. *)
Lemma hsv_adjust_channel_wide (c r : Z) :
  r <> 0%Z -> (Z.abs c <= 2 ^ 40)%Z ->
  exists z, hsv_adjust_channel c r = Ok z /\ (Z.abs z <= 2 ^ 49)%Z.
Proof.
  intros Hr Hc. unfold hsv_adjust_channel.
  assert (Hq : - bpow 49 < IZR (255 * c) / IZR r < bpow 49).
  { apply IZR_div_bound; [assumption|].
    rewrite bpow_IZR by lia. rewrite <- opp_IZR.
    change (2 ^ 40)%Z with 1099511627776%Z in Hc.
    change (2 ^ 49)%Z with 562949953421312%Z.
    split; apply IZR_lt; lia. }
  destruct (int_truediv_approx (255 * c) r 49 Hr Hq ltac:(lia))
    as (f & -> & Hf & Hb).
  cbn [bind]. destruct (round_approx f Hf) as (z & -> & Hz).
  exists z. split; [reflexivity|].
  replace (49 - 53)%Z with (-4)%Z in Hb by lia.
  pose proof bpow_m53 as Hu. pose proof (bpow_gt_0 (-53)) as Hu0.
  assert (E4 : bpow (-4) = 562949953421312 * bpow (-53)).
  { rewrite (bpow_unit (-4)) by lia. reflexivity. }
  rewrite E4 in Hb. rewrite bpow_IZR in Hq by lia.
  assert (H1 : IZR z < IZR (2 ^ 49 + 1)) by (rewrite plus_IZR; lra).
  assert (H2 : IZR (- 2 ^ 49 - 1) < IZR z)
    by (rewrite minus_IZR, opp_IZR; lra).
  apply lt_IZR in H1, H2. lia.
Qed.

Lemma mul_bound (A U B C : R) :
  - B <= A <= B -> - C <= U <= C -> - (B * C) <= A * U <= B * C.
Proof. intros HA HU. nra. Qed.

(** [mix] followed by [round] returns on channels of magnitude at most
    [2^50] and a ratio close to a number of [[0, 1]]. *)
Lemma mix_round_total (a b : Z) (t : float) (q : R) :
  (Z.abs a <= 2 ^ 50)%Z -> (Z.abs b <= 2 ^ 50)%Z ->
  is_finite t = true -> 0 <= q <= 1 ->
  q - bpow (-52) <= F2R t <= q + bpow (-52) ->
  exists z, (m <- mix a b t ;; round m) = Ok z.
Proof.
  intros Ha Hb Ht Hq HT. unfold mix.
  pose proof bpow_m53 as Hu. pose proof (bpow_gt_0 (-53)) as Hu0.
  assert (E52 : bpow (-52) = 2 * bpow (-53)).
  { rewrite (bpow_unit (-52)) by lia. reflexivity. }
  assert (E1 : bpow 1 = 2) by apply bpow_1.
  assert (Em2 : bpow (-2) = 2251799813685248 * bpow (-53)).
  { rewrite (bpow_unit (-2)) by lia. reflexivity. }
  assert (E51 : bpow 51 = 2 * bpow 50).
  { replace 51%Z with (1 + 50)%Z by lia. now rewrite bpow_add, E1. }
  assert (E52' : bpow 52 = 4 * bpow 50).
  { replace 52%Z with (1 + 51)%Z by lia. rewrite bpow_add, E1, E51. ring. }
  pose proof (bpow_ge_1 50 ltac:(lia)) as HP.
  pose proof (IZR_abs_bound a _ Ha) as HA.
  pose proof (IZR_abs_bound b _ Hb) as HB.
  rewrite <- bpow_IZR in HA, HB by lia.
  set (P := bpow 50) in *. set (u := bpow (-53)) in *.
  rewrite E52 in HT.
  assert (Ha53 : (Z.abs a < 2 ^ 53)%Z).
  { change (2 ^ 50)%Z with 1125899906842624%Z in Ha.
    change (2 ^ 53)%Z with 9007199254740992%Z. lia. }
  assert (Hb53 : (Z.abs b < 2 ^ 53)%Z).
  { change (2 ^ 50)%Z with 1125899906842624%Z in Hb.
    change (2 ^ 53)%Z with 9007199254740992%Z. lia. }
  (* 1 - ratio_b *)
  destruct (int_sub_float_approx 1 t 1) as (fu & -> & Hfu & HU);
    [simpl; lia|assumption|rewrite E1; simpl (IZR 1); lra|lia|].
  cbn [bind]. replace (1 - 53)%Z with (-52)%Z in HU by lia.
  rewrite E52 in HU. simpl (IZR 1) in HU.
  assert (HU' : - (3 / 2) <= F2R fu <= 3 / 2) by lra.
  assert (HT' : - (3 / 2) <= F2R t <= 3 / 2) by lra.
  (* a * (1 - ratio_b) *)
  pose proof (mul_bound _ _ _ _ HA HU') as HAU.
  destruct (int_mul_float_approx a fu 51) as (fx & -> & Hfx & HX);
    [assumption|assumption|rewrite E51; lra|lia|].
  cbn [bind]. replace (51 - 53)%Z with (-2)%Z in HX by lia.
  rewrite Em2 in HX.
  (* b * ratio_b *)
  pose proof (mul_bound _ _ _ _ HB HT') as HBT.
  destruct (int_mul_float_approx b t 51) as (fy & -> & Hfy & HY);
    [assumption|assumption|rewrite E51; lra|lia|].
  cbn [bind]. replace (51 - 53)%Z with (-2)%Z in HY by lia.
  rewrite Em2 in HY.
  (* the sum *)
  destruct (float_add_approx fx fy 52 Hfx Hfy) as [Hfs _];
    [rewrite E52'; lra|lia|].
  destruct (round_approx _ Hfs) as (z & Hz & _). now exists z.
Qed.

End WideColours.

Section AddGradientErrors.

Lemma channels_within_le (B B' : Z) (c : color) :
  B <= B' -> channels_within B c -> channels_within B' c.
Proof. unfold channels_within. lia. Qed.

Lemma hsv_adjust_range_wide (c r : color) :
  range_nonzero r -> channels_within (2 ^ 40) c ->
  exists a, hsv_adjust_range c r = Ok a /\ channels_within (2 ^ 49) a.
Proof.
  intros (Rh & Rs & Rv) (Ch & Cs & Cv). unfold hsv_adjust_range.
  destruct (hsv_adjust_channel_wide _ _ Rh Ch) as (h & -> & Bh).
  destruct (hsv_adjust_channel_wide _ _ Rs Cs) as (s & -> & Bs).
  destruct (hsv_adjust_channel_wide _ _ Rv Cv) as (v & -> & Bv).
  cbn [bind]. exists (h, s, v). split; [reflexivity|].
  unfold channels_within, hue, sat, val. cbn [fst snd]. auto.
Qed.

Lemma gradient_color_wide (c1 c2 : color) (n i : Z) :
  channels_within (2 ^ 50) c1 -> channels_within (2 ^ 50) c2 ->
  0 <= i < n ->
  exists c, gradient_color c1 c2 n i = Ok c.
Proof.
  intros (H1 & S1 & V1) (H2 & S2 & V2) Hi. unfold gradient_color.
  destruct (ratio_approx n i Hi) as (t & -> & Ht & Hq & HT). cbn [bind].
  unfold mix_colors.
  destruct (mix_round_total _ _ t _ H1 H2 Ht Hq HT) as (h & ->).
  destruct (mix_round_total _ _ t _ S1 S2 Ht Hq HT) as (s & ->).
  destruct (mix_round_total _ _ t _ V1 V2 Ht Hq HT) as (v & ->).
  cbn [bind]. eauto.
Qed.

Lemma gradient_row_wide (r c1 c2 : color) (n : Z) (asc : bool) :
  range_nonzero r ->
  channels_within (2 ^ 40) c1 -> channels_within (2 ^ 40) c2 ->
  exists row, gradient_row r c1 c2 n asc = Ok row.
Proof.
  intros Hr W1 W2. rewrite gradient_row_eq.
  destruct (hsv_adjust_range_wide c1 r Hr W1) as (a & -> & Wa).
  destruct (hsv_adjust_range_wide c2 r Hr W2) as (b & -> & Wb).
  cbn [bind].
  destruct (map_result_total (gradient_color (shift_hue asc a) b n)
              (range 0 n)) as [cs ->]; [|cbn [bind]; eauto].
  intros i Hi. apply range_In in Hi.
  apply gradient_color_wide; [| |assumption].
  - destruct Wa as (Wh & Ws & Wv).
    change (2 ^ 49) with 562949953421312 in *.
    change (2 ^ 50) with 1125899906842624.
    unfold channels_within, shift_hue.
    destruct asc; cbn [negb]; unfold hue, sat, val in *; cbn [fst snd];
      lia.
  - apply (channels_within_le (2 ^ 49)); [|assumption].
    apply Z.pow_le_mono_r; lia.
Qed.

(** [add_gradient] does not ask for colours within the range: on colours
    of channel magnitude up to [2^40], whatever the step count and the hue
    direction, it appends a row when no range channel is zero, and raises
    [ZeroDivisionError], leaving the palette as it was, when one is. *)
Theorem add_gradient_succeeds (self : PixelPalette) (c1 c2 : color) (n : Z)
  (asc : bool) :
  channels_within (2 ^ 40) c1 -> channels_within (2 ^ 40) c2 ->
  (range_nonzero (hsv_range self) ->
   exists row, appends (add_gradient c1 c2 n asc) self row) /\
  (range_has_zero (hsv_range self) ->
   add_gradient c1 c2 n asc self = (Raise ZeroDivisionError, self)).
Proof.
  intros W1 W2. split.
  - intros Hr.
    destruct (gradient_row_wide _ c1 c2 n asc Hr W1 W2) as [row Hrow].
    exists row. now apply add_gradient_appends.
  - intros Hz. unfold add_gradient. rewrite gradient_row_eq.
    rewrite (hsv_adjust_range_zero c1 _ Hz); [reflexivity|].
    apply (channels_within_le (2 ^ 40)); [|assumption].
    apply Z.pow_le_mono_r; lia.
Qed.

Lemma add_gradient_succeeds_witness :
  exists row,
    appends (add_gradient (400, -20, 1000) (-90, 250, 7) 3 false)
      (init (360, 100, 100)) row.
Proof.
  apply (add_gradient_succeeds (init (360, 100, 100)) (400, -20, 1000)
           (-90, 250, 7) 3 false).
  - unfold channels_within, hue, sat, val. cbn. lia.
  - unfold channels_within, hue, sat, val. cbn. lia.
  - channels.
Defined.

End AddGradientErrors.

(** ** More on the rows of [add_shades] *)

Section ShadesMore.

Lemma add_shades_appends_inv (base shift : color) (d u : Z)
  (self : PixelPalette) (row : list color) :
  appends (add_shades base shift d u) self row ->
  exists b s,
    hsv_adjust_range base (hsv_range self) = Ok b /\
    hsv_adjust_range shift (hsv_range self) = Ok s /\
    row = map (shade b s) (range (- d) (u + 1)).
Proof.
  intros Happ.
  assert (Hok : fst (add_shades base shift d u self) = Ok tt)
    by (unfold appends in Happ; now rewrite Happ).
  destruct (add_shades_result _ _ _ _ _ Hok) as (b & s & Hb & Hs & Hsnd).
  exists b, s. repeat (split; [assumption|]).
  unfold appends in Happ. rewrite Happ in Hsnd. cbn [snd] in Hsnd.
  injection Hsnd as Hsnd. apply app_inv_head in Hsnd. now injection Hsnd.
Qed.

Lemma range_opp_rev (lo hi : Z) :
  map Z.opp (range lo hi) = rev (range (1 - hi) (1 - lo)).
Proof.
  apply nth_error_ext. intros k.
  destruct (Nat.lt_ge_cases k (Z.to_nat (hi - lo))) as [Hlt|Hge].
  - rewrite nth_error_map, range_nth_error by assumption.
    rewrite nth_error_rev, range_length.
    replace (Z.to_nat (1 - lo - (1 - hi))) with (Z.to_nat (hi - lo)) by lia.
    destruct (Nat.ltb_spec k (Z.to_nat (hi - lo))); [|lia].
    rewrite range_nth_error by lia. cbn [option_map]. f_equal. lia.
  - rewrite (proj2 (nth_error_None _ _)), (proj2 (nth_error_None _ _));
      [reflexivity| |].
    + rewrite length_rev, range_length. lia.
    + rewrite length_map, range_length. lia.
Qed.

Lemma shade_opp (b s : color) (i : Z) :
  shade b (opp_color s) i = shade b s (- i).
Proof.
  unfold shade, opp_color, hue, sat, val. cbn [fst snd].
  f_equal; [f_equal|]; ring.
Qed.

(** Shades are symmetric in the direction of the shift: with the shift
    negated and the two counts exchanged, [add_shades] appends the same
    row in the opposite order. *)
Theorem add_shades_reversed (self : PixelPalette) (base shift : color)
  (d u : Z) (row : list color) :
  appends (add_shades base shift d u) self row ->
  appends (add_shades base (opp_color shift) u d) self (rev row).
Proof.
  intros Happ.
  destruct (add_shades_appends_inv _ _ _ _ _ _ Happ)
    as (b & s & Hb & Hs & ->).
  apply add_shades_appends. rewrite shades_row_eq, Hb.
  rewrite hsv_adjust_range_opp_color, Hs. cbn [bind]. f_equal.
  rewrite <- map_rev.
  replace (range (- d) (u + 1)) with (range (1 - (d + 1)) (1 - (- u)))
    by (f_equal; lia).
  rewrite <- range_opp_rev, map_map.
  apply map_ext. intros i. apply shade_opp.
Qed.

Lemma add_shades_reversed_witness :
  appends (add_shades (138, 32, 77) (opp_color (-10, -10, 25)) 1 2)
    (init (360, 100, 100))
    (rev [(112, 134, 68); (105, 108, 132); (98, 82, 196); (91, 56, 260)]).
Proof.
  apply (add_shades_reversed (init (360, 100, 100)) (138, 32, 77)
           (-10, -10, 25) 2 1).
  vm_compute. reflexivity.
Defined.

Lemma between_ends (b s d u i : Z) :
  - d <= i <= u ->
  Z.min (b + s * - d) (b + s * u) <= b + s * i
    <= Z.max (b + s * - d) (b + s * u).
Proof.
  intros Hi. destruct (Z.le_gt_cases 0 s) as [Hs|Hs].
  - assert (s * - d <= s * i) by (apply Z.mul_le_mono_nonneg_l; lia).
    assert (s * i <= s * u) by (apply Z.mul_le_mono_nonneg_l; lia).
    lia.
  - assert (s * u <= s * i) by (apply Z.mul_le_mono_nonpos_l; lia).
    assert (s * i <= s * - d) by (apply Z.mul_le_mono_nonpos_l; lia).
    lia.
Qed.

(** Every shade lies, channel by channel, between the first and the last
    shade of its row, so the row stays on the canonical scale exactly when
    its two ends do. *)
Theorem add_shades_between_ends (self : PixelPalette) (base shift : color)
  (d u : Z) (row : list color) :
  0 <= d -> 0 <= u ->
  appends (add_shades base shift d u) self row ->
  exists first last,
    nth_error row 0 = Some first /\
    nth_error row (Z.to_nat (d + u)) = Some last /\
    (forall c, In c row ->
       Z.min (hue first) (hue last) <= hue c
         <= Z.max (hue first) (hue last) /\
       Z.min (sat first) (sat last) <= sat c
         <= Z.max (sat first) (sat last) /\
       Z.min (val first) (val last) <= val c
         <= Z.max (val first) (val last)) /\
    (Forall canonical_bounds row <->
     canonical_bounds first /\ canonical_bounds last).
Proof.
  intros Hd Hu Happ.
  destruct (add_shades_appends_inv _ _ _ _ _ _ Happ)
    as (b & s & Hb & Hs & ->).
  exists (shade b s (- d)), (shade b s u).
  assert (H0 : nth_error (map (shade b s) (range (- d) (u + 1))) 0
               = Some (shade b s (- d))).
  { change 0%nat with (Z.to_nat 0). rewrite shades_nth_error by lia.
    now rewrite Z.sub_0_l. }
  assert (H1 : nth_error (map (shade b s) (range (- d) (u + 1)))
                 (Z.to_nat (d + u)) = Some (shade b s u)).
  { rewrite shades_nth_error by lia.
    now replace (d + u - d) with u by lia. }
  assert (Hbt : forall c, In c (map (shade b s) (range (- d) (u + 1))) ->
            Z.min (hue (shade b s (- d))) (hue (shade b s u)) <= hue c
              <= Z.max (hue (shade b s (- d))) (hue (shade b s u)) /\
            Z.min (sat (shade b s (- d))) (sat (shade b s u)) <= sat c
              <= Z.max (sat (shade b s (- d))) (sat (shade b s u)) /\
            Z.min (val (shade b s (- d))) (val (shade b s u)) <= val c
              <= Z.max (val (shade b s (- d))) (val (shade b s u))).
  { intros c Hc. apply in_map_iff in Hc. destruct Hc as (i & <- & Hi).
    apply range_In in Hi. unfold shade, hue, sat, val. cbn [fst snd].
    repeat split; apply between_ends; lia. }
  repeat (split; [assumption|]). split.
  - intros Hall. rewrite Forall_forall in Hall.
    split; apply Hall; eapply nth_error_In; eassumption.
  - intros (Bf & Bl). apply Forall_forall. intros c Hc.
    specialize (Hbt c Hc). unfold canonical_bounds in *. lia.
Qed.

Lemma add_shades_between_ends_witness :
  exists first last,
    nth_error [(112, 134, 68); (105, 108, 132); (98, 82, 196); (91, 56, 260)]
      0 = Some first /\
    nth_error [(112, 134, 68); (105, 108, 132); (98, 82, 196); (91, 56, 260)]
      (Z.to_nat (2 + 1)) = Some last.
Proof.
  destruct (add_shades_between_ends (init (360, 100, 100)) (138, 32, 77)
              (-10, -10, 25) 2 1
              [(112, 134, 68); (105, 108, 132); (98, 82, 196); (91, 56, 260)])
    as (first & last & H0 & H1 & _); [lia|lia|vm_compute; reflexivity|].
  exists first, last. split; assumption.
Defined.

End ShadesMore.

(** ** More on [save_as_image] *)

Section ExportMore.

Lemma image_width_app (rows : list (list color)) (row : list color) :
  image_width (rows ++ [row])
  = Z.max (image_width rows) (Z.of_nat (length row)).
Proof. unfold image_width. now rewrite fold_left_app. Qed.

Lemma image_width_nonneg (rows : list (list color)) : 0 <= image_width rows.
Proof. rewrite image_width_max. lia. Qed.

Lemma image_width_ge (rows : list (list color)) (row : list color) :
  In row rows -> Z.of_nat (length row) <= image_width rows.
Proof.
  intros Hin. rewrite image_width_max.
  assert (H : (length row <= list_max (map (@length color) rows))%nat).
  { pose proof (proj1 (list_max_le (map (@length color) rows)
                         (list_max (map (@length color) rows)))
                  (Nat.le_refl _)) as Hall.
    rewrite Forall_forall in Hall. apply Hall. now apply in_map. }
  lia.
Qed.

Lemma image_row_length (row : list color) (w : Z) :
  length (map (pixel_at row) (range 0 w)) = Z.to_nat w.
Proof. rewrite length_map, range_length. f_equal. lia. Qed.

(** The cell at column [x] of row [y], in an image of any width. *)
Lemma image_cell (rows : list (list color)) (w y x : nat) (row : list color) :
  nth_error rows y = Some row -> (x < w)%nat ->
  nth_error (image_pixels rows (Z.of_nat w)) (y * w + x)
  = Some (pixel_at row (Z.of_nat x)).
Proof.
  intros Hy Hx. rewrite image_pixels_concat.
  set (ls := map (fun row => map (pixel_at row) (range 0 (Z.of_nat w))) rows).
  assert (Huni : Forall (fun l => length l = w) ls).
  { unfold ls. apply Forall_forall. intros l Hl.
    apply in_map_iff in Hl. destruct Hl as (row' & <- & _).
    rewrite image_row_length. lia. }
  destruct (nth_error_concat_uniform w ls Huni) as [_ Hnth].
  rewrite (Hnth y x (map (pixel_at row) (range 0 (Z.of_nat w)))).
  - rewrite nth_error_map, range_nth_error by lia.
    cbn [option_map]. now rewrite Z.add_0_l.
  - unfold ls. now rewrite nth_error_map, Hy.
  - assumption.
Qed.

Lemma image_row_full (row : list color) :
  map (pixel_at row) (range 0 (Z.of_nat (length row))) = row.
Proof.
  apply nth_error_ext. intros k.
  destruct (Nat.lt_ge_cases k (length row)) as [Hlt|Hge].
  - rewrite nth_error_map, range_nth_error by lia. cbn [option_map].
    rewrite Z.add_0_l, pixel_at_nth.
    destruct (Nat.ltb_spec k (length row)); [|lia].
    symmetry. now apply nth_error_nth'.
  - rewrite (proj2 (nth_error_None row k)) by assumption.
    apply nth_error_None. rewrite image_row_length. lia.
Qed.

Lemma In_image_row (row : list color) (w : Z) (p : color) :
  Z.of_nat (length row) <= w ->
  In p (map (pixel_at row) (range 0 w)) <->
  In p row \/ (p = (0, 0, 0) /\ Z.of_nat (length row) < w).
Proof.
  intros Hw. rewrite in_map_iff. split.
  - intros (x & <- & Hx). apply range_In in Hx. unfold pixel_at.
    destruct (Z.ltb_spec x (Z.of_nat (length row))).
    + left. apply nth_In. lia.
    + right. split; [reflexivity|lia].
  - intros [Hin|[-> Hlt]].
    + apply In_nth_error in Hin. destruct Hin as [k Hk].
      assert (Hlt : (k < length row)%nat).
      { apply nth_error_Some. rewrite Hk. discriminate. }
      exists (Z.of_nat k). split; [|apply range_In; lia].
      rewrite pixel_at_nth.
      destruct (Nat.ltb_spec k (length row)); [|lia].
      now apply nth_error_nth.
    + exists (Z.of_nat (length row)). split; [|apply range_In; lia].
      unfold pixel_at. now rewrite Z.ltb_irrefl.
Qed.

(** Every colour of every row is handed to the image library, and the
    only other pixels are the black ones that pad the rows shorter than the
    longest. *)
Theorem save_as_image_pixels (filename : string) (self : PixelPalette)
  (p : color) :
  In p (im_data (handed_image filename self)) <->
  exists row,
    In row (rows self) /\
    (In p row \/
     (p = (0, 0, 0) /\
      (length row < list_max (map (@length color) (rows self)))%nat)).
Proof.
  unfold handed_image, save_as_image. cbn [fst im_data].
  rewrite image_pixels_concat, in_concat. split.
  - intros (l & Hl & Hp). apply in_map_iff in Hl.
    destruct Hl as (row & <- & Hrow). exists row. split; [assumption|].
    apply In_image_row in Hp; [|now apply image_width_ge].
    rewrite image_width_max in Hp.
    destruct Hp as [Hp|[Hp Hlt]]; [now left|right]. split; [assumption|lia].
  - intros (row & Hrow & Hp).
    exists (map (pixel_at row) (range 0 (image_width (rows self)))).
    split; [apply in_map_iff; now exists row|].
    apply In_image_row; [now apply image_width_ge|].
    rewrite image_width_max.
    destruct Hp as [Hp|[Hp Hlt]]; [now left|right]. split; [assumption|lia].
Qed.

(** Rows of one length are handed over as they are, one after the other,
    with no padding; rows that are all empty give an image without
    pixels. *)
Theorem save_as_image_equal_rows (filename : string) (self : PixelPalette)
  (w : nat) :
  Forall (fun row => length row = w) (rows self) ->
  im_data (handed_image filename self) = concat (rows self) /\
  (rows self <> [] ->
   im_size (handed_image filename self)
     = (Z.of_nat w, Z.of_nat (length (rows self)))) /\
  (w = 0%nat -> im_data (handed_image filename self) = []).
Proof.
  intros Hall. unfold handed_image, save_as_image. cbn [fst im_data im_size].
  assert (Hw : rows self <> [] -> image_width (rows self) = Z.of_nat w).
  { intros Hne. rewrite image_width_max. f_equal.
    destruct (rows self) as [|row0 rs]; [contradiction|].
    apply Nat.le_antisymm.
    - apply list_max_le. apply Forall_map.
      eapply Forall_impl; [|exact Hall]. cbn. intros a ->. lia.
    - inversion Hall as [|? ? H0 _]; subst.
      unfold list_max. cbn [map fold_right]. lia. }
  assert (Hdata : image_pixels (rows self) (image_width (rows self))
                  = concat (rows self)).
  { destruct (rows self) as [|row0 rs] eqn:E; [reflexivity|].
    rewrite Hw by discriminate. rewrite image_pixels_concat. f_equal.
    rewrite <- (map_id (row0 :: rs)) at 2.
    apply map_ext_Forall. eapply Forall_impl; [|exact Hall].
    cbn. intros a <-. apply image_row_full. }
  split; [assumption|]. split.
  - intros Hne. now rewrite Hw.
  - intros ->. rewrite Hdata.
    clear -Hall. induction Hall as [|row rs Hrow _ IH]; [reflexivity|].
    cbn [concat]. rewrite IH. destruct row; [reflexivity|discriminate].
Qed.

Lemma save_as_image_equal_rows_witness :
  im_data (handed_image "p.png"
             {| rows := [[(1, 2, 3); (4, 5, 6)]; [(7, 8, 9); (0, 1, 2)]];
                hsv_range := (255, 255, 255) |})
  = [(1, 2, 3); (4, 5, 6); (7, 8, 9); (0, 1, 2)].
Proof.
  apply (save_as_image_equal_rows "p.png"
           {| rows := [[(1, 2, 3); (4, 5, 6)]; [(7, 8, 9); (0, 1, 2)]];
              hsv_range := (255, 255, 255) |} 2%nat).
  repeat constructor.
Defined.

(** Exporting after one more row has been appended: the image is one row
    higher and as wide as the wider of the old image and the new row; the
    cells of the rows that were there keep their colours, the columns added
    to them are black, and the last image row is the new row, padded. *)
Theorem save_as_image_after_append (filename : string) (m : method unit)
  (self : PixelPalette) (row : list color) :
  appends m self row ->
  let before := handed_image filename self in
  let after := handed_image filename (snd (m self)) in
  let w := Z.to_nat (fst (im_size before)) in
  let w' := Z.to_nat (fst (im_size after)) in
  let h := Z.to_nat (snd (im_size before)) in
  im_size after
    = (Z.max (fst (im_size before)) (Z.of_nat (length row)),
       snd (im_size before) + 1) /\
  h = length (rows self) /\
  (forall y x : nat, (y < h)%nat -> (x < w')%nat ->
     nth_error (im_data after) (y * w' + x)
     = if (x <? w)%nat then nth_error (im_data before) (y * w + x)
       else Some (0, 0, 0)) /\
  (forall x : nat, (x < w')%nat ->
     nth_error (im_data after) (h * w' + x)
     = Some (pixel_at row (Z.of_nat x))).
Proof.
  intros Happ. unfold appends in Happ. rewrite Happ.
  unfold handed_image, save_as_image.
  cbn [fst snd im_data im_size rows].
  rewrite image_width_app, length_app, Nat2Z.id. cbn [length].
  pose proof (image_width_nonneg (rows self)) as Hnn.
  set (W := image_width (rows self)) in *.
  set (W' := Z.max W (Z.of_nat (length row))).
  assert (EW : W = Z.of_nat (Z.to_nat W)) by lia.
  assert (EW' : W' = Z.of_nat (Z.to_nat W')) by lia.
  set (w := Z.to_nat W) in *. set (w' := Z.to_nat W') in *.
  rewrite EW, EW'.
  split; [f_equal; lia|]. split; [reflexivity|]. split.
  - intros y x Hy Hx.
    destruct (nth_error (rows self) y) as [r|] eqn:Er;
      [|apply nth_error_None in Er; lia].
    rewrite (image_cell _ _ y x r); [|now rewrite nth_error_app1|assumption].
    destruct (Nat.ltb_spec x w) as [Hlt|Hge].
    + now rewrite (image_cell _ _ y x r).
    + f_equal. unfold pixel_at.
      assert (Hin : In r (rows self)) by (eapply nth_error_In; eassumption).
      pose proof (image_width_ge _ _ Hin) as Hle. fold W in Hle.
      destruct (Z.ltb_spec (Z.of_nat x) (Z.of_nat (length r))); [lia|].
      reflexivity.
  - intros x Hx.
    apply image_cell; [|assumption].
    rewrite nth_error_app2 by lia. now rewrite Nat.sub_diag.
Qed.

Lemma save_as_image_after_append_witness :
  im_size (handed_image "palette.png"
             (snd (add_shades (138, 32, 77) (-10, -10, 25) 2 1
                     {| rows := [[(1, 2, 3)]];
                        hsv_range := (360, 100, 100) |})))
  = (4, 2).
Proof.
  apply (save_as_image_after_append "palette.png"
           (add_shades (138, 32, 77) (-10, -10, 25) 2 1)
           {| rows := [[(1, 2, 3)]]; hsv_range := (360, 100, 100) |}
           [(112, 134, 68); (105, 108, 132); (98, 82, 196); (91, 56, 260)]).
  vm_compute. reflexivity.
Defined.

End ExportMore.

(** ** Reading the rows back from the image *)

Section ExportRows.

Lemma image_row_padded (row : list color) (w : nat) :
  (length row <= w)%nat ->
  map (pixel_at row) (range 0 (Z.of_nat w))
  = row ++ repeat (0, 0, 0) (w - length row).
Proof.
  intros Hw. apply nth_error_ext. intros k.
  destruct (Nat.lt_ge_cases k w) as [Hlt|Hge].
  - rewrite nth_error_map, range_nth_error by lia. cbn [option_map].
    rewrite Z.add_0_l, pixel_at_nth.
    destruct (Nat.ltb_spec k (length row)) as [Hk|Hk].
    + rewrite nth_error_app1 by assumption.
      symmetry. now apply nth_error_nth'.
    + rewrite nth_error_app2 by assumption.
      symmetry. apply nth_error_repeat. lia.
  - rewrite (proj2 (nth_error_None _ _)), (proj2 (nth_error_None _ _));
      [reflexivity| |].
    + rewrite length_app, repeat_length. lia.
    + rewrite image_row_length. lia.
Qed.

Lemma concat_uniform_slice {A : Type} (W : nat) (ls : list (list A)) :
  Forall (fun l => length l = W) ls ->
  forall (y : nat) (l : list A),
    nth_error ls y = Some l ->
    firstn W (skipn (y * W) (concat ls)) = l.
Proof.
  induction 1 as [|l0 ls Hl0 Hls IH]; intros [|y] l; cbn [nth_error concat];
    try discriminate.
  - intros [= <-]. cbn [Nat.mul skipn].
    rewrite firstn_app, <- Hl0, firstn_all, Nat.sub_diag.
    cbn [firstn]. apply app_nil_r.
  - intros Hy.
    replace (S y * W)%nat with (length l0 + y * W)%nat by lia.
    rewrite skipn_app, (skipn_all2 l0) by lia. cbn [app].
    replace (length l0 + y * W - length l0)%nat with (y * W)%nat by lia.
    now apply IH.
Qed.

(** Every row can be read back from the image: image row [y] is row [y]
    of the palette, in order, followed by black up to the width. *)
Theorem save_as_image_rows_kept (filename : string) (self : PixelPalette)
  (y : nat) (row : list color) :
  nth_error (rows self) y = Some row ->
  let img := handed_image filename self in
  let w := list_max (map (@length color) (rows self)) in
  fst (im_size img) = Z.of_nat w /\
  firstn w (skipn (y * w) (im_data img))
    = row ++ repeat (0, 0, 0) (w - length row) /\
  firstn (length row) (skipn (y * w) (im_data img)) = row.
Proof.
  intros Hy img w. unfold img, handed_image, save_as_image.
  cbn [fst im_size im_data].
  rewrite image_width_max, image_pixels_concat. fold w.
  assert (Hin : In row (rows self)) by (eapply nth_error_In; eassumption).
  assert (Hle : (length row <= w)%nat).
  { pose proof (image_width_ge _ _ Hin) as H.
    rewrite image_width_max in H. fold w in H. lia. }
  assert (Hslice :
            firstn w (skipn (y * w)
              (concat (map (fun row0 => map (pixel_at row0)
                                          (range 0 (Z.of_nat w)))
                         (rows self))))
            = row ++ repeat (0, 0, 0) (w - length row)).
  { rewrite <- (image_row_padded row w Hle).
    apply concat_uniform_slice.
    - apply Forall_forall. intros l Hl. apply in_map_iff in Hl.
      destruct Hl as (r & <- & _). rewrite image_row_length. lia.
    - now rewrite nth_error_map, Hy. }
  split; [reflexivity|]. split; [assumption|].
  replace (length row) with (Nat.min (length row) w) at 1 by lia.
  rewrite <- firstn_firstn, Hslice, firstn_app, firstn_all, Nat.sub_diag.
  cbn [firstn]. apply app_nil_r.
Qed.

Lemma save_as_image_rows_kept_witness :
  firstn 2
    (skipn (1 * 2)
       (im_data (handed_image "p.png"
                   {| rows := [[(1, 2, 3)]; [(4, 5, 6); (7, 8, 9)]];
                      hsv_range := (255, 255, 255) |})))
  = [(4, 5, 6); (7, 8, 9)].
Proof.
  apply (save_as_image_rows_kept "p.png"
           {| rows := [[(1, 2, 3)]; [(4, 5, 6); (7, 8, 9)]];
              hsv_range := (255, 255, 255) |} 1%nat
           [(4, 5, 6); (7, 8, 9)]).
  reflexivity.
Defined.

End ExportRows.

(** ** The script *)

Section Script.

(** The script at the end of the file hands the image library, whatever
    it is, a grid of width 7 and height 4 for the file palette.png: the two
    gradient rows, padded with black, and the two shade rows, whose
    channels leave the canonical scale unclamped (a hue of -3, values of
    260, 324 and 388). *)
Theorem script_image (pil_outcome : Type) (pil : pil_image -> pil_outcome) :
  script pil
  = Ok (pil {| im_mode := HSV;
               im_size := (7, 4);
               im_data :=
                 [(34, 48, 252); (26, 83, 252); (19, 118, 252);
                  (11, 153, 252); (0, 0, 0); (0, 0, 0); (0, 0, 0);
                  (11, 153, 252); (247, 138, 215); (229, 123, 178);
                  (210, 108, 142); (191, 94, 105); (173, 79, 68);
                  (154, 64, 31);
                  (112, 134, 68); (105, 108, 132); (98, 82, 196);
                  (91, 56, 260); (0, 0, 0); (0, 0, 0); (0, 0, 0);
                  (-3, 221, 4); (4, 195, 68); (11, 169, 132);
                  (18, 143, 196); (25, 117, 260); (32, 91, 324);
                  (39, 65, 388)];
               im_convert := RGB;
               im_filename := "palette.png"%string |}).
Proof.
  assert (E : script (fun img : pil_image => img)
              = Ok {| im_mode := HSV;
                      im_size := (7, 4);
                      im_data :=
                        [(34, 48, 252); (26, 83, 252); (19, 118, 252);
                         (11, 153, 252); (0, 0, 0); (0, 0, 0); (0, 0, 0);
                         (11, 153, 252); (247, 138, 215); (229, 123, 178);
                         (210, 108, 142); (191, 94, 105); (173, 79, 68);
                         (154, 64, 31);
                         (112, 134, 68); (105, 108, 132); (98, 82, 196);
                         (91, 56, 260); (0, 0, 0); (0, 0, 0); (0, 0, 0);
                         (-3, 221, 4); (4, 195, 68); (11, 169, 132);
                         (18, 143, 196); (25, 117, 260); (32, 91, 324);
                         (39, 65, 388)];
                      im_convert := RGB;
                      im_filename := "palette.png"%string |})
    by (vm_compute; reflexivity).
  revert E. unfold script, run, save_as_image.
  destruct (add_gradient _ _ _ _ _) as [[[]|e1] p1]; [|discriminate].
  destruct (add_gradient _ _ _ _ _) as [[[]|e2] p2]; [|discriminate].
  destruct (add_shades _ _ _ _ _) as [[[]|e3] p3]; [|discriminate].
  destruct (add_shades _ _ _ _ _) as [[[]|e4] p4]; [|discriminate].
  cbn [fst]. intros E.
  apply (f_equal (fun r => i <- r ;; Ok (pil i))) in E. exact E.
Qed.

End Script.
